(** * core-zod-schema-validator: [validateSchemaZod] and its mismatch annotation

    The module under verification is one public function,
    [validateSchemaZod (data, schema, issuesStyles)], and one private one,
    [_validateSchemaZOD].  They lean on the JavaScript runtime
    ([Array.prototype.join], [JSON.stringify], [String],
    [String.prototype.replaceAll], object spread) and on lodash
    ([_.cloneDeep], [_.get], [_.set], as of lodash 4.17.21).  Those are
    embedded here as far as the module uses them:

    - a text is held in a [string], character by character; a character
      outside ASCII is held as the bytes of its UTF-8 form, so the length
      and the indices of a text with such characters are those of its bytes;
    - a number is held by the decimal digits and the exponent that the
      language writes for it, so that the texts made of numbers are the
      language's for every number; numbers are not computed with;
    - objects own their properties only: nothing is inherited from a
      prototype, and there are no accessors, symbols or [toJSON] methods.
      A name that the language finds in a prototype reads [undefined]
      here; the functions found there are shown as [undefined] as well;
    - an array has elements only; a hole reads [undefined], and is held as
      [VUndefined];
    - writing a property that is not an array index to an array is outside
      the embedding: [PutValue] answers [None] there.  One such write is
      told apart: the assignment of something that is not a number to the
      [length] of an array, which throws ([PutValue_throws]).

    The first part works on immutable trees.  The second part ([Module Heap])
    puts the same code on a store of mutable objects, to speak about aliasing
    and about what a call writes.  The two are tied together at the end:
    the run on a store does what the run on trees does. *)

From Stdlib Require Import ZArith Ascii String List Bool Lia DecimalString DecimalPos.
From stdpp Require Import base option list strings gmap.
Import ListNotations.
Local Open Scope string_scope.
Local Open Scope list_scope.

(** ** Characters and the regular expressions of lodash's path parser *)

Definition char_in (lo hi : N) (c : ascii) : bool :=
  ((lo <=? N_of_ascii c) && (N_of_ascii c <=? hi))%N.

(** [\d] *)
Definition is_digit (c : ascii) : bool := char_in 48 57 c.

(** [\w]: letters, digits and the underscore *)
Definition is_word (c : ascii) : bool :=
  char_in 97 122 c || char_in 65 90 c || is_digit c || Ascii.eqb c "_".

(** The three characters that [rePropName] treats apart: [.], [[] and []]. *)
Definition is_path_special (c : ascii) : bool :=
  Ascii.eqb c "." || Ascii.eqb c "[" || Ascii.eqb c "]".

Definition dquote : ascii := ascii_of_N 34.

Definition is_quote (c : ascii) : bool :=
  Ascii.eqb c dquote || Ascii.eqb c "'".

Definition backslash : ascii := ascii_of_N 92.

(** [.] of a regular expression without the [s] flag: no line terminator. *)
Definition is_dot_char (c : ascii) : bool :=
  negb (Ascii.eqb c (ascii_of_N 10) || Ascii.eqb c (ascii_of_N 13)).

Fixpoint string_forallb (p : ascii -> bool) (s : string) : bool :=
  match s with
  | EmptyString => true
  | String c r => p c && string_forallb p r
  end.

Fixpoint string_existsb (p : ascii -> bool) (s : string) : bool :=
  match s with
  | EmptyString => false
  | String c r => p c || string_existsb p r
  end.

(** [reIsPlainProp = /^\w*$/] *)
Definition reIsPlainProp_test (s : string) : bool := string_forallb is_word s.

(** The longest prefix of characters satisfying [p], and what follows it. *)
Fixpoint span (p : ascii -> bool) (s : string) : string * string :=
  match s with
  | String c r =>
      if p c then let '(a, b) := span p r in (String c a, b) else (EmptyString, s)
  | EmptyString => (EmptyString, EmptyString)
  end.

(** [(?:(?!\q)[^\\]|\\.)*?\q\]] read after the opening quote [q]: the
    characters up to the first quote that is not escaped, which a []] must
    follow.  The result is the text between the quotes and the rest after
    the bracket. *)
Fixpoint match_quoted (q : ascii) (s : string) : option (string * string) :=
  match s with
  | EmptyString => None
  | String c r =>
      if Ascii.eqb c q then
        match r with
        | String d r' => if Ascii.eqb d "]" then Some (EmptyString, r') else None
        | EmptyString => None
        end
      else if Ascii.eqb c backslash then
        match r with
        | String d r' =>
            if is_dot_char d then
              match match_quoted q r' with
              | Some (a, b) => Some (String c (String d a), b)
              | None => None
              end
            else None
        | EmptyString => None
        end
      else
        match match_quoted q r with
        | Some (a, b) => Some (String c a, b)
        | None => None
        end
  end.

(** [-?\d+(?:\.\d+)?\]] read after the opening bracket. *)
Definition match_number (s : string) : option (string * string) :=
  let '(sign, s1) :=
    match s with
    | String c r => if Ascii.eqb c "-" then ("-", r) else (EmptyString, s)
    | EmptyString => (EmptyString, s)
    end in
  let '(ds, s2) := span is_digit s1 in
  match ds with
  | EmptyString => None
  | _ =>
      match s2 with
      | String c r =>
          if Ascii.eqb c "]" then Some (sign +:+ ds, r)
          else if Ascii.eqb c "." then
            let '(fs, s3) := span is_digit r in
            match fs, s3 with
            | String _ _, String d r' =>
                if Ascii.eqb d "]" then Some (sign +:+ ds +:+ "." +:+ fs, r') else None
            | _, _ => None
            end
          else None
      | EmptyString => None
      end
  end.

(** [reEscapeChar = /\\(\\)?/g] replaced by ['$1']. *)
Fixpoint unescape (s : string) : string :=
  match s with
  | EmptyString => EmptyString
  | String c r =>
      if Ascii.eqb c backslash then
        match r with
        | String d r' =>
            if Ascii.eqb d backslash then String backslash (unescape r') else unescape r
        | EmptyString => EmptyString
        end
      else String c (unescape r)
  end.

(** [(?:\.|\[\])] then [(?:\.|\[\]|$)], the look-ahead of [rePropName]. *)
Definition dot_or_brackets (s : string) : option string :=
  match s with
  | String c r =>
      if Ascii.eqb c "." then Some r
      else if Ascii.eqb c "[" then
        match r with
        | String d r' => if Ascii.eqb d "]" then Some r' else None
        | EmptyString => None
        end
      else None
  | EmptyString => None
  end.

Definition lookahead_empty_key (s : string) : bool :=
  match dot_or_brackets s with
  | Some r =>
      match r with
      | EmptyString => true
      | _ => match dot_or_brackets r with Some _ => true | None => false end
      end
  | None => false
  end.

(** One match of [rePropName] at the head of [s]: the key it pushes and the
    text left for the next match.  [None]: no alternative matches here. *)
Definition rePropName_at (s : string) : option (string * string) :=
  match s with
  | EmptyString => None
  | String c r =>
      if negb (is_path_special c) then Some (span (fun c => negb (is_path_special c)) s)
      else
        let bracket :=
          if Ascii.eqb c "[" then
            match match_number r with
            | Some (num, rest) => Some (num, rest)
            | None =>
                match r with
                | String q r' =>
                    if is_quote q then
                      match match_quoted q r' with
                      | Some (sub, rest) => Some (unescape sub, rest)
                      | None => None
                      end
                    else None
                | EmptyString => None
                end
            end
          else None in
        match bracket with
        | Some m => Some m
        | None => if lookahead_empty_key s then Some (EmptyString, r) else None
        end
  end.

(** [string.replace(rePropName, ...)]: the matches from left to right.  After
    an empty match, and where nothing matches, the scan moves one character
    on.  [fuel] bounds the number of steps; the length of the string is
    enough, as every step consumes a character. *)
Fixpoint rePropName_scan (fuel : nat) (s : string) : list string :=
  match fuel with
  | O => []
  | S fuel' =>
      match s with
      | EmptyString => []
      | String _ r =>
          match rePropName_at s with
          | Some (key, rest) => key :: rePropName_scan fuel' rest
          | None => rePropName_scan fuel' r
          end
      end
  end.

(** [stringToPath] *)
Definition stringToPath (s : string) : list string :=
  (match s with
   | String c _ => if Ascii.eqb c "." then [EmptyString] else []
   | EmptyString => []
   end) ++ rePropName_scan (String.length s) s.

(** [reIsDeepProp]: a dot, or an opening bracket followed either by
    characters other than brackets or by a quoted text (as in
    [match_quoted]), and then by a closing bracket. *)
Definition deep_bracket_at (r : string) : bool :=
  let '(_, after) := span (fun c => negb (Ascii.eqb c "[" || Ascii.eqb c "]")) r in
  match after with
  | String d _ => Ascii.eqb d "]"
  | EmptyString => false
  end
  || match r with
     | String q r' =>
         is_quote q && match match_quoted q r' with Some _ => true | None => false end
     | EmptyString => false
     end.

Fixpoint reIsDeepProp_test (s : string) : bool :=
  match s with
  | EmptyString => false
  | String c r =>
      Ascii.eqb c "."
      || (Ascii.eqb c "[" && deep_bracket_at r)
      || reIsDeepProp_test r
  end.

(** [reIsUint]: a lone [0], or a digit from 1 to 9 followed by digits. *)
Definition reIsUint_test (s : string) : bool :=
  match s with
  | EmptyString => false
  | String c r =>
      if Ascii.eqb c "0" then match r with EmptyString => true | _ => false end
      else char_in 49 57 c && string_forallb is_digit r
  end.

(** The number a string of digits writes. *)
Fixpoint digits_value (acc : N) (s : string) : N :=
  match s with
  | EmptyString => acc
  | String c r => digits_value (10 * acc + (N_of_ascii c - 48))%N r
  end.

Definition MAX_SAFE_INTEGER : N := 9007199254740991.

(** lodash's [isIndex (value)] on a string, with the default length. *)
Definition isIndex (s : string) : bool :=
  reIsUint_test s && (digits_value 0 s <? MAX_SAFE_INTEGER)%N.

(** An array index in the sense of the language: a canonical numeric string
    below [2^32 - 1]. *)
Definition array_index (s : string) : option nat :=
  if reIsUint_test s && (digits_value 0 s <? 4294967295)%N
  then Some (N.to_nat (digits_value 0 s)) else None.

(** ** Numbers

    A number is held by the decimal digits that the language writes for it
    ([Number::toString]): [Num negative s n] is the number of absolute value
    [0.d1...dk * 10^n], where [d1...dk] are the decimal digits of [s].  The
    two zeros are one: they are written alike and are the same to
    [SameValueZero]. *)
Inductive number : Type :=
  | NaN
  | Infinity (negative : bool)
  | Zero
  | Num (negative : bool) (s : positive) (n : Z).

#[global] Instance number_eq_dec : EqDecision number.
Proof. solve_decision. Defined.

(** The decimal digits of [s]. *)
Definition digits_of (s : positive) : string := NilEmpty.string_of_uint (Pos.to_uint s).

(** The integer [z] as a number. *)
Definition number_of_Z (z : Z) : number :=
  match z with
  | Z0 => Zero
  | Zpos p => Num false p (Z.of_nat (String.length (digits_of p)))
  | Zneg p => Num true p (Z.of_nat (String.length (digits_of p)))
  end.

Coercion number_of_Z : Z >-> number.

(** [s] without the zeros at its end. *)
Fixpoint strip_zeros (s : string) : string :=
  match s with
  | EmptyString => EmptyString
  | String c r =>
      match strip_zeros r with
      | EmptyString => if Ascii.eqb c "0" then EmptyString else String c EmptyString
      | r' => String c r'
      end
  end.

Fixpoint zeros (n : nat) : string :=
  match n with
  | O => EmptyString
  | S n' => String "0" (zeros n')
  end.

(** The first [n] characters of [s], and the rest. *)
Fixpoint string_splitAt (n : nat) (s : string) : string * string :=
  match n, s with
  | S n', String c r => let '(a, b) := string_splitAt n' r in (String c a, b)
  | _, _ => (EmptyString, s)
  end.

(** [Number::toString (x)] in radix 10.  With [k] the number of digits and
    [n] the exponent: the digits followed by zeros when [k <= n <= 21]; the
    digits with a point after [n] of them when [0 < n <= 21]; [0.], zeros and
    the digits when [-6 < n <= 0]; and else the first digit, the other
    digits after a point, and [e] with the sign and the digits of
    [n - 1]. *)
Definition Number_toString (x : number) : string :=
  match x with
  | NaN => "NaN"
  | Infinity negative => if negative then "-Infinity" else "Infinity"
  | Zero => "0"
  | Num negative s n =>
      let ds := strip_zeros (digits_of s) in
      let k := Z.of_nat (String.length ds) in
      (if negative then "-" else "")
      +:+ (if (k <=? n)%Z && (n <=? 21)%Z then ds +:+ zeros (Z.to_nat (n - k))
           else if (0 <? n)%Z && (n <=? 21)%Z then
             let '(int, frac) := string_splitAt (Z.to_nat n) ds in
             int +:+ "." +:+ frac
           else if (-6 <? n)%Z && (n <=? 0)%Z then
             "0." +:+ zeros (Z.to_nat (- n)) +:+ ds
           else
             let e := (n - 1)%Z in
             let exponent :=
               (if (0 <? e)%Z then "+" else "-") +:+ digits_of (Z.to_pos (Z.abs e)) in
             match ds with
             | String d EmptyString => String d ("e" +:+ exponent)
             | String d rest => String d ("." +:+ rest +:+ "e" +:+ exponent)
             | EmptyString => EmptyString
             end)
  end.

(** ** Values *)

Local Set Warnings "-register-all".

(** The data handed to the validator: a tree of objects and arrays with
    scalar leaves.  The properties of an object are kept in the order in
    which the language enumerates them. *)
Inductive value : Type :=
  | VUndefined
  | VNull
  | VBool (b : bool)
  | VNum (x : number)
  | VStr (s : string)
  | VArr (elems : list value)
  | VObj (props : list (string * value)).

Arguments VNum x%_Z.

(** [value == null] *)
Definition isNullish (v : value) : bool :=
  match v with VUndefined | VNull => true | _ => false end.

(** lodash's [isObject] *)
Definition isObject (v : value) : bool :=
  match v with VArr _ | VObj _ => true | _ => false end.

(** *** Own properties *)

Section OwnProperties.
Context {A : Type}.

Fixpoint own_lookup (key : string) (props : list (string * A)) : option A :=
  match props with
  | [] => None
  | (k, x) :: rest => if String.eqb k key then Some x else own_lookup key rest
  end.

Fixpoint own_replace (key : string) (v : A) (props : list (string * A))
  : list (string * A) :=
  match props with
  | [] => []
  | (k, x) :: rest =>
      if String.eqb k key then (k, v) :: rest else (k, x) :: own_replace key v rest
  end.

(** A new property.  Array indices come first, in ascending order; the
    other names follow in the order of their creation. *)
Fixpoint own_insert_index (i : nat) (key : string) (v : A)
    (props : list (string * A)) : list (string * A) :=
  match props with
  | [] => [(key, v)]
  | (k, x) :: rest =>
      match array_index k with
      | Some j =>
          if (j <? i)%nat then (k, x) :: own_insert_index i key v rest
          else (key, v) :: props
      | None => (key, v) :: props
      end
  end.

Definition own_insert (key : string) (v : A) (props : list (string * A))
  : list (string * A) :=
  match array_index key with
  | Some i => own_insert_index i key v props
  | None => props ++ [(key, v)]
  end.

(** [object[key] = v] on the properties of an ordinary object. *)
Definition own_define (key : string) (v : A) (props : list (string * A))
  : list (string * A) :=
  match own_lookup key props with
  | Some _ => own_replace key v props
  | None => own_insert key v props
  end.
End OwnProperties.

(** [array[i] = v]: in range the element is replaced; beyond the end the
    array grows, and the elements in between are holes. *)
Definition array_put {A : Type} (hole : A) (i : nat) (v : A) (elems : list A) : list A :=
  if (i <? length elems)%nat then <[i := v]> elems
  else elems ++ repeat hole (i - length elems) ++ [v].

(** The code unit at position [i] of a string. *)
Fixpoint string_get (i : nat) (s : string) : option ascii :=
  match s, i with
  | EmptyString, _ => None
  | String c _, O => Some c
  | String _ r, S i' => string_get i' r
  end.

(** [object[key]] for an [object] that is neither [null] nor [undefined]. *)
Definition GetV (object : value) (key : string) : value :=
  match object with
  | VObj props => default VUndefined (own_lookup key props)
  | VArr elems =>
      if String.eqb key "length" then VNum (Z.of_nat (length elems))
      else match array_index key with
           | Some i => default VUndefined (elems !! i)
           | None => VUndefined
           end
  | VStr s =>
      if String.eqb key "length" then VNum (Z.of_nat (String.length s))
      else match array_index key with
           | Some i =>
               match string_get i s with
               | Some c => VStr (String c EmptyString)
               | None => VUndefined
               end
           | None => VUndefined
           end
  | _ => VUndefined
  end.

(** [object[key] = v] for an object or an array.  [None]: the write is
    outside the embedding (a name that is not an index, on an array). *)
Definition PutValue (object : value) (key : string) (v : value) : option value :=
  match object with
  | VObj props => Some (VObj (own_define key v props))
  | VArr elems =>
      match array_index key with
      | Some i => Some (VArr (array_put VUndefined i v elems))
      | None => None
      end
  | _ => None
  end.

(** *** The length of an array

    [array.length = v] sets the length to [ToNumber (v)], and throws a
    [RangeError] when that is not an array length.  Numbers are not computed
    with here: what is told is when [ToNumber (v)] is [NaN] for certain. *)

(** The characters that a numeric literal is written with (its digits, the
    letters of a hexadecimal, octal or binary literal and of [Infinity], the
    signs, the dot), and white space.  A code unit above 127 is counted in,
    for the white space that lies there. *)
Definition numeric_char (c : ascii) : bool :=
  is_digit c || char_in 97 102 c || char_in 65 70 c
  || existsb (Ascii.eqb c)
       ["x"; "X"; "o"; "O"; "b"; "B"; "I"; "n"; "i"; "t"; "y"; "+"; "-"; "."]%char
  || char_in 9 13 c || Ascii.eqb c " " || (128 <=? N_of_ascii c)%N.

(** [ToNumber (v)] is [NaN]: [v] is [undefined], a string with a character
    that no numeric literal has, or an object whose text is
    [[object Object]]. *)
Definition not_a_length (v : value) : bool :=
  match v with
  | VUndefined => true
  | VStr s => string_existsb (λ c, negb (numeric_char c)) s
  | VObj props =>
      match own_lookup "valueOf" props, own_lookup "toString" props with
      | None, None => true
      | _, _ => false
      end
  | _ => false
  end.

Definition errorInvalidArrayLength : string := "Invalid array length".

(** [object[key] = v] throws [errorInvalidArrayLength]. *)
Definition PutValue_throws (object : value) (key : string) (v : value) : bool :=
  match object with
  | VArr _ => String.eqb key "length" && not_a_length v
  | _ => false
  end.

(** [key in Object(object)] *)
Definition HasProperty (object : value) (key : string) : bool :=
  match object with
  | VObj props => match own_lookup key props with Some _ => true | None => false end
  | VArr elems =>
      String.eqb key "length"
      || match array_index key with Some i => (i <? length elems)%nat | None => false end
  | VStr s =>
      String.eqb key "length"
      || match array_index key with Some i => (i <? String.length s)%nat | None => false end
  | _ => false
  end.

(** ** lodash *)

(** [isKey (value, object)] for a string [value]. *)
Definition isKey (path : string) (object : value) : bool :=
  reIsPlainProp_test path
  || negb (reIsDeepProp_test path)
  || (negb (isNullish object) && HasProperty object path).

(** [castPath (value, object)] for a string [value]. *)
Definition castPath (path : string) (object : value) : list string :=
  if isKey path object then [path] else stringToPath path.

(** The loop of [baseGet]: [object = object[toKey (path[index++])]] while
    [object != null]; a walk that stops early gives [undefined]. *)
Fixpoint baseGet_walk (object : value) (path : list string) : value :=
  match path with
  | [] => object
  | key :: rest =>
      if isNullish object then VUndefined else baseGet_walk (GetV object key) rest
  end.

Definition baseGet (object : value) (path : string) : value :=
  match castPath path object with
  | [] => VUndefined
  | keys => baseGet_walk object keys
  end.

(** [_.get (object, path)] *)
Definition get (object : value) (path : string) : value :=
  if isNullish object then VUndefined else baseGet object path.

(** The keys at which [baseSet] gives up. *)
Definition is_unsafe_key (key : string) : bool :=
  String.eqb key "__proto__" || String.eqb key "constructor" || String.eqb key "prototype".

(** The loop of [baseSet] from the object [nested] on: what [nested] holds
    when the loop is left.  [assignValue] followed by [nested = nested[key]]
    is the write of the child the rest of the loop produces. *)
Fixpoint baseSet_walk (nested : value) (path : list string) (v : value) : option value :=
  match path with
  | [] => Some nested
  | key :: rest =>
      if is_unsafe_key key then Some nested
      else
        match rest with
        | [] => PutValue nested key v
        | next :: _ =>
            let objValue := GetV nested key in
            let newValue :=
              if isObject objValue then objValue
              else if isIndex next then VArr [] else VObj [] in
            match baseSet_walk newValue rest v with
            | Some child => PutValue nested key child
            | None => None
            end
        end
  end.

Definition baseSet (object : value) (path : string) (v : value) : option value :=
  if negb (isObject object) then Some object
  else baseSet_walk object (castPath path object) v.

(** [_.set (object, path, value)] *)
Definition set (object : value) (path : string) (v : value) : option value :=
  if isNullish object then Some object else baseSet object path v.

(** Where the loop of [baseSet] is left by a throw.  The loop goes from
    the root down: [assignValue (nested, key, newValue)] comes before the
    step into [nested[key]].  [true]: an assignment on the way throws
    [errorInvalidArrayLength], and the ones before it are within the
    embedding. *)
Fixpoint baseSet_walk_throws (nested : value) (path : list string) (v : value) : bool :=
  match path with
  | [] => false
  | key :: rest =>
      if is_unsafe_key key then false
      else
        match rest with
        | [] => PutValue_throws nested key v
        | next :: _ =>
            let objValue := GetV nested key in
            let newValue :=
              if isObject objValue then objValue
              else if isIndex next then VArr [] else VObj [] in
            PutValue_throws nested key newValue
            || match PutValue nested key newValue with
               | Some _ => baseSet_walk_throws newValue rest v
               | None => false
               end
        end
  end.

Definition baseSet_throws (object : value) (path : string) (v : value) : bool :=
  if negb (isObject object) then false
  else baseSet_walk_throws object (castPath path object) v.

(** [_.set (object, path, value)] throws [errorInvalidArrayLength]. *)
Definition set_throws (object : value) (path : string) (v : value) : bool :=
  if isNullish object then false else baseSet_throws object path v.

(** [_.cloneDeep (value)]: arrays and plain objects are rebuilt element by
    element, everything else is returned as it is. *)
Fixpoint cloneDeep (v : value) : value :=
  match v with
  | VArr elems => VArr (map cloneDeep elems)
  | VObj props => VObj (map (fun kv => (fst kv, cloneDeep (snd kv))) props)
  | _ => v
  end.

(** ** The runtime: [JSON.stringify], [String], [replaceAll], [join] *)

Definition hex_digit (n : N) : ascii :=
  if (n <? 10)%N then ascii_of_N (48 + n) else ascii_of_N (87 + n).

(** The escape of one code unit inside a JSON string literal. *)
Definition json_escape (c : ascii) : string :=
  let n := N_of_ascii c in
  if Ascii.eqb c dquote then String backslash (String dquote EmptyString)
  else if Ascii.eqb c backslash then String backslash (String backslash EmptyString)
  else if (n =? 8)%N then String backslash "b"
  else if (n =? 9)%N then String backslash "t"
  else if (n =? 10)%N then String backslash "n"
  else if (n =? 12)%N then String backslash "f"
  else if (n =? 13)%N then String backslash "r"
  else if (n <? 32)%N then
    String backslash
      (String "u" (String "0" (String "0"
        (String (hex_digit (n / 16)) (String (hex_digit (n mod 16)) EmptyString)))))
  else String c EmptyString.

Fixpoint string_flat_map (f : ascii -> string) (s : string) : string :=
  match s with
  | EmptyString => EmptyString
  | String c r => f c +:+ string_flat_map f r
  end.

(** [QuoteJSONString] *)
Definition QuoteJSONString (s : string) : string :=
  String dquote (string_flat_map json_escape s) +:+ String dquote EmptyString.

(** [JSON.stringify (value)] without indentation; [None] stands for the
    result [undefined].  In an array [undefined] is written [null]; in an
    object a property holding [undefined] is left out. *)
Fixpoint JSON_stringify (v : value) : option string :=
  match v with
  | VUndefined => None
  | VNull => Some "null"
  | VBool true => Some "true"
  | VBool false => Some "false"
  | VNum x =>
      Some (match x with NaN | Infinity _ => "null" | _ => Number_toString x end)
  | VStr s => Some (QuoteJSONString s)
  | VArr elems =>
      Some ("[" +:+ String.concat ","
                     (map (fun e => default "null" (JSON_stringify e)) elems) +:+ "]")
  | VObj props =>
      Some ("{" +:+ String.concat ","
                     (omap (fun kv =>
                              match JSON_stringify (snd kv) with
                              | Some s => Some (QuoteJSONString (fst kv) +:+ ":" +:+ s)
                              | None => None
                              end) props) +:+ "}")
  end.

(** [String (x)] for the result of [JSON.stringify]. *)
Definition String_of (x : option string) : string := default "undefined" x.

(** [s.replaceAll (from, to)] for one-character [from] and [to]. *)
Fixpoint replaceAll (from to : ascii) (s : string) : string :=
  match s with
  | EmptyString => EmptyString
  | String c r => String (if Ascii.eqb c from then to else c) (replaceAll from to r)
  end.

(** ** Issues, styles and the validation engine *)

(** A segment of an issue's path: a property name or an index. *)
Inductive segment : Type :=
  | Key (name : string)
  | Index (x : number).

Arguments Index x%_Z.

Definition segment_toString (s : segment) : string :=
  match s with
  | Key name => name
  | Index x => Number_toString x
  end.

(** [path.join (sep)] *)
Definition join (sep : string) (path : list segment) : string :=
  String.concat sep (map segment_toString path).

Record ZodIssue : Type := {
  path : list segment;
  message : string;
}.

(** What [schema.safeParse (data)] answers. *)
Inductive SafeParseReturn : Type :=
  | SafeParseSuccess
  | SafeParseError (issues : list ZodIssue).

(** A schema is taken for what the module asks of it: its [safeParse]. *)
Record ZodSchema : Type := {
  safeParse : value -> SafeParseReturn;
}.

(** The [schema] argument as a caller can pass it. *)
Inductive schema_arg : Type :=
  | SchemaUndefined
  | SchemaNull
  | SchemaObject (schema : ZodSchema).

(** A styles object: a map from its own property names to strings. *)
Abbreviation styles := (gmap string string).

Definition issuesStylesDefault : styles :=
  <["iconPropertyError" := "⚠️"]> (<["iconPropertyMissing" := "❌"]> ∅).

(** [{...defaults, ...overrides}]: the properties of [overrides] are copied
    last, so they win. *)
Definition spread (defaults overrides : styles) : styles := overrides ∪ defaults.

Definition errorInvalidSchema : string := "You must provide a valid schema!".

(** [${x}] in a template, for a property read off a styles object. *)
Definition template_of (x : option string) : string := default "undefined" x.

(** What a call comes to: a result, an error thrown, or a write that is
    outside the embedding. *)
Inductive outcome (A : Type) : Type :=
  | Returned (a : A)
  | Thrown (error : string)
  | Unmodelled.
Arguments Returned {A} a.
Arguments Thrown {A} error.
Arguments Unmodelled {A}.

Record ValidationResult : Type := {
  valid : bool;
  v_errors : option (list ZodIssue);
  v_dataMismatches : value;
}.

Record Result : Type := {
  errors : option (list ZodIssue);
  dataMismatches : value;
  issuesStyles : styles;
}.

(** ** The module *)

(** The text that the body of the [forEach] writes for [error]; [value] is
    what [_.get (data, instancePath)] gave. *)
Definition errorDescription (issuesStyles : styles) (value : value) (error : ZodIssue)
  : string :=
  let iconPropertyError := issuesStyles !! "iconPropertyError" in
  let iconPropertyMissing := issuesStyles !! "iconPropertyMissing" in
  if String.eqb (message error) "Required" then
    template_of iconPropertyMissing +:+ " Missing property"
  else
    let valueDisplay := replaceAll dquote "'" (String_of (JSON_stringify value)) in
    " " +:+ template_of iconPropertyError +:+ " " +:+ valueDisplay +:+ " " +:+ message error.

(** The body of the [forEach]: [dataMismatches] after the issue [error]. *)
Definition annotate (issuesStyles : styles) (data : value)
    (dataMismatches : value) (error : ZodIssue) : option value :=
  let instancePath := join "." (path error) in
  let value := get data instancePath in
  set dataMismatches instancePath (VStr (errorDescription issuesStyles value error)).

(** [errors.forEach (...)] *)
Fixpoint forEach (issuesStyles : styles) (data : value)
    (errors : list ZodIssue) (dataMismatches : value) : option value :=
  match errors with
  | [] => Some dataMismatches
  | error :: rest =>
      match annotate issuesStyles data dataMismatches error with
      | Some dataMismatches' => forEach issuesStyles data rest dataMismatches'
      | None => None
      end
  end.

(** The body of the [forEach] throws [errorInvalidArrayLength]. *)
Definition annotate_throws (issuesStyles : styles) (data : value)
    (dataMismatches : value) (error : ZodIssue) : bool :=
  let instancePath := join "." (path error) in
  let value := get data instancePath in
  set_throws dataMismatches instancePath (VStr (errorDescription issuesStyles value error)).

(** [errors.forEach (...)] is left by a throw: the issues before the one
    that throws have been written. *)
Fixpoint forEach_throws (issuesStyles : styles) (data : value)
    (errors : list ZodIssue) (dataMismatches : value) : bool :=
  match errors with
  | [] => false
  | error :: rest =>
      annotate_throws issuesStyles data dataMismatches error
      || match annotate issuesStyles data dataMismatches error with
         | Some dataMismatches' => forEach_throws issuesStyles data rest dataMismatches'
         | None => false
         end
  end.

Definition _validateSchemaZOD (schema : ZodSchema) (data : value) (issuesStyles : styles)
  : outcome ValidationResult :=
  let result := safeParse schema data in
  let dataMismatches := cloneDeep data in
  match result with
  | SafeParseSuccess =>
      Returned {| valid := true; v_errors := None; v_dataMismatches := dataMismatches |}
  | SafeParseError issues =>
      match forEach issuesStyles data issues dataMismatches with
      | Some dataMismatches' =>
          Returned {| valid := false; v_errors := Some issues;
                      v_dataMismatches := dataMismatches' |}
      | None =>
          if forEach_throws issuesStyles data issues dataMismatches
          then Thrown errorInvalidArrayLength
          else Unmodelled
      end
  end.

(** [validateSchemaZod (data, schema, issuesStyles = {})].  The first
    component is what the call writes to the console. *)
Definition validateSchemaZod (data : value) (schema : schema_arg)
    (issuesStyles : option styles) : list string * outcome Result :=
  match schema with
  | SchemaUndefined | SchemaNull => ([errorInvalidSchema], Thrown errorInvalidSchema)
  | SchemaObject schema =>
      let issuesStyles := spread issuesStylesDefault (default ∅ issuesStyles) in
      match _validateSchemaZOD schema data issuesStyles with
      | Returned r =>
          ([], Returned {| errors := v_errors r;
                           dataMismatches := v_dataMismatches r;
                           issuesStyles := issuesStyles |})
      | Thrown e => ([], Thrown e)
      | Unmodelled => ([], Unmodelled)
      end
  end.

(** ** What the statements below speak of *)

(** A text without dots and brackets. *)
Definition special_free (s : string) : bool :=
  string_forallb (λ c, negb (is_path_special c)) s.

(** Keys none of which [baseSet] refuses. *)
Definition safe_keys (keys : list string) : Prop :=
  Forall (λ key, is_unsafe_key key = false) keys.

(** A path that [_.set] writes whatever the object: it has keys, and none
    that [baseSet] refuses. *)
Definition resolves (path : string) : Prop :=
  ∀ object, castPath path object ≠ [] ∧ safe_keys (castPath path object).

(** An engine that reports the given issues on every data, and one that
    accepts every data. *)
Definition reporting (issues : list ZodIssue) : ZodSchema :=
  {| safeParse := λ _, SafeParseError issues |}.

Definition accepting : ZodSchema := {| safeParse := λ _, SafeParseSuccess |}.

Definition issue (path : list segment) (message : string) : ZodIssue :=
  {| path := path; message := message |}.

(** ** The same code on a store of mutable objects

    Objects and arrays live in cells of a store and are held by reference.
    A call allocates cells ([_.cloneDeep], the objects that [_.set] creates
    on its way) and writes to them ([assignValue]). *)

Module Heap.

Abbreviation loc := nat.

(** What a variable, a property or an element holds. *)
Inductive rvalue : Type :=
  | RUndefined
  | RNull
  | RBool (b : bool)
  | RNum (x : number)
  | RStr (s : string)
  | RRef (l : loc).

Arguments RNum x%_Z.

#[global] Instance rvalue_eq_dec : EqDecision rvalue.
Proof. solve_decision. Defined.

Inductive cell : Type :=
  | CObj (props : list (string * rvalue))
  | CArr (elems : list rvalue).

(** The store: the cell of the reference [l] is at position [l].  A new
    cell goes to the end. *)
Abbreviation heap := (list cell).

Definition alloc (c : cell) (h : heap) : rvalue * heap :=
  (RRef (length h), h ++ [c]).

Definition isNullish (v : rvalue) : bool :=
  match v with RUndefined | RNull => true | _ => false end.

Definition isObject (v : rvalue) : bool :=
  match v with RRef _ => true | _ => false end.

(** [object[key]] *)
Definition GetV (h : heap) (object : rvalue) (key : string) : rvalue :=
  match object with
  | RRef l =>
      match h !! l with
      | Some (CObj props) => default RUndefined (own_lookup key props)
      | Some (CArr elems) =>
          if String.eqb key "length" then RNum (Z.of_nat (length elems))
          else match array_index key with
               | Some i => default RUndefined (elems !! i)
               | None => RUndefined
               end
      | None => RUndefined
      end
  | RStr s =>
      if String.eqb key "length" then RNum (Z.of_nat (String.length s))
      else match array_index key with
           | Some i =>
               match string_get i s with
               | Some c => RStr (String c EmptyString)
               | None => RUndefined
               end
           | None => RUndefined
           end
  | _ => RUndefined
  end.

(** [key in Object(object)], which for these objects is also
    [hasOwnProperty.call (object, key)]. *)
Definition HasProperty (h : heap) (object : rvalue) (key : string) : bool :=
  match object with
  | RRef l =>
      match h !! l with
      | Some (CObj props) =>
          match own_lookup key props with Some _ => true | None => false end
      | Some (CArr elems) =>
          String.eqb key "length"
          || match array_index key with
             | Some i => (i <? length elems)%nat
             | None => false
             end
      | None => false
      end
  | RStr s =>
      String.eqb key "length"
      || match array_index key with
         | Some i => (i <? String.length s)%nat
         | None => false
         end
  | _ => false
  end.

(** [object[key] = v]: the cell of [object] is overwritten in place. *)
Definition PutValue (h : heap) (object : rvalue) (key : string) (v : rvalue)
  : option heap :=
  match object with
  | RRef l =>
      match h !! l with
      | Some (CObj props) => Some (<[l := CObj (own_define key v props)]> h)
      | Some (CArr elems) =>
          match array_index key with
          | Some i => Some (<[l := CArr (array_put RUndefined i v elems)]> h)
          | None => None
          end
      | None => None
      end
  | _ => None
  end.

(** [array[i] = v] for a number [i]. *)
Definition PutIndex (h : heap) (object : rvalue) (i : nat) (v : rvalue) : option heap :=
  match object with
  | RRef l =>
      match h !! l with
      | Some (CArr elems) => Some (<[l := CArr (array_put RUndefined i v elems)]> h)
      | _ => None
      end
  | _ => None
  end.

(** lodash's [assignValue]: nothing is written when the property is there
    and already holds [v]. *)
Definition assignValue (h : heap) (object : rvalue) (key : string) (v : rvalue)
  : option heap :=
  if HasProperty h object key && bool_decide (GetV h object key = v) then Some h
  else PutValue h object key v.

Definition isKey (h : heap) (path : string) (object : rvalue) : bool :=
  reIsPlainProp_test path
  || negb (reIsDeepProp_test path)
  || (negb (isNullish object) && HasProperty h object path).

Definition castPath (h : heap) (path : string) (object : rvalue) : list string :=
  if isKey h path object then [path] else stringToPath path.

Fixpoint baseGet_walk (h : heap) (object : rvalue) (path : list string) : rvalue :=
  match path with
  | [] => object
  | key :: rest =>
      if isNullish object then RUndefined else baseGet_walk h (GetV h object key) rest
  end.

Definition baseGet (h : heap) (object : rvalue) (path : string) : rvalue :=
  match castPath h path object with
  | [] => RUndefined
  | keys => baseGet_walk h object keys
  end.

Definition get (h : heap) (object : rvalue) (path : string) : rvalue :=
  if isNullish object then RUndefined else baseGet h object path.

(** The loop of [baseSet], one round per key. *)
Fixpoint baseSet_walk (h : heap) (nested : rvalue) (path : list string) (v : rvalue)
  : option heap :=
  match path with
  | [] => Some h
  | key :: rest =>
      if isNullish nested then Some h
      else if is_unsafe_key key then Some h
      else
        let '(newValue, h1) :=
          match rest with
          | [] => (v, h)
          | next :: _ =>
              let objValue := GetV h nested key in
              if isObject objValue then (objValue, h)
              else alloc (if isIndex next then CArr [] else CObj []) h
          end in
        match assignValue h1 nested key newValue with
        | Some h2 => baseSet_walk h2 (GetV h2 nested key) rest v
        | None => None
        end
  end.

Definition baseSet (h : heap) (object : rvalue) (path : string) (v : rvalue)
  : option heap :=
  if negb (isObject object) then Some h
  else baseSet_walk h object (castPath h path object) v.

(** [_.set (object, path, value)]; the object returned is [object] itself. *)
Definition set (h : heap) (object : rvalue) (path : string) (v : rvalue) : option heap :=
  if isNullish object then Some h else baseSet h object path v.

(** The loop of [baseClone] over the properties of the source: each value
    is cloned and assigned to [result] under the same name. *)
Fixpoint clone_props (clone : heap -> rvalue -> option (rvalue * heap))
    (result : rvalue) (h : heap) (props : list (string * rvalue)) : option heap :=
  match props with
  | [] => Some h
  | (key, subValue) :: rest =>
      match clone h subValue with
      | Some (v, h1) =>
          match assignValue h1 result key v with
          | Some h2 => clone_props clone result h2 rest
          | None => None
          end
      | None => None
      end
  end.

(** The same loop over the elements of an array, from index [i] on. *)
Fixpoint clone_elems (clone : heap -> rvalue -> option (rvalue * heap))
    (result : rvalue) (i : nat) (h : heap) (elems : list rvalue) : option heap :=
  match elems with
  | [] => Some h
  | subValue :: rest =>
      match clone h subValue with
      | Some (v, h1) =>
          match PutIndex h1 result i v with
          | Some h2 => clone_elems clone result (S i) h2 rest
          | None => None
          end
      | None => None
      end
  end.

(** [_.cloneDeep (value)].  The result object is created first
    ([initCloneObject], [initCloneArray]) and then filled.  [fuel] bounds
    the depth; [None] when it runs out.  The table in which lodash looks
    up the objects it has already cloned is left out: it never answers
    where no object is met twice, and where one is, this clone has a copy
    for each time it is met. *)
Fixpoint cloneDeep (fuel : nat) (h : heap) (v : rvalue) : option (rvalue * heap) :=
  match v with
  | RRef l =>
      match fuel with
      | O => None
      | S fuel' =>
          match h !! l with
          | Some (CObj props) =>
              let '(result, h1) := alloc (CObj []) h in
              match clone_props (cloneDeep fuel') result h1 props with
              | Some h2 => Some (result, h2)
              | None => None
              end
          | Some (CArr elems) =>
              let '(result, h1) := alloc (CArr (replicate (length elems) RUndefined)) h in
              match clone_elems (cloneDeep fuel') result 0 h1 elems with
              | Some h2 => Some (result, h2)
              | None => None
              end
          | None => None
          end
      end
  | _ => Some (v, h)
  end.

(** The tree that a value of the store stands for. *)
Fixpoint read (fuel : nat) (h : heap) (v : rvalue) : option value :=
  match v with
  | RUndefined => Some VUndefined
  | RNull => Some VNull
  | RBool b => Some (VBool b)
  | RNum n => Some (VNum n)
  | RStr s => Some (VStr s)
  | RRef l =>
      match fuel with
      | O => None
      | S fuel' =>
          match h !! l with
          | Some (CObj props) =>
              VObj <$> mapM (fun kv => pair (fst kv) <$> read fuel' h (snd kv)) props
          | Some (CArr elems) => VArr <$> mapM (read fuel' h) elems
          | None => None
          end
      end
  end.

(** [JSON.stringify (value)]; the outer [None] when [fuel] runs out. *)
Definition JSON_stringify (fuel : nat) (h : heap) (v : rvalue) : option (option string) :=
  JSON_stringify <$> read fuel h v.

Record ValidationResult : Type := {
  valid : bool;
  v_errors : option (list ZodIssue);
  v_dataMismatches : rvalue;
}.

Record Result : Type := {
  errors : option (list ZodIssue);
  dataMismatches : rvalue;
  issuesStyles : styles;
}.

(** The text written for [error]; [value] is what [_.get (data,
    instancePath)] gave.  [JSON.stringify] runs for the issues that are
    not [Required] only. *)
Definition errorDescription (fuel : nat) (h : heap) (issuesStyles : styles)
    (value : rvalue) (error : ZodIssue) : option string :=
  let iconPropertyError := issuesStyles !! "iconPropertyError" in
  let iconPropertyMissing := issuesStyles !! "iconPropertyMissing" in
  if String.eqb (message error) "Required" then
    Some (template_of iconPropertyMissing +:+ " Missing property")
  else
    match JSON_stringify fuel h value with
    | Some json =>
        let valueDisplay := replaceAll dquote "'" (String_of json) in
        Some (" " +:+ template_of iconPropertyError +:+ " " +:+ valueDisplay
              +:+ " " +:+ message error)
    | None => None
    end.

(** The body of the [forEach]: [Some None] is a write that is outside the
    embedding or that throws, [None] is [fuel] running out. *)
Definition annotate (fuel : nat) (issuesStyles : styles) (data dataMismatches : rvalue)
    (h : heap) (error : ZodIssue) : option (option heap) :=
  let instancePath := join "." (path error) in
  let value := get h data instancePath in
  match errorDescription fuel h issuesStyles value error with
  | Some description => Some (set h dataMismatches instancePath (RStr description))
  | None => None
  end.

Fixpoint forEach (fuel : nat) (issuesStyles : styles) (data dataMismatches : rvalue)
    (errors : list ZodIssue) (h : heap) : option (option heap) :=
  match errors with
  | [] => Some (Some h)
  | error :: rest =>
      match annotate fuel issuesStyles data dataMismatches h error with
      | Some (Some h') => forEach fuel issuesStyles data dataMismatches rest h'
      | other => other
      end
  end.

(** The engine reads the data as the tree it stands for, and writes
    nothing. *)
Definition _validateSchemaZOD (fuel : nat) (h : heap) (schema : ZodSchema)
    (data : rvalue) (issuesStyles : styles)
  : option (outcome ValidationResult * heap) :=
  match read fuel h data with
  | None => None
  | Some tree =>
      let result := safeParse schema tree in
      match cloneDeep fuel h data with
      | None => None
      | Some (dataMismatches, h1) =>
          match result with
          | SafeParseSuccess =>
              Some (Returned {| valid := true; v_errors := None;
                                v_dataMismatches := dataMismatches |}, h1)
          | SafeParseError issues =>
              match forEach fuel issuesStyles data dataMismatches issues h1 with
              | None => None
              | Some None => Some (Unmodelled, h1)
              | Some (Some h2) =>
                  Some (Returned {| valid := false; v_errors := Some issues;
                                    v_dataMismatches := dataMismatches |}, h2)
              end
          end
      end
  end.

Definition validateSchemaZod (fuel : nat) (h : heap) (data : rvalue)
    (schema : schema_arg) (issuesStyles : option styles)
  : option (list string * outcome Result * heap) :=
  match schema with
  | SchemaUndefined | SchemaNull =>
      Some ([errorInvalidSchema], Thrown errorInvalidSchema, h)
  | SchemaObject schema =>
      let issuesStyles := spread issuesStylesDefault (default ∅ issuesStyles) in
      match _validateSchemaZOD fuel h schema data issuesStyles with
      | Some (Returned r, h') =>
          Some ([], Returned {| errors := v_errors r;
                                dataMismatches := v_dataMismatches r;
                                issuesStyles := issuesStyles |}, h')
      | Some (Thrown e, h') => Some ([], Thrown e, h')
      | Some (Unmodelled, h') => Some ([], Unmodelled, h')
      | None => None
      end
  end.

(** *** Reachability and the shape of a store *)

(** The references a cell holds. *)
Definition cell_values (c : cell) : list rvalue :=
  match c with
  | CObj props => map snd props
  | CArr elems => elems
  end.

(** [reachable h v l]: [l] is the cell of [v] or of a value found by
    following references from [v]. *)
Inductive reachable (h : heap) : rvalue -> loc -> Prop :=
  | reachable_here l : reachable h (RRef l) l
  | reachable_step l c v l' :
      h !! l = Some c -> v ∈ cell_values c -> reachable h v l' ->
      reachable h (RRef l) l'.

(** A value that points at [n] or above, and inside the store. *)
Definition fresh (n : nat) (h : heap) (v : rvalue) : Prop :=
  match v with RRef l => (n ≤ l < length h)%nat | _ => True end.

(** [extends h0 h]: the cells of [h0] are in [h] as they were, and the
    cells after them point to cells after them only. *)
Definition extends (h0 h : heap) : Prop :=
  take (length h0) h = h0 ∧
  ∀ l c, (length h0 ≤ l)%nat -> h !! l = Some c ->
         Forall (fresh (length h0) h) (cell_values c).

(** What the loops of [baseClone] need of the function that clones a value:
    it keeps the old cells and answers with new ones. *)
Definition clones_fresh (h0 : heap)
    (clone : heap -> rvalue -> option (rvalue * heap)) : Prop :=
  ∀ h v v' h', extends h0 h -> clone h v = Some (v', h') ->
    extends h0 h' ∧ (length h ≤ length h')%nat ∧ fresh (length h0) h' v'.

(** And to come to an end: it clones what reads as a tree. *)
Definition clones_trees (n : nat)
    (clone : heap -> rvalue -> option (rvalue * heap)) : Prop :=
  ∀ h0 h v t, extends h0 h -> read n h0 v = Some t -> is_Some (clone h v).

End Heap.

(** ** The store and the trees side by side *)

Local Open Scope nat_scope.

(** Lists related element by element, each pair with a set of cells of its
    own. *)
Inductive sep_list {A B : Type} (R : A -> B -> gset nat -> Prop)
  : list A -> list B -> gset nat -> Prop :=
  | sep_nil : sep_list R [] [] ∅
  | sep_cons x y F xs ys F' :
      R x y F -> sep_list R xs ys F' -> F ## F' ->
      sep_list R (x :: xs) (y :: ys) (F ∪ F').

(** [tree_at h v t F]: in the store [h] the value [v] stands for the tree
    [t], and [F] are its cells, none of them met twice. *)
Inductive tree_at (h : list Heap.cell) : Heap.rvalue -> value -> gset nat -> Prop :=
  | tree_undefined : tree_at h Heap.RUndefined VUndefined ∅
  | tree_null : tree_at h Heap.RNull VNull ∅
  | tree_bool b : tree_at h (Heap.RBool b) (VBool b) ∅
  | tree_num n : tree_at h (Heap.RNum n) (VNum n) ∅
  | tree_str s : tree_at h (Heap.RStr s) (VStr s) ∅
  | tree_obj l props tprops F :
      h !! l = Some (Heap.CObj props) ->
      map fst props = map fst tprops ->
      sep_list (tree_at h) (map snd props) (map snd tprops) F ->
      l ∉ F ->
      tree_at h (Heap.RRef l) (VObj tprops) ({[l]} ∪ F)
  | tree_arr l elems telems F :
      h !! l = Some (Heap.CArr elems) ->
      sep_list (tree_at h) elems telems F ->
      l ∉ F ->
      tree_at h (Heap.RRef l) (VArr telems) ({[l]} ∪ F).

(** The place of [key] among the names [keys] of an object. *)
Fixpoint index_of (key : string) (keys : list string) : option nat :=
  match keys with
  | [] => None
  | k :: rest => if String.eqb k key then Some 0 else S <$> index_of key rest
  end.

(** Where the index [i] goes: after the indices below it. *)
Fixpoint insert_pos (i : nat) (keys : list string) : nat :=
  match keys with
  | [] => 0
  | k :: rest =>
      match array_index k with
      | Some j => if j <? i then S (insert_pos i rest) else 0
      | None => 0
      end
  end.

(** The property [key] is written between the first [n] properties and the
    properties from the [m]-th on. *)
Definition define_at (key : string) (keys : list string) : nat * nat :=
  match index_of key keys with
  | Some n => (n, S n)
  | None =>
      match array_index key with
      | Some i => (insert_pos i keys, insert_pos i keys)
      | None => (length keys, length keys)
      end
  end.

(** What [baseSet] writes is a text or a reference, never a number. *)
Definition not_a_number (x : Heap.rvalue) : Prop :=
  match x with Heap.RNum _ => False | _ => True end.

(** Writing [key] to an object with the properties [keys] puts it last. *)
Definition key_appends (keys : list string) (key : string) : bool :=
  forallb (λ k, negb (String.eqb k key)) keys
  && match array_index key with
     | Some i =>
         forallb (λ k, match array_index k with Some j => j <? i | None => false end) keys
     | None => true
     end.

(** Each of [keys], written in turn after [seen], goes last. *)
Fixpoint ordered_keys (seen keys : list string) : bool :=
  match keys with
  | [] => true
  | key :: rest => key_appends seen key && ordered_keys (seen ++ [key]) rest
  end.

(** The objects of a tree have their properties in the order in which the
    language enumerates them, each name once. *)
Fixpoint ordered (t : value) : bool :=
  match t with
  | VObj props =>
      ordered_keys [] (map fst props) && forallb (λ kv, ordered (snd kv)) props
  | VArr elems => forallb ordered elems
  | _ => true
  end.

(** What the loops of [baseClone] need of the function that clones a value,
    for the clone to stand for the same tree. *)
Definition clones_as_trees (n : nat)
    (clone : list Heap.cell -> Heap.rvalue -> option (Heap.rvalue * list Heap.cell)) : Prop :=
  ∀ h0 h v t, Heap.extends h0 h -> Heap.read n h0 v = Some t -> ordered t = true ->
    ∃ v' h' F, clone h v = Some (v', h') ∧ tree_at h' v' t F ∧ ∀ l, l ∈ F -> length h ≤ l.

(** ** Paths that part from each other, and plain characters *)

(** What follows the first key in a path joined with dots. *)
Fixpoint join_tail (keys : list string) : string :=
  match keys with
  | [] => EmptyString
  | key :: rest => "." +:+ key +:+ join_tail rest
  end.



(** A character that [JSON.stringify] writes as it is. *)
Definition json_plain (c : ascii) : bool :=
  negb (Ascii.eqb c dquote) && negb (Ascii.eqb c backslash) && (32 <=? N_of_ascii c)%N.

(** * Facts *)


(** ** Induction on values *)

Section ValueInduction.
Variable P : value -> Prop.
Hypothesis Hundefined : P VUndefined.
Hypothesis Hnull : P VNull.
Hypothesis Hbool : ∀ b, P (VBool b).
Hypothesis Hnum : ∀ n, P (VNum n).
Hypothesis Hstr : ∀ s, P (VStr s).
Hypothesis Harr : ∀ elems, Forall P elems -> P (VArr elems).
Hypothesis Hobj : ∀ props, Forall (λ kv, P (snd kv)) props -> P (VObj props).

Fixpoint value_tree_ind (v : value) : P v :=
  match v with
  | VUndefined => Hundefined
  | VNull => Hnull
  | VBool b => Hbool b
  | VNum n => Hnum n
  | VStr s => Hstr s
  | VArr elems =>
      Harr elems
        ((fix go (l : list value) : Forall P l :=
            match l with
            | [] => Forall_nil_2 P
            | x :: r => Forall_cons_2 P x r (value_tree_ind x) (go r)
            end) elems)
  | VObj props =>
      Hobj props
        ((fix go (l : list (string * value)) : Forall (λ kv, P (snd kv)) l :=
            match l with
            | [] => Forall_nil_2 _
            | kv :: r => Forall_cons_2 _ kv r (value_tree_ind (snd kv)) (go r)
            end) props)
  end.
End ValueInduction.

(** A deep copy of a tree is the same tree. *)
Lemma cloneDeep_id v : cloneDeep v = v.
Proof.
  induction v as [| | | | |elems IH|props IH] using value_tree_ind; simpl; try done.
  - f_equal. induction IH as [|x r Hx _ IHr]; simpl; [done|]. by rewrite Hx, IHr.
  - f_equal. induction IH as [|[k x] r Hx _ IHr]; simpl; [done|].
    simpl in Hx. by rewrite Hx, IHr.
Qed.

(** ** Reading a property after writing it *)

Section OwnPropertyLookup.
Context {A : Type}.
Implicit Types (props : list (string * A)) (key : string) (v : A).

Lemma own_lookup_replace key v props :
  is_Some (own_lookup key props) ->
  own_lookup key (own_replace key v props) = Some v.
Proof.
  induction props as [|[k y] rest IH]; simpl; [by intros [? ?]|].
  destruct (String.eqb k key) eqn:E; simpl; rewrite E; [done|]. apply IH.
Qed.

Lemma own_lookup_replace_ne key key' v props :
  key ≠ key' ->
  own_lookup key' (own_replace key v props) = own_lookup key' props.
Proof.
  intros Hne. induction props as [|[k y] rest IH]; simpl; [done|].
  destruct (String.eqb k key) eqn:E; simpl.
  - apply String.eqb_eq in E as ->.
    by apply String.eqb_neq in Hne as ->.
  - by rewrite IH.
Qed.

Lemma own_lookup_insert_index i key v props :
  own_lookup key props = None ->
  own_lookup key (own_insert_index i key v props) = Some v.
Proof.
  induction props as [|[k y] rest IH]; simpl.
  { by rewrite String.eqb_refl. }
  destruct (String.eqb k key) eqn:E; [done|]. intros Hnone.
  destruct (array_index k) as [j|]; [destruct (j <? i)|]; simpl;
    rewrite ?E, ?String.eqb_refl; auto.
Qed.

Lemma own_lookup_insert_index_ne i key key' v props :
  key ≠ key' ->
  own_lookup key' (own_insert_index i key v props) = own_lookup key' props.
Proof.
  intros Hne. apply String.eqb_neq in Hne.
  induction props as [|[k y] rest IH]; simpl; [by rewrite Hne|].
  destruct (array_index k) as [j|]; [destruct (j <? i)|]; simpl;
    rewrite ?Hne, ?IH; done.
Qed.

Lemma own_lookup_app key props props' :
  own_lookup key (props ++ props')
  = match own_lookup key props with
    | Some x => Some x
    | None => own_lookup key props'
    end.
Proof.
  induction props as [|[k y] rest IH]; simpl; [done|].
  by destruct (String.eqb k key).
Qed.

Lemma own_lookup_define key v props :
  own_lookup key (own_define key v props) = Some v.
Proof.
  unfold own_define, own_insert.
  destruct (own_lookup key props) eqn:E; [by apply own_lookup_replace|].
  destruct (array_index key); [by apply own_lookup_insert_index|].
  rewrite own_lookup_app, E. simpl. by rewrite String.eqb_refl.
Qed.

Lemma own_lookup_define_ne key key' v props :
  key ≠ key' ->
  own_lookup key' (own_define key v props) = own_lookup key' props.
Proof.
  intros Hne. unfold own_define, own_insert.
  destruct (own_lookup key props); [by apply own_lookup_replace_ne|].
  destruct (array_index key); [by apply own_lookup_insert_index_ne|].
  rewrite own_lookup_app. simpl. apply String.eqb_neq in Hne as ->.
  by destruct (own_lookup key' props).
Qed.
End OwnPropertyLookup.

Lemma array_put_lookup {A} (hole : A) i v elems :
  array_put hole i v elems !! i = Some v.
Proof.
  unfold array_put. destruct (i <? length elems) eqn:E.
  - apply Nat.ltb_lt in E. by apply list_lookup_insert_eq.
  - apply Nat.ltb_ge in E. rewrite lookup_app_r by done.
    rewrite lookup_app_r; rewrite repeat_length; [|done].
    by rewrite Nat.sub_diag.
Qed.


(** ** Facts about the path parser *)


Lemma string_length_app (a b : string) :
  String.length (a +:+ b) = String.length a + String.length b.
Proof. induction a as [|c a IH]; simpl; [done|]. by rewrite IH. Qed.

Lemma string_forallb_impl (p q : ascii -> bool) s :
  (∀ c, p c = true -> q c = true) ->
  string_forallb p s = true -> string_forallb q s = true.
Proof.
  intros Hpq. induction s as [|c s IH]; simpl; [done|].
  rewrite !andb_true_iff. intros [? ?]. auto.
Qed.

Lemma is_word_not_special c : is_word c = true -> negb (is_path_special c) = true.
Proof. by destruct c as [[] [] [] [] [] [] [] []]. Qed.

Lemma plain_special_free s : reIsPlainProp_test s = true -> special_free s = true.
Proof. apply string_forallb_impl, is_word_not_special. Qed.

Lemma deep_not_special_free s : reIsDeepProp_test s = true -> special_free s = false.
Proof.
  unfold special_free. induction s as [|c s IH]; simpl; [done|].
  rewrite !orb_true_iff, andb_true_iff.
  intros [[Hc|[Hc _]]|Hs].
  - apply Ascii.eqb_eq in Hc as ->. done.
  - apply Ascii.eqb_eq in Hc as ->. done.
  - rewrite IH by done. apply andb_false_r.
Qed.


Lemma reIsUint_plain key : reIsUint_test key = true -> reIsPlainProp_test key = true.
Proof.
  unfold reIsUint_test, reIsPlainProp_test. destruct key as [|c r]; [done|]. simpl.
  destruct (Ascii.eqb_spec c "0") as [->|_].
  - by destruct r.
  - rewrite !andb_true_iff. intros [Hc Hr]. split.
    + revert Hc. by destruct c as [[] [] [] [] [] [] [] []].
    + eapply string_forallb_impl; [|exact Hr].
      intros d Hd. unfold is_word. rewrite Hd. simpl. by rewrite orb_true_r.
Qed.

Lemma array_index_plain key i : array_index key = Some i -> reIsPlainProp_test key = true.
Proof.
  unfold array_index. destruct (reIsUint_test key) eqn:E; [|done].
  intros _. by apply reIsUint_plain.
Qed.

Lemma array_index_not_length key i :
  array_index key = Some i -> String.eqb key "length" = false.
Proof.
  intros H. apply String.eqb_neq. intros ->. done.
Qed.









(** ** [_.get] after [_.set] *)

Lemma GetV_PutValue object key v object' :
  PutValue object key v = Some object' -> GetV object' key = v.
Proof.
  destruct object as [| | | | |elems|props]; simpl; try done.
  - destruct (array_index key) as [i|] eqn:Hi; [|done]. intros [= <-]. simpl.
    by rewrite (array_index_not_length _ _ Hi), Hi, array_put_lookup.
  - intros [= <-]. simpl. by rewrite own_lookup_define.
Qed.









(** ** The loop over the issues *)



Lemma forEach_primitive st data issues : ∀ dm,
  isObject dm = false -> forEach st data issues dm = Some dm.
Proof.
  induction issues as [|error rest IH]; intros dm Hdm; simpl; [done|].
  assert (annotate st data dm error = Some dm) as ->; [|by apply IH].
  unfold annotate, set, baseSet. rewrite Hdm. simpl. by destruct (isNullish dm).
Qed.



(** ** Facts about own properties *)

Section OwnPropertyFacts.
Context {A : Type}.
Implicit Types (props : list (string * A)) (key : string) (v : A).

Lemma own_lookup_elem key props x :
  own_lookup key props = Some x -> x ∈ map snd props.
Proof.
  induction props as [|[k y] rest IH]; simpl; [done|].
  destruct (String.eqb k key).
  - intros [= ->]. left.
  - intros H. right. auto.
Qed.

Lemma own_replace_values key v props :
  map snd (own_replace key v props) ⊆ v :: map snd props.
Proof.
  induction props as [|[k y] rest IH]; simpl; [set_solver|].
  destruct (String.eqb k key); simpl; set_solver.
Qed.

Lemma own_insert_index_values i key v props :
  map snd (own_insert_index i key v props) ⊆ v :: map snd props.
Proof.
  induction props as [|[k y] rest IH]; simpl; [set_solver|].
  destruct (array_index k) as [j|]; [destruct (j <? i)%nat|]; simpl; set_solver.
Qed.

Lemma own_define_values key v props :
  map snd (own_define key v props) ⊆ v :: map snd props.
Proof.
  unfold own_define, own_insert.
  destruct (own_lookup key props); [apply own_replace_values|].
  destruct (array_index key); [apply own_insert_index_values|].
  rewrite map_app. simpl. set_solver.
Qed.
End OwnPropertyFacts.

Lemma array_put_values {A} (hole : A) i v elems :
  array_put hole i v elems ⊆ hole :: v :: elems.
Proof.
  unfold array_put. destruct (i <? length elems)%nat.
  - intros x Hx. apply list_elem_of_lookup in Hx as [j Hj].
    destruct (decide (i = j)) as [->|Hne].
    + destruct (decide (j < length elems)).
      * rewrite list_lookup_insert_eq in Hj by done. set_solver.
      * rewrite list_insert_ge in Hj by lia. apply list_elem_of_lookup_2 in Hj. set_solver.
    + rewrite list_lookup_insert_ne in Hj by done.
      apply list_elem_of_lookup_2 in Hj. set_solver.
  - intros x Hx. rewrite !elem_of_app in Hx. destruct Hx as [?|[Hx|?]]; [set_solver| |set_solver].
    apply list_elem_of_In, repeat_spec in Hx. set_solver.
Qed.

(** ** Facts about the store *)

Section StoreFacts.
Import Heap.
Implicit Types (h : heap) (v : rvalue) (l : loc) (c : cell).

Lemma fresh_mono n h h' v :
  length h ≤ length h' -> fresh n h v -> fresh n h' v.
Proof. destruct v; simpl; auto. lia. Qed.

Lemma Forall_fresh_mono n h h' vs :
  length h ≤ length h' -> Forall (fresh n h) vs -> Forall (fresh n h') vs.
Proof.
  intros Hlen Hvs. eapply Forall_impl; [done|]. intros v. by apply fresh_mono.
Qed.

Lemma extends_length h0 h : extends h0 h -> length h0 ≤ length h.
Proof.
  intros [Htake _]. apply (f_equal length) in Htake.
  rewrite length_take in Htake. lia.
Qed.

Lemma extends_lookup h0 h l : extends h0 h -> l < length h0 -> h !! l = h0 !! l.
Proof.
  intros [Htake _] Hl. rewrite <- (lookup_take_lt h (length h0) l) by done.
  by rewrite Htake.
Qed.

Lemma extends_refl h : extends h h.
Proof.
  split; [by rewrite take_ge|].
  intros l c Hl Hc. apply lookup_lt_Some in Hc. lia.
Qed.

(** A new cell that points to new cells. *)
Lemma extends_alloc h0 h c :
  extends h0 h ->
  Forall (fresh (length h0) h) (cell_values c) ->
  extends h0 (h ++ [c]) ∧ fresh (length h0) (h ++ [c]) (RRef (length h)).
Proof.
  intros Hext Hc. pose proof (extends_length _ _ Hext) as Hlen.
  destruct Hext as [Htake Hnew]. split; [split|].
  - by rewrite take_app_le.
  - intros l c' Hl Hc'. apply lookup_app_Some in Hc' as [Hc'|[Hge Hc']].
    + apply (Forall_fresh_mono _ h); [|by eapply Hnew]. rewrite length_app. lia.
    + destruct (l - length h) eqn:E; [|done]. simpl in Hc'. injection Hc' as <-.
      apply (Forall_fresh_mono _ h); [|done]. rewrite length_app. lia.
  - simpl. rewrite length_app. simpl. lia.
Qed.

(** A new cell overwritten with values that point to new cells. *)
Lemma extends_insert h0 h l c :
  extends h0 h -> length h0 ≤ l ->
  Forall (fresh (length h0) h) (cell_values c) ->
  extends h0 (<[l := c]> h).
Proof.
  intros [Htake Hnew] Hl Hc. split.
  - by rewrite take_insert_ge.
  - intros l' c' Hl' Hc'.
    apply (Forall_fresh_mono _ h); [by rewrite length_insert|].
    destruct (decide (l = l')) as [->|Hne].
    + apply list_lookup_insert_Some in Hc' as [(_ & Heq & _)|[? _]]; [by subst|done].
    + rewrite list_lookup_insert_ne in Hc' by done. by eapply Hnew.
Qed.

Lemma extends_GetV h0 h v key :
  extends h0 h -> fresh (length h0) h v -> fresh (length h0) h (GetV h v key).
Proof.
  intros [_ Hnew] Hv. destruct v as [| | | |s|l]; simpl; try done.
  - destruct (String.eqb key "length"); [done|].
    destruct (array_index key) as [i|]; [|done]. by destruct (string_get i s).
  - simpl in Hv. destruct (h !! l) as [[props|elems]|] eqn:Hc; [| |done].
    + destruct (own_lookup key props) as [x|] eqn:Hx; [|done]. simpl.
      apply own_lookup_elem in Hx. specialize (Hnew l _ (proj1 Hv) Hc).
      rewrite Forall_forall in Hnew. by apply Hnew.
    + destruct (String.eqb key "length"); [done|].
      destruct (array_index key) as [i|]; [|done].
      destruct (elems !! i) as [x|] eqn:Hx; [|done]. simpl.
      specialize (Hnew l _ (proj1 Hv) Hc).
      rewrite Forall_forall in Hnew. apply Hnew. simpl. by eapply list_elem_of_lookup_2.
Qed.

Lemma extends_PutValue h0 h h' object key v :
  extends h0 h -> fresh (length h0) h object -> fresh (length h0) h v ->
  PutValue h object key v = Some h' ->
  extends h0 h' ∧ length h' = length h.
Proof.
  intros Hext Hobj Hv Hput. destruct object as [| | | | |l]; try done.
  simpl in Hput, Hobj. destruct (h !! l) as [[props|elems]|] eqn:Hc; [| |done].
  - injection Hput as <-. split; [|by rewrite length_insert].
    apply extends_insert; [done|lia|]. simpl.
    destruct Hext as [_ Hnew]. specialize (Hnew l _ (proj1 Hobj) Hc). simpl in Hnew.
    rewrite Forall_forall in *. intros x Hx.
    apply own_define_values in Hx. set_solver.
  - destruct (array_index key) as [i|]; [|done]. injection Hput as <-.
    split; [|by rewrite length_insert].
    apply extends_insert; [done|lia|]. simpl.
    destruct Hext as [_ Hnew]. specialize (Hnew l _ (proj1 Hobj) Hc). simpl in Hnew.
    rewrite Forall_forall in *. intros x Hx.
    apply array_put_values in Hx. set_unfold in Hx. destruct Hx as [->|[->|Hx]]; auto. done.
Qed.

Lemma extends_PutIndex h0 h h' object i v :
  extends h0 h -> fresh (length h0) h object -> fresh (length h0) h v ->
  PutIndex h object i v = Some h' ->
  extends h0 h' ∧ length h' = length h.
Proof.
  intros Hext Hobj Hv Hput. destruct object as [| | | | |l]; try done.
  simpl in Hput, Hobj. destruct (h !! l) as [[props|elems]|] eqn:Hc; [done| |done].
  injection Hput as <-. split; [|by rewrite length_insert].
  apply extends_insert; [done|lia|]. simpl.
  destruct Hext as [_ Hnew]. specialize (Hnew l _ (proj1 Hobj) Hc). simpl in Hnew.
  rewrite Forall_forall in *. intros x Hx.
  apply array_put_values in Hx. set_unfold in Hx. destruct Hx as [->|[->|Hx]]; auto. done.
Qed.

Lemma extends_assignValue h0 h h' object key v :
  extends h0 h -> fresh (length h0) h object -> fresh (length h0) h v ->
  assignValue h object key v = Some h' ->
  extends h0 h' ∧ length h' = length h.
Proof.
  unfold assignValue. intros Hext Hobj Hv.
  destruct (_ && _); [by intros [= <-]|]. by apply extends_PutValue.
Qed.

Lemma extends_baseSet_walk h0 path : ∀ h nested v h',
  extends h0 h -> fresh (length h0) h nested -> fresh (length h0) h v ->
  baseSet_walk h nested path v = Some h' ->
  extends h0 h' ∧ length h ≤ length h'.
Proof.
  induction path as [|key rest IH]; intros h nested v h' Hext Hn Hv; simpl.
  { by intros [= <-]. }
  destruct (isNullish nested); [by intros [= <-]|].
  destruct (is_unsafe_key key); [by intros [= <-]|].
  destruct rest as [|next rest'].
  - destruct (assignValue h nested key v) as [h2|] eqn:Ha; [|done].
    intros [= <-]. destruct (extends_assignValue _ _ _ _ _ _ Hext Hn Hv Ha). split; [done|lia].
  - set (objValue := GetV h nested key).
    assert (∃ newValue h1,
      (if isObject objValue then (objValue, h)
       else alloc (if isIndex next then CArr [] else CObj []) h) = (newValue, h1)
      ∧ extends h0 h1 ∧ length h ≤ length h1 ∧ fresh (length h0) h1 newValue)
      as (newValue & h1 & -> & Hext1 & Hlen1 & Hnew).
    { destruct (isObject objValue).
      - exists objValue, h. split; [done|split; [done|split; [lia|]]]. by apply extends_GetV.
      - eexists _, _. split; [done|].
        destruct (extends_alloc h0 h (if isIndex next then CArr [] else CObj []) Hext)
          as [? ?]; [by destruct (isIndex next)|].
        split; [done|split; [rewrite length_app; lia|done]]. }
    destruct (assignValue h1 nested key newValue) as [h2|] eqn:Ha; [|done].
    intros Hrec.
    destruct (extends_assignValue _ _ _ _ _ _ Hext1 (fresh_mono _ _ _ _ Hlen1 Hn) Hnew Ha)
      as [Hext2 Hlen2].
    apply IH in Hrec as [? ?]; [split; [done|lia]|done| |].
    + apply extends_GetV; [done|]. eapply fresh_mono; [|done]. lia.
    + eapply fresh_mono; [|done]. lia.
Qed.

Lemma extends_clone_props h0 clone result props : ∀ h h',
  clones_fresh h0 clone ->
  extends h0 h -> fresh (length h0) h result ->
  clone_props clone result h props = Some h' ->
  extends h0 h' ∧ length h ≤ length h'.
Proof.
  induction props as [|[key subValue] rest IH]; intros h h' Hclone Hext Hres; simpl.
  { by intros [= <-]. }
  destruct (clone h subValue) as [[v h1]|] eqn:Hc; [|done].
  destruct (Hclone _ _ _ _ Hext Hc) as (Hext1 & Hlen1 & Hv).
  destruct (assignValue h1 result key v) as [h2|] eqn:Ha; [|done].
  destruct (extends_assignValue _ _ _ _ _ _ Hext1 (fresh_mono _ _ _ _ Hlen1 Hres) Hv Ha)
    as [Hext2 Hlen2].
  intros Hrec. apply IH in Hrec as [? ?]; [split; [done|lia]|done|done|].
  eapply fresh_mono; [|done]. lia.
Qed.

Lemma extends_clone_elems h0 clone result elems : ∀ i h h',
  clones_fresh h0 clone ->
  extends h0 h -> fresh (length h0) h result ->
  clone_elems clone result i h elems = Some h' ->
  extends h0 h' ∧ length h ≤ length h'.
Proof.
  induction elems as [|subValue rest IH]; intros i h h' Hclone Hext Hres; simpl.
  { by intros [= <-]. }
  destruct (clone h subValue) as [[v h1]|] eqn:Hc; [|done].
  destruct (Hclone _ _ _ _ Hext Hc) as (Hext1 & Hlen1 & Hv).
  destruct (PutIndex h1 result i v) as [h2|] eqn:Ha; [|done].
  destruct (extends_PutIndex _ _ _ _ _ _ Hext1 (fresh_mono _ _ _ _ Hlen1 Hres) Hv Ha)
    as [Hext2 Hlen2].
  intros Hrec. apply IH in Hrec as [? ?]; [split; [done|lia]|done|done|].
  eapply fresh_mono; [|done]. lia.
Qed.

(** The clone is made of new cells. *)
Lemma extends_cloneDeep h0 fuel : clones_fresh h0 (cloneDeep fuel).
Proof.
  induction fuel as [|fuel IH]; intros h v v' h' Hext.
  - destruct v; simpl; try done; intros [= <- <-]; (split; [done|split; [lia|done]]).
  - destruct v as [| | | | |l]; simpl;
      try (intros [= <- <-]; (split; [done|split; [lia|done]])).
    destruct (h !! l) as [[props|elems]|]; [| |done].
    + destruct (extends_alloc h0 h (CObj []) Hext) as [Hext1 Hres]; [done|].
      destruct (clone_props _ _ _ _) as [h2|] eqn:Hc; [|done]. intros [= <- <-].
      apply (extends_clone_props h0) in Hc as [? Hlen]; [|done..].
      rewrite length_app in Hlen. simpl in Hlen.
      split; [done|split; [lia|]]. eapply fresh_mono; [|done]. rewrite length_app. simpl. lia.
    + destruct (extends_alloc h0 h (CArr (replicate (length elems) RUndefined)) Hext)
        as [Hext1 Hres].
      { simpl. apply Forall_forall. intros x Hx. by apply elem_of_replicate in Hx as [-> _]. }
      destruct (clone_elems _ _ _ _ _) as [h2|] eqn:Hc; [|done]. intros [= <- <-].
      apply (extends_clone_elems h0) in Hc as [? Hlen]; [|done..].
      rewrite length_app in Hlen. simpl in Hlen.
      split; [done|split; [lia|]]. eapply fresh_mono; [|done]. rewrite length_app. simpl. lia.
Qed.

Lemma extends_set h0 h object path v h' :
  extends h0 h -> fresh (length h0) h object -> fresh (length h0) h v ->
  set h object path v = Some h' ->
  extends h0 h' ∧ length h ≤ length h'.
Proof.
  unfold set, baseSet. intros Hext Hobj Hv.
  destruct (isNullish object); [by intros [= <-]|].
  destruct (negb (isObject object)); [by intros [= <-]|].
  by apply extends_baseSet_walk.
Qed.

Lemma extends_forEach h0 fuel st data dm issues : ∀ h h',
  extends h0 h -> fresh (length h0) h dm ->
  forEach fuel st data dm issues h = Some (Some h') ->
  extends h0 h' ∧ length h ≤ length h'.
Proof.
  induction issues as [|error rest IH]; intros h h' Hext Hdm; simpl.
  { by intros [= <-]. }
  destruct (annotate fuel st data dm h error) as [[h1|]|] eqn:Ha; [|done..].
  unfold annotate in Ha.
  destruct (errorDescription _ _ _ _ _) as [description|]; [|done].
  injection Ha as Ha. apply (extends_set h0) in Ha as [Hext1 Hlen1]; [|done..].
  intros Hrec. apply IH in Hrec as [? ?]; [split; [done|lia]|done|].
  eapply fresh_mono; [|done]. lia.
Qed.
End StoreFacts.


(** ** The store and the tree it stands for *)

Section ReadFacts.

Lemma read_props_lookup (f : Heap.rvalue -> option value) props tprops key :
  mapM (λ kv, pair (fst kv) <$> f (snd kv)) props = Some tprops ->
  match own_lookup key props with
  | Some x => ∃ tx, own_lookup key tprops = Some tx ∧ f x = Some tx
  | None => own_lookup key tprops = None
  end.
Proof.
  revert tprops. induction props as [|[k x] rest IH]; intros tprops; simpl.
  { by intros [= <-]. }
  unfold mbind, option_bind at 1.
  destruct (f x) as [tx|] eqn:Hx; simpl; [|done].
  destruct (mapM _ rest) as [trest|] eqn:Hrest; simpl; [|done].
  intros [= <-]. simpl. destruct (String.eqb k key); [by exists tx|]. by apply IH.
Qed.

Lemma read_mono n : ∀ m h v t, Heap.read n h v = Some t -> n ≤ m -> Heap.read m h v = Some t.
Proof.
  induction n as [|n IH]; intros m h v t; destruct v as [| | | | |l]; simpl; try done;
    try (intros <- _; by destruct m).
  intros Hread Hle. destruct m as [|m]; [lia|]. simpl.
  destruct (h !! l) as [[props|elems]|]; [| |done].
  - destruct (mapM _ props) as [tprops|] eqn:Hprops; [|done].
    injection Hread as <-. apply mapM_Some in Hprops.
    assert (mapM (λ kv, pair (fst kv) <$> Heap.read m h (snd kv)) props = Some tprops) as ->; [|done].
    apply mapM_Some. eapply Forall2_impl; [done|]. intros [k x] y. simpl.
    destruct (Heap.read n h x) as [tx|] eqn:Hx; [|done]. intros [= <-].
    rewrite (IH m h x tx); [reflexivity|done|lia].
  - destruct (mapM _ elems) as [telems|] eqn:Helems; [|done].
    injection Hread as <-. apply mapM_Some in Helems.
    assert (mapM (Heap.read m h) elems = Some telems) as ->; [|done].
    apply mapM_Some. eapply Forall2_impl; [done|]. intros x y Hx.
    apply (IH m h x y); [done|lia].
Qed.

Lemma read_isNullish n h v t : Heap.read n h v = Some t -> isNullish t = Heap.isNullish v.
Proof.
  destruct n, v as [| | | | |l]; simpl; try (by intros [= <-]); try discriminate.
  destruct (h !! l) as [[?|?]|]; [| |done].
  - destruct (mapM _ _); [|done]. by intros [= <-].
  - destruct (mapM _ _); [|done]. by intros [= <-].
Qed.

Lemma read_isObject n h v t : Heap.read n h v = Some t -> isObject t = Heap.isObject v.
Proof.
  destruct n, v as [| | | | |l]; simpl; try (by intros [= <-]); try discriminate.
  destruct (h !! l) as [[?|?]|]; [| |done].
  - destruct (mapM _ _); [|done]. by intros [= <-].
  - destruct (mapM _ _); [|done]. by intros [= <-].
Qed.

(** Reading a property in the store is reading it in the tree. *)
Lemma read_GetV n h v t key :
  Heap.read n h v = Some t -> Heap.read n h (Heap.GetV h v key) = Some (GetV t key).
Proof.
  destruct n as [|n], v as [| | | |s|l]; simpl; try (by intros [= <-]); try discriminate.
  1,2: intros [= <-]; simpl; destruct (String.eqb key "length"); [done|];
    destruct (array_index key) as [i|]; [|done]; by destruct (string_get i s).
  destruct (h !! l) as [[props|elems]|] eqn:Hc; [| |done].
  - destruct (mapM _ props) as [tprops|] eqn:Hprops; [|done]. intros [= <-]. simpl.
    pose proof (read_props_lookup _ _ _ key Hprops) as Hkey.
    destruct (own_lookup key props) as [x|].
    + destruct Hkey as (tx & -> & Hx). simpl.
      apply (read_mono n (S n) h x tx); [done|lia].
    + by rewrite Hkey.
  - destruct (mapM _ elems) as [telems|] eqn:Helems; [|done]. intros [= <-]. simpl.
    rewrite (length_mapM _ _ _ Helems).
    destruct (String.eqb key "length"); [done|].
    destruct (array_index key) as [i|]; [|done].
    apply mapM_Some in Helems.
    destruct (elems !! i) as [x|] eqn:Hx.
    + destruct (Forall2_lookup_l _ _ _ _ _ Helems Hx) as (tx & -> & Hread). simpl.
      apply (read_mono n (S n) h x tx); [done|lia].
    + apply lookup_ge_None in Hx. rewrite (Forall2_length _ _ _ Helems) in Hx.
      by rewrite (lookup_ge_None_2 telems i).
Qed.

Lemma read_HasProperty n h v t key :
  Heap.read n h v = Some t -> HasProperty t key = Heap.HasProperty h v key.
Proof.
  destruct n as [|n], v as [| | | |s|l]; simpl; try (by intros [= <-]); try discriminate.
  destruct (h !! l) as [[props|elems]|] eqn:Hc; [| |done].
  - destruct (mapM _ props) as [tprops|] eqn:Hprops; [|done]. intros [= <-]. simpl.
    pose proof (read_props_lookup _ _ _ key Hprops) as Hkey.
    destruct (own_lookup key props) as [x|].
    + by destruct Hkey as (tx & -> & Hx).
    + by rewrite Hkey.
  - destruct (mapM _ elems) as [telems|] eqn:Helems; [|done]. intros [= <-]. simpl.
    by rewrite (length_mapM _ _ _ Helems).
Qed.

Lemma read_castPath n h v t path :
  Heap.read n h v = Some t -> castPath path t = Heap.castPath h path v.
Proof.
  intros Hread. unfold castPath, Heap.castPath, isKey, Heap.isKey.
  by rewrite (read_isNullish _ _ _ _ Hread), (read_HasProperty _ _ _ _ path Hread).
Qed.

Lemma read_baseGet_walk n h path : ∀ v t,
  Heap.read n h v = Some t ->
  Heap.read n h (Heap.baseGet_walk h v path) = Some (baseGet_walk t path).
Proof.
  induction path as [|key rest IH]; intros v t Hread; simpl; [done|].
  rewrite (read_isNullish _ _ _ _ Hread). destruct (Heap.isNullish v); [by destruct n|].
  by apply IH, read_GetV.
Qed.

(** [_.get] in the store is [_.get] in the tree. *)
Lemma read_get n h v t path :
  Heap.read n h v = Some t -> Heap.read n h (Heap.get h v path) = Some (get t path).
Proof.
  intros Hread. unfold get, Heap.get, baseGet, Heap.baseGet.
  rewrite (read_isNullish _ _ _ _ Hread). destruct (Heap.isNullish v); [by destruct n|].
  rewrite (read_castPath _ _ _ _ path Hread).
  destruct (Heap.castPath h path v) as [|key rest]; [by destruct n|].
  by apply read_baseGet_walk.
Qed.

(** The text made in the store is the text made from the tree. *)
Lemma read_errorDescription n h st v t error :
  Heap.read n h v = Some t ->
  Heap.errorDescription n h st v error = Some (errorDescription st t error).
Proof.
  intros Hread. unfold Heap.errorDescription, errorDescription, Heap.JSON_stringify.
  rewrite Hread. simpl. by destruct (String.eqb _ _).
Qed.
End ReadFacts.


(** ** The data in a store that a call has extended *)

Section ExtendedStore.
Import Heap.

(** The old cells still stand for the same tree. *)
Lemma read_extends n : ∀ h h' v t,
  extends h h' -> read n h v = Some t -> read n h' v = Some t.
Proof.
  induction n as [|n IH]; intros h h' v t Hext; destruct v as [| | | | |l]; simpl; try done.
  destruct (h !! l) as [c|] eqn:Hc; [|done].
  rewrite (extends_lookup _ _ _ Hext (lookup_lt_Some _ _ _ Hc)), Hc.
  destruct c as [props|elems].
  - destruct (mapM _ props) as [tprops|] eqn:Hprops; [|done]. intros [= <-].
    apply mapM_Some in Hprops.
    assert (mapM (λ kv, pair (fst kv) <$> read n h' (snd kv)) props = Some tprops) as ->; [|done].
    apply mapM_Some. eapply Forall2_impl; [done|]. intros [k x] y. simpl.
    destruct (read n h x) as [tx|] eqn:Hx; [|done]. intros [= <-].
    rewrite (IH h h' x tx); [reflexivity|done..].
  - destruct (mapM _ elems) as [telems|] eqn:Helems; [|done]. intros [= <-].
    apply mapM_Some in Helems.
    assert (mapM (read n h') elems = Some telems) as ->; [|done].
    apply mapM_Some. eapply Forall2_impl; [done|]. intros x y. by apply IH.
Qed.

(** What a cell holds is read with the cell. *)
Lemma read_cell_values n h l c t v :
  read (S n) h (RRef l) = Some t -> h !! l = Some c -> v ∈ cell_values c ->
  is_Some (read n h v).
Proof.
  simpl. intros Hread Hc Hv. rewrite Hc in Hread. destruct c as [props|elems]; simpl in Hv.
  - destruct (mapM _ props) as [tprops|] eqn:Hprops; [|done].
    apply mapM_Some in Hprops. apply list_elem_of_fmap in Hv as ([k x] & -> & Hin).
    apply list_elem_of_lookup in Hin as [i Hi].
    destruct (Forall2_lookup_l _ _ _ _ _ Hprops Hi) as (y & _ & Hy). simpl in Hy |- *.
    destruct (read n h x) as [tx|]; [by eexists|done].
  - destruct (mapM _ elems) as [telems|] eqn:Helems; [|done].
    apply mapM_Some in Helems. apply list_elem_of_lookup in Hv as [i Hi].
    destruct (Forall2_lookup_l _ _ _ _ _ Helems Hi) as (y & _ & Hy). by exists y.
Qed.

(** From data that reads as a tree, old cells only are reached, also after
    the store has been extended. *)
Lemma read_reachable h h' v l :
  extends h h' -> reachable h' v l -> ∀ n t, read n h v = Some t -> l < length h.
Proof.
  intros Hext Hr. induction Hr as [l|l c v l' Hc Hin Hr IH]; intros n t Hread.
  - destruct n as [|n]; [done|]. simpl in Hread.
    destruct (h !! l) as [c|] eqn:Hc; [|done]. by apply lookup_lt_Some in Hc.
  - destruct n as [|n]; [done|].
    assert (h !! l = Some c) as Hc0.
    { pose proof Hread as Hread'. simpl in Hread'.
      destruct (h !! l) as [c0|] eqn:Hc0; [|done].
      by rewrite (extends_lookup _ _ _ Hext (lookup_lt_Some _ _ _ Hc0)), Hc0 in Hc. }
    destruct (read_cell_values _ _ _ _ _ _ Hread Hc0 Hin) as [t' Ht']. by eapply IH.
Qed.

(** From a new cell only new cells are reached. *)
Lemma fresh_reachable h h' v l :
  extends h h' -> fresh (length h) h' v -> reachable h' v l -> length h ≤ l.
Proof.
  intros Hext Hv Hr. induction Hr as [l|l c v l' Hc Hin Hr IH]; [simpl in Hv; lia|].
  apply IH. destruct Hext as [_ Hnew]. simpl in Hv.
  specialize (Hnew l _ (proj1 Hv) Hc). rewrite Forall_forall in Hnew. by apply Hnew.
Qed.

Lemma _validateSchemaZOD_extends fuel h schema data st out h' :
  _validateSchemaZOD fuel h schema data st = Some (out, h') ->
  extends h h'
  ∧ ∀ r, out = Returned r -> fresh (length h) h' (v_dataMismatches r).
Proof.
  unfold _validateSchemaZOD.
  destruct (read fuel h data) as [tree|]; [|done].
  destruct (cloneDeep fuel h data) as [[dm h1]|] eqn:Hclone; [|done].
  destruct (extends_cloneDeep h fuel _ _ _ _ (extends_refl h) Hclone) as (Hext1 & Hlen1 & Hdm).
  destruct (safeParse schema tree) as [|issues].
  - intros [= <- <-]. split; [done|]. by intros r [= <-].
  - destruct (forEach _ _ _ _ _ _) as [[h2|]|] eqn:Hloop; [| |done].
    + apply (extends_forEach h) in Hloop as [Hext2 Hlen2]; [|done..].
      intros [= <- <-]. split; [done|]. intros r [= <-]. simpl.
      eapply fresh_mono; [|done]. lia.
    + intros [= <- <-]. split; [done|]. by intros r [=].
Qed.

Lemma validateSchemaZod_extends fuel h data schema st log out h' :
  validateSchemaZod fuel h data schema st = Some (log, out, h') ->
  extends h h'
  ∧ ∀ r, out = Returned r -> fresh (length h) h' (dataMismatches r).
Proof.
  unfold validateSchemaZod. destruct schema as [| |schema].
  1,2: intros [= <- <- <-]; split; [apply extends_refl|by intros r [=]].
  destruct (_validateSchemaZOD _ _ _ _ _) as [[[r| |] h1]|] eqn:Hrun; [| | |done];
    apply _validateSchemaZOD_extends in Hrun as [Hext Hdm];
    intros [= <- <- <-]; (split; [done|]); intros r' [=]. subst r'. simpl. by apply Hdm.
Qed.
End ExtendedStore.


(** ** The call comes to an end *)

Section Termination.
Import Heap.

Lemma assignValue_object h l props key v :
  h !! l = Some (CObj props) ->
  ∃ h' props', assignValue h (RRef l) key v = Some h' ∧ h' !! l = Some (CObj props').
Proof.
  intros Hc. unfold assignValue. destruct (_ && _); [by exists h, props|].
  simpl. rewrite Hc. eexists _, _. split; [done|].
  apply list_lookup_insert_eq. by apply lookup_lt_Some in Hc.
Qed.

Lemma PutIndex_array h l elems i v :
  h !! l = Some (CArr elems) ->
  ∃ h' elems', PutIndex h (RRef l) i v = Some h' ∧ h' !! l = Some (CArr elems').
Proof.
  intros Hc. simpl. rewrite Hc. eexists _, _. split; [done|].
  apply list_lookup_insert_eq. by apply lookup_lt_Some in Hc.
Qed.

Lemma clone_props_returns n clone h0 l props : ∀ h props',
  clones_trees n clone -> (∀ h1, clones_fresh h1 clone) ->
  extends h0 h -> fresh (length h0) h (RRef l) ->
  Forall (λ kv, is_Some (read n h0 (snd kv))) props ->
  h !! l = Some (CObj props') ->
  is_Some (clone_props clone (RRef l) h props).
Proof.
  induction props as [|[key x] rest IH]; intros h props' Htrees Hfresh Hext Hres Hread Hl; simpl.
  { by eexists. }
  apply Forall_cons in Hread as [[t Hx] Hrest]. simpl in Hx.
  destruct (Htrees h0 h x t Hext Hx) as [[v h1] Hclone]. rewrite Hclone.
  destruct (Hfresh h _ _ _ _ (extends_refl h) Hclone) as (Hext1 & Hlen1 & _).
  destruct (Hfresh h0 _ _ _ _ Hext Hclone) as (Hext01 & _ & Hv).
  assert (h1 !! l = Some (CObj props')) as Hl1.
  { rewrite (extends_lookup _ _ _ Hext1); [done|]. by apply lookup_lt_Some in Hl. }
  destruct (assignValue_object h1 l props' key v Hl1) as (h2 & props2 & Hassign & Hl2).
  rewrite Hassign.
  destruct (extends_assignValue _ _ _ _ _ _ Hext01 (fresh_mono _ _ _ _ Hlen1 Hres) Hv Hassign)
    as [Hext02 Hlen2].
  apply (IH h2 props2); try done. eapply fresh_mono; [|done]. lia.
Qed.

Lemma clone_elems_returns n clone h0 l elems : ∀ i h elems',
  clones_trees n clone -> (∀ h1, clones_fresh h1 clone) ->
  extends h0 h -> fresh (length h0) h (RRef l) ->
  Forall (λ x, is_Some (read n h0 x)) elems ->
  h !! l = Some (CArr elems') ->
  is_Some (clone_elems clone (RRef l) i h elems).
Proof.
  induction elems as [|x rest IH]; intros i h elems' Htrees Hfresh Hext Hres Hread Hl;
    cbn [clone_elems].
  { by eexists. }
  apply Forall_cons in Hread as [[t Hx] Hrest].
  destruct (Htrees h0 h x t Hext Hx) as [[v h1] Hclone]. rewrite Hclone.
  destruct (Hfresh h _ _ _ _ (extends_refl h) Hclone) as (Hext1 & Hlen1 & _).
  destruct (Hfresh h0 _ _ _ _ Hext Hclone) as (Hext01 & _ & Hv).
  assert (h1 !! l = Some (CArr elems')) as Hl1.
  { rewrite (extends_lookup _ _ _ Hext1); [done|]. by apply lookup_lt_Some in Hl. }
  destruct (PutIndex_array h1 l elems' i v Hl1) as (h2 & elems2 & Hput & Hl2).
  rewrite Hput.
  destruct (extends_PutIndex _ _ _ _ _ _ Hext01 (fresh_mono _ _ _ _ Hlen1 Hres) Hv Hput)
    as [Hext02 Hlen2].
  apply (IH (S i) h2 elems2); try done. eapply fresh_mono; [|done]. lia.
Qed.

(** Data that reads as a tree with the fuel at hand is cloned with it. *)
Lemma cloneDeep_returns n : clones_trees n (cloneDeep n).
Proof.
  induction n as [|n IH]; intros h0 h v t Hext; destruct v as [| | | | |l]; simpl;
    try done; try by eexists.
  destruct (h0 !! l) as [c|] eqn:Hc; [|done].
  rewrite (extends_lookup _ _ _ Hext (lookup_lt_Some _ _ _ Hc)), Hc.
  intros Hread. destruct c as [props|elems].
  - destruct (extends_alloc h0 h (CObj []) Hext) as [Hext1 Hres]; [done|].
    assert (is_Some (clone_props (cloneDeep n) (RRef (length h)) (h ++ [CObj []]) props))
      as [h2 ->]; [|by eexists].
    apply (clone_props_returns n _ h0 _ _ _ []);
      [exact IH|intros ?; apply extends_cloneDeep|done|done| |by apply list_lookup_middle].
    destruct (mapM _ props) as [tprops|] eqn:Hprops; [|done].
    apply mapM_Some in Hprops. apply Forall_forall. intros [k x] Hin. simpl.
    apply list_elem_of_lookup in Hin as [i Hi].
    destruct (Forall2_lookup_l _ _ _ _ _ Hprops Hi) as (y & _ & Hy). simpl in Hy.
    destruct (read n h0 x) as [tx|]; [by eexists|done].
  - destruct (extends_alloc h0 h (CArr (replicate (length elems) RUndefined)) Hext)
      as [Hext1 Hres].
    { simpl. apply Forall_forall. intros x Hx. by apply elem_of_replicate in Hx as [-> _]. }
    assert (is_Some (clone_elems (cloneDeep n) (RRef (length h)) 0
                       (h ++ [CArr (replicate (length elems) RUndefined)]) elems))
      as [h2 ->]; [|by eexists].
    apply (clone_elems_returns n _ h0 _ _ _ _ (replicate (length elems) RUndefined));
      [exact IH|intros ?; apply extends_cloneDeep|done|done| |by apply list_lookup_middle].
    destruct (mapM _ elems) as [telems|] eqn:Helems; [|done].
    apply mapM_Some in Helems. apply Forall_forall. intros x Hin.
    apply list_elem_of_lookup in Hin as [i Hi].
    destruct (Forall2_lookup_l _ _ _ _ _ Helems Hi) as (y & _ & Hy). by exists y.
Qed.

Lemma forEach_returns fuel h0 st data tree dm issues : ∀ h,
  read fuel h0 data = Some tree -> extends h0 h -> fresh (length h0) h dm ->
  is_Some (forEach fuel st data dm issues h).
Proof.
  induction issues as [|error rest IH]; intros h Hread Hext Hdm; simpl; [by eexists|].
  unfold annotate.
  pose proof (read_get _ _ _ _ (join "." (path error)) (read_extends _ _ _ _ _ Hext Hread))
    as Hget.
  rewrite (read_errorDescription _ _ st _ _ error Hget).
  destruct (set h dm _ _) as [h1|] eqn:Hset; [|by eexists].
  apply (extends_set h0) in Hset as [Hext1 Hlen1]; [|done..].
  apply IH; [done..|]. eapply fresh_mono; [|done]. lia.
Qed.

(** On data that reads as a tree with the fuel at hand, the call comes to
    an end. *)
Lemma validateSchemaZod_returns fuel h data tree schema st :
  read fuel h data = Some tree ->
  is_Some (validateSchemaZod fuel h data schema st).
Proof.
  intros Hread. unfold validateSchemaZod, _validateSchemaZOD.
  destruct schema as [| |schema]; [by eexists..|]. rewrite Hread.
  destruct (cloneDeep_returns fuel h h data tree (extends_refl h) Hread) as [[dm h1] Hclone].
  rewrite Hclone.
  destruct (extends_cloneDeep h fuel _ _ _ _ (extends_refl h) Hclone) as (Hext1 & _ & Hdm).
  destruct (safeParse schema tree) as [|issues]; [by eexists|].
  destruct (forEach_returns fuel h (spread issuesStylesDefault (default ∅ st)) data tree
              dm issues h1 Hread Hext1 Hdm) as [[h2|] ->]; by eexists.
Qed.
End Termination.

(** ** The run on a store and the run on trees *)

Section SepList.
Context {A B : Type}.
Implicit Types (R : A -> B -> gset nat -> Prop) (F G : gset nat).

Lemma sep_list_length R xs ys F : sep_list R xs ys F -> length xs = length ys.
Proof. induction 1; simpl; congruence. Qed.

Lemma sep_list_impl R R' xs ys F :
  sep_list R xs ys F ->
  (∀ x y G, y ∈ ys -> G ⊆ F -> R x y G -> R' x y G) ->
  sep_list R' xs ys F.
Proof.
  induction 1 as [|x y F xs ys F' Hxy Hrest IH Hdisj]; intros Himpl; constructor.
  - apply Himpl; [left|set_solver|done].
  - apply IH. intros x' y' G Hin HG. apply Himpl; [by right|set_solver].
  - done.
Qed.

Lemma sep_list_app R xs ys F xs' ys' F' :
  sep_list R xs ys F -> sep_list R xs' ys' F' -> F ## F' ->
  sep_list R (xs ++ xs') (ys ++ ys') (F ∪ F').
Proof.
  induction 1 as [|x y G xs ys G' Hxy Hrest IH Hdisj]; intros Hsnd Hsep; simpl.
  - by rewrite (left_id_L ∅ (∪)).
  - rewrite <- (assoc_L (∪)). constructor; [done|apply IH; [done|set_solver]|set_solver].
Qed.

Lemma sep_list_app_inv R xs xs' : ∀ zs F,
  sep_list R (xs ++ xs') zs F ->
  ∃ ys ys' G G', zs = ys ++ ys' ∧ F = G ∪ G' ∧ G ## G'
    ∧ sep_list R xs ys G ∧ sep_list R xs' ys' G'.
Proof.
  induction xs as [|x xs IH]; intros zs F; simpl.
  - intros H. exists [], zs, ∅, F. split; [done|]. split; [set_solver|].
    split; [set_solver|]. split; [constructor|done].
  - inversion 1 as [|? y G ? ys G' Hxy Hrest Hdisj]; subst.
    destruct (IH _ _ Hrest) as (ys1 & ys2 & G1 & G2 & -> & -> & Hd & H1 & H2).
    exists (y :: ys1), ys2, (G ∪ G1), G2. split; [done|].
    split; [set_solver|]. split; [set_solver|]. split; [|done].
    constructor; [done..|set_solver].
Qed.

Lemma sep_list_elem R xs ys F l :
  sep_list R xs ys F -> l ∈ F -> ∃ x y G, y ∈ ys ∧ R x y G ∧ l ∈ G.
Proof.
  induction 1 as [|x y G xs ys G' Hxy Hrest IH Hdisj]; [set_solver|].
  intros [Hl|Hl]%elem_of_union.
  - exists x, y, G. split; [left|done].
  - destruct (IH Hl) as (x' & y' & G'' & ? & ? & ?). exists x', y', G''. split; [by right|done].
Qed.

Lemma sep_list_lookup R xs ys F i x :
  sep_list R xs ys F -> xs !! i = Some x ->
  ∃ y G, ys !! i = Some y ∧ R x y G ∧ G ⊆ F.
Proof.
  intros H. revert i. induction H as [|x' y G xs ys G' Hxy Hrest IH Hdisj]; intros i; [done|].
  destruct i as [|i]; simpl.
  - intros [= ->]. exists y, G. split; [done|]. split; [done|set_solver].
  - intros Hi. destruct (IH _ Hi) as (y' & G'' & ? & ? & ?).
    exists y', G''. split; [done|]. split; [done|set_solver].
Qed.
End SepList.


Section TreeAt.
Implicit Types (h : list Heap.cell) (v : Heap.rvalue) (t : value) (F : gset nat).

(** The cells of a tree are cells of the store. *)
Lemma tree_at_bound h : ∀ t v F, tree_at h v t F -> ∀ l, l ∈ F -> l < length h.
Proof.
  induction t as [| | | | |telems IH|tprops IH] using value_tree_ind;
    intros v F Ht l Hl; inversion Ht as [| | | | |l0 props ? F0 Hc Hkeys Hsep Hl0
                                         |l0 elems ? F0 Hc Hsep Hl0]; subst; try set_solver.
  - apply elem_of_union in Hl as [->%elem_of_singleton|Hl]; [by eapply lookup_lt_Some|].
    destruct (sep_list_elem _ _ _ _ _ Hsep Hl) as (x & y & G & Hy & Hxy & HlG).
    rewrite Forall_forall in IH. by eapply IH.
  - apply elem_of_union in Hl as [->%elem_of_singleton|Hl]; [by eapply lookup_lt_Some|].
    destruct (sep_list_elem _ _ _ _ _ Hsep Hl) as (x & y & G & Hy & Hxy & HlG).
    rewrite Forall_forall in IH. apply list_elem_of_fmap in Hy as (kv & -> & Hkv).
    by eapply (IH kv).
Qed.

(** A tree stays where it is when its cells are left as they were. *)
Lemma tree_at_frame h h' : ∀ t v F,
  tree_at h v t F -> (∀ l, l ∈ F -> h' !! l = h !! l) -> tree_at h' v t F.
Proof.
  induction t as [| | | | |telems IH|tprops IH] using value_tree_ind;
    intros v F Ht Hframe; inversion Ht as [| | | | |l0 props ? F0 Hc Hkeys Hsep Hl0
                                          |l0 elems ? F0 Hc Hsep Hl0]; subst;
    try by constructor.
  - apply (tree_arr h' l0 elems telems F0); [|  |done].
    + rewrite Hframe; [done|set_solver].
    + eapply sep_list_impl; [done|]. intros x y G Hy HG Hxy.
      rewrite Forall_forall in IH. apply (IH y Hy); [done|].
      intros l Hl. apply Hframe. set_solver.
  - apply (tree_obj h' l0 props tprops F0); [|done| |done].
    + rewrite Hframe; [done|set_solver].
    + eapply sep_list_impl; [done|]. intros x y G Hy HG Hxy.
      rewrite Forall_forall in IH. apply list_elem_of_fmap in Hy as (kv & -> & Hkv).
      apply (IH kv Hkv); [done|]. intros l Hl. apply Hframe. set_solver.
Qed.

Lemma tree_at_isObject h v t F : tree_at h v t F -> Heap.isObject v = isObject t.
Proof. by inversion 1. Qed.

Lemma tree_at_isNullish h v t F : tree_at h v t F -> Heap.isNullish v = isNullish t.
Proof. by inversion 1. Qed.
End TreeAt.

Section TreeRead.
Implicit Types (h : list Heap.cell) (v : Heap.rvalue) (t : value) (F : gset nat).

Lemma read_props_build n h (props : list (string * Heap.rvalue)) :
  ∀ tprops : list (string * value),
  map fst props = map fst tprops ->
  Forall2 (λ x y, Heap.read n h x = Some y) (map snd props) (map snd tprops) ->
  mapM (λ kv, pair (fst kv) <$> Heap.read n h (snd kv)) props = Some tprops.
Proof.
  induction props as [|[k x] rest IH]; intros [|[k' y] trest]; simpl; try done.
  intros [= -> Hkeys] [Hx Hrest]%Forall2_cons. rewrite Hx. simpl.
  by rewrite (IH trest Hkeys Hrest).
Qed.

Lemma sep_list_read h xs ys F :
  sep_list (tree_at h) xs ys F ->
  (∀ y, y ∈ ys -> ∀ x G, tree_at h x y G -> ∃ n, Heap.read n h x = Some y) ->
  ∃ n, Forall2 (λ x y, Heap.read n h x = Some y) xs ys.
Proof.
  induction 1 as [|x y G xs ys G' Hxy Hrest IH Hdisj]; intros Hread.
  { exists 0. constructor. }
  destruct (Hread y ltac:(left) x G Hxy) as [n Hn].
  destruct IH as [m Hm]. { intros y' Hy'. apply Hread. by right. }
  exists (n `max` m). constructor.
  - apply (read_mono n); [done|lia].
  - eapply Forall2_impl; [done|]. intros x' y' Hx'. apply (read_mono m); [done|lia].
Qed.

(** What stands for a tree reads as that tree. *)
Lemma tree_at_read h : ∀ t v F, tree_at h v t F -> ∃ n, Heap.read n h v = Some t.
Proof.
  induction t as [| | | | |telems IH|tprops IH] using value_tree_ind;
    intros v F Ht; inversion Ht as [| | | | |l0 props ? F0 Hc Hkeys Hsep Hl0
                                   |l0 elems ? F0 Hc Hsep Hl0]; subst;
    try by exists 1.
  - destruct (sep_list_read _ _ _ _ Hsep) as [n Hn].
    { intros y Hy x G. rewrite Forall_forall in IH. by apply IH. }
    exists (S n). simpl. rewrite Hc. apply mapM_Some in Hn. by rewrite Hn.
  - destruct (sep_list_read _ _ _ _ Hsep) as [n Hn].
    { intros y Hy x G. rewrite Forall_forall in IH.
      apply list_elem_of_fmap in Hy as (kv & -> & Hkv). by apply (IH kv). }
    exists (S n). simpl. rewrite Hc. by rewrite (read_props_build n h props tprops).
Qed.
End TreeRead.

(** ** Where [own_define] writes *)

Section DefineAt.
Context {A : Type}.
Implicit Types (props : list (string * A)) (key : string) (v : A).

Lemma own_lookup_index_of key props :
  own_lookup key props
  = index_of key (map fst props) ≫= λ n, snd <$> props !! n.
Proof.
  induction props as [|[k x] rest IH]; simpl; [done|].
  destruct (String.eqb k key); [done|]. rewrite IH.
  by destruct (index_of key (map fst rest)).
Qed.

Lemma own_replace_splice key v props n :
  index_of key (map fst props) = Some n ->
  own_replace key v props = take n props ++ (key, v) :: drop (S n) props
  ∧ n < length props.
Proof.
  revert n. induction props as [|[k x] rest IH]; intros n; simpl; [done|].
  destruct (String.eqb_spec k key) as [->|Hne].
  - intros [= <-]. simpl. rewrite drop_0. split; [done|lia].
  - destruct (index_of key (map fst rest)) as [n'|]; [|done]. intros [= <-].
    destruct (IH n' eq_refl) as [-> ?]. simpl. split; [done|lia].
Qed.

Lemma own_insert_index_splice i key v props :
  own_insert_index i key v props
  = take (insert_pos i (map fst props)) props
    ++ (key, v) :: drop (insert_pos i (map fst props)) props
  ∧ insert_pos i (map fst props) ≤ length props.
Proof.
  induction props as [|[k x] rest IH]; simpl; [done|].
  destruct (array_index k) as [j|]; [destruct (j <? i)|]; simpl;
    [|split; [done|lia]..].
  destruct IH as [-> ?]. split; [done|lia].
Qed.

Lemma own_define_splice key v props :
  own_define key v props
  = take (define_at key (map fst props)).1 props
    ++ (key, v) :: drop (define_at key (map fst props)).2 props
  ∧ (define_at key (map fst props)).1 ≤ length props
  ∧ (define_at key (map fst props)).1 ≤ (define_at key (map fst props)).2.
Proof.
  unfold own_define, own_insert, define_at. rewrite own_lookup_index_of.
  destruct (index_of key (map fst props)) as [n|] eqn:Hn; simpl.
  - destruct (own_replace_splice key v props n Hn) as [Hsplice Hlen].
    destruct (props !! n) as [kx|] eqn:Hkx; simpl.
    + split; [done|lia].
    + apply lookup_ge_None in Hkx. lia.
  - destruct (array_index key) as [i|]; simpl.
    + destruct (own_insert_index_splice i key v props) as [-> ?]. split; [done|lia].
    + rewrite length_map, take_ge, drop_ge by lia. split; [done|lia].
Qed.
End DefineAt.

Section SepSplit.
Context {A B : Type}.
Implicit Types (R : A -> B -> gset nat -> Prop) (F G : gset nat).

Lemma sep_list_split R xs ys F n :
  sep_list R xs ys F ->
  ∃ F1 F2, F = F1 ∪ F2 ∧ F1 ## F2
    ∧ sep_list R (take n xs) (take n ys) F1
    ∧ sep_list R (drop n xs) (drop n ys) F2.
Proof.
  intros H. revert n. induction H as [|x y G xs ys G' Hxy Hrest IH Hdisj]; intros n.
  { exists ∅, ∅. rewrite !take_nil, !drop_nil. repeat split; try constructor; set_solver. }
  destruct n as [|n]; simpl.
  - exists ∅, (G ∪ G'). repeat split; try constructor; try done; set_solver.
  - destruct (IH n) as (F1 & F2 & -> & Hd & H1 & H2).
    exists (G ∪ F1), F2. split; [set_solver|]. split; [set_solver|]. split; [|done].
    constructor; [done..|set_solver].
Qed.
End SepSplit.

Section Children.
Implicit Types (h : list Heap.cell) (F : gset nat).

Lemma index_of_lookup key keys n : index_of key keys = Some n -> n < length keys.
Proof.
  revert n. induction keys as [|k rest IH]; intros n; simpl; [done|].
  destruct (String.eqb k key); [intros [= <-]; lia|].
  destruct (index_of key rest) as [n'|]; [|done]. intros [= <-].
  specialize (IH n' eq_refl). lia.
Qed.

(** The property [key] of an object in the store, and how the object
    stands when the property has been written. *)
Lemma obj_child h (props : list (string * Heap.rvalue)) (tprops : list (string * value))
    F key :
  map fst props = map fst tprops ->
  sep_list (tree_at h) (map snd props) (map snd tprops) F ->
  ∃ F0 Frest,
    F = F0 ∪ Frest ∧ F0 ## Frest
    ∧ tree_at h (default Heap.RUndefined (own_lookup key props))
                (default VUndefined (own_lookup key tprops)) F0
    ∧ ∀ h' x tx Fx,
        tree_at h' x tx Fx -> Fx ## Frest ->
        (∀ l', l' ∈ Frest -> h' !! l' = h !! l') ->
        map fst (own_define key x props) = map fst (own_define key tx tprops)
        ∧ sep_list (tree_at h') (map snd (own_define key x props))
            (map snd (own_define key tx tprops)) (Fx ∪ Frest).
Proof.
  intros Hkeys Hsep.
  assert (∀ h' F1 F2 n m x tx Fx,
    sep_list (tree_at h) (take n (map snd props)) (take n (map snd tprops)) F1 ->
    sep_list (tree_at h) (drop m (map snd props)) (drop m (map snd tprops)) F2 ->
    F1 ## F2 -> tree_at h' x tx Fx -> Fx ## F1 ∪ F2 ->
    (∀ l', l' ∈ F1 ∪ F2 -> h' !! l' = h !! l') ->
    map fst (take n props ++ (key, x) :: drop m props)
    = map fst (take n tprops ++ (key, tx) :: drop m tprops)
    ∧ sep_list (tree_at h') (map snd (take n props ++ (key, x) :: drop m props))
        (map snd (take n tprops ++ (key, tx) :: drop m tprops)) (Fx ∪ (F1 ∪ F2))) as Hput.
  { intros h' F1 F2 n m x tx Fx H1 H2 Hd Hx Hdx Hframe.
    rewrite !map_app. simpl. rewrite <- !firstn_map, <- !skipn_map, Hkeys. split; [done|].
    replace (Fx ∪ (F1 ∪ F2)) with (F1 ∪ (Fx ∪ F2)) by set_solver.
    apply sep_list_app; [| |set_solver].
    - eapply sep_list_impl; [done|]. intros x' y' G _ HG Hxy.
      eapply tree_at_frame; [done|]. intros l Hl. apply Hframe. set_solver.
    - constructor; [done| |set_solver].
      eapply sep_list_impl; [done|]. intros x' y' G _ HG Hxy.
      eapply tree_at_frame; [done|]. intros l Hl. apply Hframe. set_solver. }
  destruct (own_define_splice key Heap.RUndefined props) as (_ & Hlen & Hle).
  pose proof (λ x, proj1 (own_define_splice key x props)) as Hsp.
  pose proof (λ tx, proj1 (own_define_splice key tx tprops)) as Htsp.
  rewrite <- Hkeys in Htsp. rewrite !own_lookup_index_of, <- Hkeys.
  unfold define_at in *.
  destruct (index_of key (map fst props)) as [n|] eqn:Hn; simpl in *.
  - pose proof (index_of_lookup _ _ _ Hn) as Hn'. rewrite length_map in Hn'.
    destruct (sep_list_split _ _ _ _ n Hsep) as (F1 & F2' & -> & Hd1 & H1 & H2').
    destruct (lookup_lt_is_Some_2 props n Hn') as [[k x0] Hx0].
    assert (n < length tprops) as Htn.
    { rewrite <- (length_map snd tprops), <- (sep_list_length _ _ _ _ Hsep), length_map. done. }
    destruct (lookup_lt_is_Some_2 tprops n Htn) as [[k' t0] Ht0].
    rewrite Hx0, Ht0. simpl.
    rewrite (drop_S (map snd props) x0 n), (drop_S (map snd tprops) t0 n) in H2'
      by (by rewrite list_lookup_fmap, ?Hx0, ?Ht0).
    inversion H2' as [|? ? F0 ? ? F2 Hxt H2 Hd2]; subst.
    exists F0, (F1 ∪ F2). split; [set_solver|]. split; [set_solver|]. split; [done|].
    intros h' x tx Fx Hx Hdx Hframe. rewrite Hsp, Htsp.
    apply (Hput h' F1 F2 n (S n)); try done. set_solver.
  - exists ∅, F. split; [set_solver|]. split; [set_solver|]. split; [constructor|].
    intros h' x tx Fx Hx Hdx Hframe. rewrite Hsp, Htsp.
    set (n := match array_index key with
              | Some i => insert_pos i (map fst props)
              | None => length (map fst props)
              end).
    assert ((match array_index key with
             | Some i => (insert_pos i (map fst props), insert_pos i (map fst props))
             | None => (length (map fst props), length (map fst props))
             end) = (n, n)) as -> by (subst n; by destruct (array_index key)).
    simpl. destruct (sep_list_split _ _ _ _ n Hsep) as (F1 & F2 & -> & Hd1 & H1 & H2).
    by apply (Hput h' F1 F2 n n).
Qed.
End Children.

Section ArrayChildren.
Implicit Types (h : list Heap.cell) (F : gset nat).

Lemma sep_list_holes h n :
  sep_list (tree_at h) (repeat Heap.RUndefined n) (repeat VUndefined n) ∅.
Proof.
  induction n as [|n IH]; simpl; [constructor|].
  replace (∅ : gset nat) with (∅ ∪ ∅ : gset nat) by set_solver.
  constructor; [constructor|done|set_solver].
Qed.

(** The element [i] of an array in the store, and how the array stands when
    the element has been written. *)
Lemma arr_child h (elems : list Heap.rvalue) (telems : list value) F i :
  sep_list (tree_at h) elems telems F ->
  ∃ F0 Frest,
    F = F0 ∪ Frest ∧ F0 ## Frest
    ∧ tree_at h (default Heap.RUndefined (elems !! i)) (default VUndefined (telems !! i)) F0
    ∧ ∀ h' x tx Fx,
        tree_at h' x tx Fx -> Fx ## Frest ->
        (∀ l', l' ∈ Frest -> h' !! l' = h !! l') ->
        sep_list (tree_at h') (array_put Heap.RUndefined i x elems)
          (array_put VUndefined i tx telems) (Fx ∪ Frest).
Proof.
  intros Hsep. pose proof (sep_list_length _ _ _ _ Hsep) as Hlen.
  unfold array_put. rewrite <- Hlen.
  destruct (i <? length elems) eqn:Hi.
  - apply Nat.ltb_lt in Hi.
    destruct (sep_list_split _ _ _ _ i Hsep) as (F1 & F2' & -> & Hd1 & H1 & H2').
    destruct (lookup_lt_is_Some_2 elems i Hi) as [x0 Hx0].
    destruct (lookup_lt_is_Some_2 telems i ltac:(lia)) as [t0 Ht0].
    rewrite Hx0, Ht0. simpl.
    rewrite (drop_S elems x0 i), (drop_S telems t0 i) in H2' by done.
    inversion H2' as [|? ? F0 ? ? F2 Hxt H2 Hd2]; subst.
    exists F0, (F1 ∪ F2). split; [set_solver|]. split; [set_solver|]. split; [done|].
    intros h' x tx Fx Hx Hdx Hframe.
    rewrite !insert_take_drop by lia.
    replace (Fx ∪ (F1 ∪ F2)) with (F1 ∪ (Fx ∪ F2)) by set_solver.
    apply sep_list_app; [| |set_solver].
    + eapply sep_list_impl; [done|]. intros x' y' G _ HG Hxy.
      eapply tree_at_frame; [done|]. intros l Hl. apply Hframe. set_solver.
    + constructor; [done| |set_solver].
      eapply sep_list_impl; [done|]. intros x' y' G _ HG Hxy.
      eapply tree_at_frame; [done|]. intros l Hl. apply Hframe. set_solver.
  - apply Nat.ltb_ge in Hi.
    rewrite (lookup_ge_None_2 elems i), (lookup_ge_None_2 telems i) by lia. simpl.
    exists ∅, F. split; [set_solver|]. split; [set_solver|]. split; [constructor|].
    intros h' x tx Fx Hx Hdx Hframe.
    replace (Fx ∪ F) with (F ∪ (∅ ∪ (Fx ∪ ∅))) by set_solver.
    apply sep_list_app; [| |set_solver].
    + eapply sep_list_impl; [done|]. intros x' y' G _ HG Hxy.
      eapply tree_at_frame; [done|]. intros l Hl. apply Hframe. set_solver.
    + apply sep_list_app; [apply sep_list_holes| |set_solver].
      constructor; [done|constructor|set_solver].
Qed.
End ArrayChildren.

Section Rounds.
Implicit Types (h : list Heap.cell) (F : gset nat).

Lemma own_replace_same {A} key (x : A) props :
  own_lookup key props = Some x -> own_replace key x props = props.
Proof.
  induction props as [|[k y] rest IH]; simpl; [done|].
  destruct (String.eqb_spec k key) as [->|_].
  - by intros [= ->].
  - intros H. by rewrite IH.
Qed.

Lemma assignValue_object_insert h l props key x :
  h !! l = Some (Heap.CObj props) ->
  Heap.assignValue h (Heap.RRef l) key x
  = Some (<[l := Heap.CObj (own_define key x props)]> h).
Proof.
  intros Hc. unfold Heap.assignValue. simpl. rewrite Hc.
  destruct (own_lookup key props) as [x0|] eqn:Hx0; simpl; [|done].
  destruct (bool_decide (x0 = x)) eqn:Heq; [|done].
  apply bool_decide_eq_true in Heq as ->.
  unfold own_define. rewrite Hx0, (own_replace_same _ _ _ Hx0).
  by rewrite list_insert_id.
Qed.

Lemma assignValue_array_insert h l elems key i x :
  h !! l = Some (Heap.CArr elems) -> array_index key = Some i ->
  Heap.assignValue h (Heap.RRef l) key x
  = Some (<[l := Heap.CArr (array_put Heap.RUndefined i x elems)]> h).
Proof.
  intros Hc Hi. unfold Heap.assignValue. simpl.
  rewrite Hc, Hi, (array_index_not_length _ _ Hi). simpl.
  destruct (i <? length elems) eqn:Hlt; simpl; [|done].
  destruct (bool_decide (default Heap.RUndefined (elems !! i) = x)) eqn:Heq; [|done].
  apply bool_decide_eq_true in Heq. apply Nat.ltb_lt in Hlt.
  destruct (lookup_lt_is_Some_2 elems i Hlt) as [x0 Hx0]. rewrite Hx0 in Heq. simpl in Heq.
  subst x0. unfold array_put. apply Nat.ltb_lt in Hlt. rewrite Hlt.
  by rewrite (list_insert_id elems i x), list_insert_id.
Qed.

Lemma assignValue_array_refused h l elems key x :
  h !! l = Some (Heap.CArr elems) -> array_index key = None -> not_a_number x ->
  Heap.assignValue h (Heap.RRef l) key x = None.
Proof.
  intros Hc Hi Hx. unfold Heap.assignValue. simpl. rewrite Hc, Hi.
  destruct (String.eqb key "length"); simpl; [|done].
  destruct (bool_decide _) eqn:Heq; [|done].
  apply bool_decide_eq_true in Heq. by subst x.
Qed.

(** One round of the loop of [baseSet] at an object or an array of the
    store: the child under [key], and the parent with the child written. *)
Lemma parent_round h l t F key :
  tree_at h (Heap.RRef l) t F ->
  (∀ tx, PutValue t key tx = None)
    ∧ (∀ h1 x, h1 !! l = h !! l -> not_a_number x ->
               Heap.assignValue h1 (Heap.RRef l) key x = None)
  ∨ ∃ F0 Frest (cellput : Heap.rvalue -> Heap.cell) (tput : value -> value),
      F = {[l]} ∪ (F0 ∪ Frest) ∧ F0 ## Frest ∧ (l ∉ F0 ∪ Frest)
      ∧ tree_at h (Heap.GetV h (Heap.RRef l) key) (GetV t key) F0
      ∧ (∀ tx, PutValue t key tx = Some (tput tx))
      ∧ (∀ h1 x, h1 !! l = h !! l ->
           Heap.assignValue h1 (Heap.RRef l) key x = Some (<[l := cellput x]> h1))
      ∧ (∀ h1 x, l < length h1 -> Heap.GetV (<[l := cellput x]> h1) (Heap.RRef l) key = x)
      ∧ (∀ h' x tx Fx,
           h' !! l = Some (cellput x) -> tree_at h' x tx Fx ->
           Fx ## Frest -> l ∉ Fx -> (∀ l', l' ∈ Frest -> h' !! l' = h !! l') ->
           tree_at h' (Heap.RRef l) (tput tx) ({[l]} ∪ (Fx ∪ Frest))).
Proof.
  inversion 1 as [| | | | |? props tprops F' Hc Hkeys Hsep Hl
                  |? elems telems F' Hc Hsep Hl]; subst.
  - right. destruct (obj_child h props tprops F' key Hkeys Hsep)
      as (F0 & Frest & -> & Hd & Hchild & Hput).
    exists F0, Frest, (λ x, Heap.CObj (own_define key x props)),
      (λ tx, VObj (own_define key tx tprops)).
    split; [done|]. split; [done|]. split; [done|]. split; [by simpl; rewrite Hc|].
    split; [done|]. split; [|split].
    + intros h1 x Hh1. apply assignValue_object_insert. by rewrite Hh1.
    + intros h1 x Hlt. simpl. rewrite list_lookup_insert_eq by done.
      by rewrite own_lookup_define.
    + intros h' x tx Fx Hcell Hx Hdx Hlx Hframe.
      destruct (Hput h' x tx Fx Hx Hdx Hframe) as [Hkeys' Hsep'].
      apply tree_obj with (props := own_define key x props); [done..|set_solver].
  - destruct (array_index key) as [i|] eqn:Hi.
    + right. destruct (arr_child h elems telems F' i Hsep)
        as (F0 & Frest & -> & Hd & Hchild & Hput).
      exists F0, Frest, (λ x, Heap.CArr (array_put Heap.RUndefined i x elems)),
        (λ tx, VArr (array_put VUndefined i tx telems)).
      split; [done|]. split; [done|]. split; [done|]. split.
      { simpl. by rewrite Hc, Hi, (array_index_not_length _ _ Hi). }
      split; [by intros tx; simpl; rewrite Hi|]. split; [|split].
      * intros h1 x Hh1. apply assignValue_array_insert; [by rewrite Hh1|done].
      * intros h1 x Hlt. simpl. rewrite list_lookup_insert_eq by done.
        by rewrite Hi, (array_index_not_length _ _ Hi), array_put_lookup.
      * intros h' x tx Fx Hcell Hx Hdx Hlx Hframe.
        apply tree_arr with (elems := array_put Heap.RUndefined i x elems); [done| |set_solver].
        by apply Hput.
    + left. split; [by intros tx; simpl; rewrite Hi|].
      intros h1 x Hh1 Hx. apply (assignValue_array_refused h1 l elems); [by rewrite Hh1|done..].
Qed.
End Rounds.

Section SetRefines.
Implicit Types (h : list Heap.cell) (F : gset nat).

(** The loop of [baseSet] on the store does to the tree what the loop on
    trees does, in the cells of the tree and in new cells. *)
Lemma baseSet_walk_refines path : ∀ h v t F s,
  tree_at h v t F -> isObject t = true ->
  match baseSet_walk t path (VStr s) with
  | Some t' =>
      ∃ h' F',
        Heap.baseSet_walk h v path (Heap.RStr s) = Some h'
        ∧ tree_at h' v t' F'
        ∧ (∀ l, l ∈ F' -> l ∈ F ∨ length h ≤ l)
        ∧ (∀ l, l < length h -> l ∉ F -> h' !! l = h !! l)
        ∧ length h ≤ length h'
  | None => Heap.baseSet_walk h v path (Heap.RStr s) = None
  end.
Proof.
  induction path as [|key rest IH]; intros h v t F s Ht Hobj.
  { simpl. exists h, F. split; [done|]. split; [done|]. split; [by left|]. split; [done|lia]. }
  assert (∃ l, v = Heap.RRef l) as [l ->].
  { inversion Ht; subst; try done; by eexists. }
  pose proof (tree_at_bound _ _ _ _ Ht) as Hbound.
  cbn [baseSet_walk Heap.baseSet_walk Heap.isNullish].
  destruct (is_unsafe_key key).
  { exists h, F. split; [done|]. split; [done|]. split; [by left|]. split; [done|lia]. }
  assert (l < length h) as Hllt by (apply Hbound; inversion Ht; set_solver).
  destruct (parent_round h l t F key Ht)
    as [[Hnone Hrefused]
       |(F0 & Frest & cellput & tput & -> & Hd & Hl & Hchild & Hsome & Hassign & Hget & Hback)].
  { (* the write of this round is refused *)
    destruct rest as [|next rest'].
    - rewrite Hnone. by rewrite (Hrefused h (Heap.RStr s)).
    - cbv zeta. destruct (baseSet_walk _ (next :: rest') _); rewrite ?Hnone.
      all: destruct (Heap.isObject (Heap.GetV h (Heap.RRef l) key)) eqn:Hx.
      all: try (rewrite (Hrefused h); [done|done|];
                by destruct (Heap.GetV h (Heap.RRef l) key)).
      all: unfold Heap.alloc; rewrite (Hrefused (h ++ _)); [done| |done];
           by rewrite lookup_app_l. }
  destruct rest as [|next rest'].
  { (* the last key *)
    rewrite Hsome, (Hassign h (Heap.RStr s) eq_refl). cbn [Heap.baseSet_walk].
    exists (<[l := cellput (Heap.RStr s)]> h), ({[l]} ∪ (∅ ∪ Frest)).
    split; [done|]. split; [|split; [|split]].
    - apply (Hback _ (Heap.RStr s) (VStr s) ∅); [|constructor|set_solver|set_solver|].
      + by apply list_lookup_insert_eq.
      + intros l' Hl'. apply list_lookup_insert_ne. set_solver.
    - intros l0 Hl0. left. set_solver.
    - intros l0 _ Hl0. apply list_lookup_insert_ne. set_solver.
    - by rewrite length_insert. }
  (* a key on the way *)
  cbv zeta. rewrite <- (tree_at_isObject _ _ _ _ Hchild).
  set (x0 := Heap.GetV h (Heap.RRef l) key) in *.
  set (t0 := GetV t key) in *.
  set (empty := if isIndex next then Heap.CArr [] else Heap.CObj []).
  set (tempty := if isIndex next then VArr [] else VObj []).
  assert (∃ x h1 tnew Fnew,
    (if Heap.isObject x0 then (x0, h) else Heap.alloc empty h) = (x, h1)
    ∧ (if Heap.isObject x0 then t0 else tempty) = tnew
    ∧ tree_at h1 x tnew Fnew ∧ isObject tnew = true ∧ not_a_number x
    ∧ (∀ l0, l0 ∈ Fnew -> l0 ∈ F0 ∨ l0 = length h)
    ∧ (∀ l0, l0 < length h -> h1 !! l0 = h !! l0)
    ∧ length h ≤ length h1)
    as (x & h1 & tnew & Fnew & -> & -> & Hx & Hxobj & Hxnum & HFnew & Hh1 & Hlen1).
  { destruct (Heap.isObject x0) eqn:Hx0.
    - exists x0, h, t0, F0. split; [done|]. split; [done|]. split; [done|].
      split; [by rewrite <- (tree_at_isObject _ _ _ _ Hchild)|].
      split; [by destruct x0|]. split; [by left|]. split; [done|lia].
    - exists (Heap.RRef (length h)), (h ++ [empty]), tempty, {[length h]}.
      split; [done|]. split; [done|]. split; [|split; [|split; [|split; [|split]]]].
      + subst empty tempty. destruct (isIndex next).
        * replace ({[length h]} : gset nat) with ({[length h]} ∪ ∅ : gset nat) by set_solver.
          apply tree_arr with (elems := []); [by apply list_lookup_middle|constructor|set_solver].
        * replace ({[length h]} : gset nat) with ({[length h]} ∪ ∅ : gset nat) by set_solver.
          apply tree_obj with (props := []);
            [by apply list_lookup_middle|done|constructor|set_solver].
      + subst tempty. by destruct (isIndex next).
      + done.
      + intros l0 ->%elem_of_singleton. by right.
      + intros l0 Hl0. by apply lookup_app_l.
      + rewrite length_app. lia. }
  assert (l ∉ Fnew) as HlFnew.
  { intros [?|?]%HFnew; [set_solver|lia]. }
  rewrite (Hassign h1 x (Hh1 l Hllt)). cbv beta iota.
  set (h2 := <[l := cellput x]> h1).
  assert (l < length h1) as Hllt1 by lia.
  subst h2. rewrite (Hget h1 x Hllt1). set (h2 := <[l := cellput x]> h1).
  assert (tree_at h2 x tnew Fnew) as Hx2.
  { eapply tree_at_frame; [done|]. intros l0 Hl0. apply list_lookup_insert_ne. set_solver. }
  specialize (IH h2 x tnew Fnew s Hx2 Hxobj).
  destruct (baseSet_walk tnew (next :: rest') (VStr s)) as [tchild|]; [|done].
  destruct IH as (h3 & F3 & -> & Hchild3 & HF3 & Hframe3 & Hlen3).
  assert (length h2 = length h1) as Hlen2 by (subst h2; by rewrite length_insert).
  rewrite Hsome. exists h3, ({[l]} ∪ (F3 ∪ Frest)).
  assert (∀ l0, l0 ∈ Frest -> l0 < length h) as HFrest.
  { intros l0 Hl0. apply Hbound. set_solver. }
  split; [done|]. split; [|split; [|split]].
  - apply (Hback h3 x tchild F3); [|done| | |].
    + rewrite Hframe3; [|lia|done]. by apply list_lookup_insert_eq.
    + apply elem_of_disjoint. intros l0 Hl03 Hl0r. specialize (HFrest l0 Hl0r).
      destruct (HF3 l0 Hl03) as [Hin|?]; [|lia].
      destruct (HFnew l0 Hin) as [?|?]; [set_solver|lia].
    + intros Hl3. destruct (HF3 l Hl3) as [?|?]; [done|lia].
    + intros l0 Hl0. specialize (HFrest l0 Hl0). rewrite Hframe3; [|lia|].
      * subst h2. rewrite list_lookup_insert_ne by set_solver. by apply Hh1.
      * intros [?|?]%HFnew; [set_solver|lia].
  - intros l0 [->%elem_of_singleton|[Hl0|Hl0]%elem_of_union]%elem_of_union.
    + left. set_solver.
    + destruct (HF3 l0 Hl0) as [Hin|?]; [|right; lia].
      destruct (HFnew l0 Hin) as [?|?]; [left; set_solver|right; lia].
    + left. set_solver.
  - intros l0 Hl0 Hnot. rewrite Hframe3; [|lia|].
    + subst h2. rewrite list_lookup_insert_ne by set_solver. by apply Hh1.
    + intros [?|?]%HFnew; [set_solver|lia].
  - lia.
Qed.
End SetRefines.

(** ** Properties in the order in which they were written *)

Section Ordered.
Context {A : Type}.
Implicit Types (props : list (string * A)) (key : string) (v : A).

Lemma own_define_appends key v props :
  key_appends (map fst props) key = true ->
  own_define key v props = props ++ [(key, v)].
Proof.
  unfold key_appends, own_define, own_insert. intros [Hnew Hpos]%andb_true_iff.
  assert (own_lookup key props = None) as ->.
  { clear Hpos. induction props as [|[k x] rest IH]; simpl in *; [done|].
    apply andb_true_iff in Hnew as [Hk Hrest]. apply negb_true_iff in Hk. rewrite Hk.
    by apply IH. }
  destruct (array_index key) as [i|]; [|done]. clear Hnew.
  induction props as [|[k x] rest IH]; simpl in *; [done|].
  apply andb_true_iff in Hpos as [Hk Hrest].
  destruct (array_index k) as [j|]; [|done]. rewrite Hk. by rewrite IH.
Qed.
End Ordered.

Section CloneRefines.
Implicit Types (h : list Heap.cell) (F : gset nat).

Lemma sep_list_bound h xs ys F l :
  sep_list (tree_at h) xs ys F -> l ∈ F -> l < length h.
Proof.
  intros Hsep Hl. destruct (sep_list_elem _ _ _ _ _ Hsep Hl) as (x & y & G & _ & Hxy & HlG).
  by eapply tree_at_bound.
Qed.

Lemma sep_list_frame h h' xs ys F :
  sep_list (tree_at h) xs ys F -> (∀ l, l ∈ F -> h' !! l = h !! l) ->
  sep_list (tree_at h') xs ys F.
Proof.
  intros Hsep Hframe. eapply sep_list_impl; [done|]. intros x y G _ HG Hxy.
  eapply tree_at_frame; [done|]. intros l Hl. apply Hframe. set_solver.
Qed.

Lemma clone_props_tree n clone h0 lr : ∀ todo ttodo h rdone tdone Fd,
  clones_as_trees n clone -> (∀ h1, Heap.clones_fresh h1 clone) ->
  Forall2 (λ kv kt, fst kv = fst kt ∧ Heap.read n h0 (snd kv) = Some (snd kt)) todo ttodo ->
  ordered_keys (map fst tdone) (map fst ttodo) = true ->
  forallb (λ kt, ordered (snd kt)) ttodo = true ->
  Heap.extends h0 h -> Heap.fresh (length h0) h (Heap.RRef lr) ->
  h !! lr = Some (Heap.CObj rdone) -> map fst rdone = map fst tdone ->
  sep_list (tree_at h) (map snd rdone) (map snd tdone) Fd ->
  (∀ l, l ∈ Fd -> lr < l) ->
  ∃ h' r' F',
    Heap.clone_props clone (Heap.RRef lr) h todo = Some h'
    ∧ h' !! lr = Some (Heap.CObj r')
    ∧ map fst r' = map fst (tdone ++ ttodo)
    ∧ sep_list (tree_at h') (map snd r') (map snd (tdone ++ ttodo)) F'
    ∧ ∀ l, l ∈ F' -> lr < l.
Proof.
  induction todo as [|[key x] rest IH];
    intros ttodo h rdone tdone Fd Htrees Hfresh Hsrc Hkeys Hord Hext Hres Hlr Hdone Hsep HFd.
  { apply Forall2_nil_inv_l in Hsrc as ->. rewrite app_nil_r.
    exists h, rdone, Fd. by repeat split. }
  apply Forall2_cons_inv_l in Hsrc as ([key' tx] & trest & [Hk Hx] & Hrest & ->).
  simpl in Hk, Hx. subst key'. simpl in Hkeys, Hord.
  apply andb_true_iff in Hkeys as [Happ Hkeys]. apply andb_true_iff in Hord as [Hordx Hord].
  cbn [Heap.clone_props].
  destruct (Htrees h0 h x tx Hext Hx Hordx) as (x' & h1 & Fx & Hclone & Hx' & HFx).
  rewrite Hclone.
  destruct (Hfresh h _ _ _ _ (extends_refl h) Hclone) as (Hext1 & Hlen1 & _).
  destruct (Hfresh h0 _ _ _ _ Hext Hclone) as (Hext01 & _ & Hfx).
  pose proof (lookup_lt_Some _ _ _ Hlr) as Hlrlt.
  assert (h1 !! lr = Some (Heap.CObj rdone)) as Hlr1.
  { by rewrite (extends_lookup _ _ _ Hext1). }
  rewrite (assignValue_object_insert h1 lr rdone key x' Hlr1).
  rewrite own_define_appends by (by rewrite Hdone).
  set (h2 := <[lr := Heap.CObj (rdone ++ [(key, x')])]> h1).
  assert (Heap.extends h0 h2) as Hext02.
  { apply extends_insert; [done|simpl in Hres; lia|]. simpl.
    destruct Hext01 as [_ Hnew]. specialize (Hnew lr _ ltac:(simpl in Hres; lia) Hlr1).
    simpl in Hnew. rewrite map_app. apply Forall_app. split; [done|]. by constructor. }
  assert (sep_list (tree_at h2) (map snd (rdone ++ [(key, x')]))
            (map snd (tdone ++ [(key, tx)])) (Fd ∪ (Fx ∪ ∅))) as Hsep2.
  { rewrite !map_app. apply sep_list_app.
    - apply (sep_list_frame h); [done|]. intros l Hl.
      pose proof (sep_list_bound _ _ _ _ _ Hsep Hl). specialize (HFd l Hl).
      subst h2. rewrite list_lookup_insert_ne by lia. by apply extends_lookup.
    - constructor; [|constructor|set_solver].
      apply (tree_at_frame h1); [done|]. intros l Hl. specialize (HFx l Hl).
      subst h2. apply list_lookup_insert_ne. lia.
    - apply elem_of_disjoint. intros l Hl [Hl'|?]%elem_of_union; [|set_solver].
      pose proof (sep_list_bound _ _ _ _ _ Hsep Hl). specialize (HFx l Hl'). lia. }
  destruct (IH trest h2 (rdone ++ [(key, x')]) (tdone ++ [(key, tx)]) (Fd ∪ (Fx ∪ ∅)))
    as (h' & r' & F' & -> & Hlr' & Hk' & Hsep' & HF'); try done.
  - by rewrite map_app.
  - simpl. subst h2. rewrite length_insert. simpl in Hres. lia.
  - subst h2. apply list_lookup_insert_eq. lia.
  - by rewrite !map_app, Hdone.
  - intros l [Hl|[Hl|?]%elem_of_union]%elem_of_union; [by apply HFd| |set_solver].
    specialize (HFx l Hl). lia.
  - exists h', r', F'. rewrite <- app_assoc in Hk', Hsep'. by repeat split.
Qed.

Lemma clone_elems_tree n clone h0 lr : ∀ todo ttodo h rdone tdone Fd,
  clones_as_trees n clone -> (∀ h1, Heap.clones_fresh h1 clone) ->
  Forall2 (λ x y, Heap.read n h0 x = Some y) todo ttodo ->
  forallb ordered ttodo = true ->
  Heap.extends h0 h -> Heap.fresh (length h0) h (Heap.RRef lr) ->
  h !! lr = Some (Heap.CArr (rdone ++ replicate (length todo) Heap.RUndefined)) ->
  sep_list (tree_at h) rdone tdone Fd ->
  (∀ l, l ∈ Fd -> lr < l) ->
  ∃ h' r' F',
    Heap.clone_elems clone (Heap.RRef lr) (length rdone) h todo = Some h'
    ∧ h' !! lr = Some (Heap.CArr r')
    ∧ sep_list (tree_at h') r' (tdone ++ ttodo) F'
    ∧ ∀ l, l ∈ F' -> lr < l.
Proof.
  induction todo as [|x rest IH];
    intros ttodo h rdone tdone Fd Htrees Hfresh Hsrc Hord Hext Hres Hlr Hsep HFd.
  { apply Forall2_nil_inv_l in Hsrc as ->. simpl in Hlr. rewrite app_nil_r in *.
    exists h, rdone, Fd. by repeat split. }
  apply Forall2_cons_inv_l in Hsrc as (tx & trest & Hx & Hrest & ->).
  simpl in Hord. apply andb_true_iff in Hord as [Hordx Hord].
  cbn [Heap.clone_elems].
  destruct (Htrees h0 h x tx Hext Hx Hordx) as (x' & h1 & Fx & Hclone & Hx' & HFx).
  rewrite Hclone.
  destruct (Hfresh h _ _ _ _ (extends_refl h) Hclone) as (Hext1 & Hlen1 & _).
  destruct (Hfresh h0 _ _ _ _ Hext Hclone) as (Hext01 & _ & Hfx).
  pose proof (lookup_lt_Some _ _ _ Hlr) as Hlrlt.
  assert (h1 !! lr = Some (Heap.CArr (rdone ++ replicate (length (x :: rest)) Heap.RUndefined)))
    as Hlr1.
  { by rewrite (extends_lookup _ _ _ Hext1). }
  unfold Heap.PutIndex. rewrite Hlr1.
  assert (array_put Heap.RUndefined (length rdone) x'
            (rdone ++ replicate (length (x :: rest)) Heap.RUndefined)
          = (rdone ++ [x']) ++ replicate (length rest) Heap.RUndefined) as ->.
  { unfold array_put. simpl.
    assert ((length rdone
             <? length (rdone ++ Heap.RUndefined :: replicate (length rest) Heap.RUndefined))
            = true) as ->.
    { apply Nat.ltb_lt. rewrite length_app. simpl. lia. }
    rewrite insert_app_r_alt by lia. rewrite Nat.sub_diag. simpl. by rewrite <- app_assoc. }
  set (h2 := <[lr := Heap.CArr ((rdone ++ [x']) ++ replicate (length rest) Heap.RUndefined)]> h1).
  assert (Heap.extends h0 h2) as Hext02.
  { apply extends_insert; [done|simpl in Hres; lia|]. simpl.
    destruct Hext01 as [_ Hnew]. specialize (Hnew lr _ ltac:(simpl in Hres; lia) Hlr1).
    simpl in Hnew. apply Forall_app in Hnew as [Hd Hholes]. simpl in Hholes.
    apply Forall_cons in Hholes as [_ Hholes].
    apply Forall_app. split; [|done]. apply Forall_app. split; [done|]. by constructor. }
  assert (sep_list (tree_at h2) (rdone ++ [x']) (tdone ++ [tx]) (Fd ∪ (Fx ∪ ∅))) as Hsep2.
  { apply sep_list_app.
    - apply (sep_list_frame h); [done|]. intros l Hl.
      pose proof (sep_list_bound _ _ _ _ _ Hsep Hl). specialize (HFd l Hl).
      subst h2. rewrite list_lookup_insert_ne by lia. by apply extends_lookup.
    - constructor; [|constructor|set_solver].
      apply (tree_at_frame h1); [done|]. intros l Hl. specialize (HFx l Hl).
      subst h2. apply list_lookup_insert_ne. lia.
    - apply elem_of_disjoint. intros l Hl [Hl'|?]%elem_of_union; [|set_solver].
      pose proof (sep_list_bound _ _ _ _ _ Hsep Hl). specialize (HFx l Hl'). lia. }
  destruct (IH trest h2 (rdone ++ [x']) (tdone ++ [tx]) (Fd ∪ (Fx ∪ ∅)))
    as (h' & r' & F' & Hrun & Hlr' & Hsep' & HF'); try done.
  - simpl. subst h2. rewrite length_insert. simpl in Hres. lia.
  - subst h2. apply list_lookup_insert_eq. lia.
  - intros l [Hl|[Hl|?]%elem_of_union]%elem_of_union; [by apply HFd| |set_solver].
    specialize (HFx l Hl). lia.
  - rewrite length_app in Hrun. simpl in Hrun. rewrite Nat.add_1_r in Hrun. rewrite Hrun.
    exists h', r', F'. rewrite <- app_assoc in Hsep'. by repeat split.
Qed.

Lemma cloneDeep_tree n : clones_as_trees n (Heap.cloneDeep n).
Proof.
  induction n as [|n IH]; intros h0 h v t Hext Hread Hord.
  - destruct v; simpl in Hread; try done; injection Hread as <-;
      eexists _, h, ∅; (split; [done|split; [constructor|set_solver]]).
  - destruct v as [| | | | |l]; simpl in Hread;
      try (injection Hread as <-; eexists _, h, ∅;
           (split; [done|split; [constructor|set_solver]])).
    destruct (h0 !! l) as [c|] eqn:Hc; [|done].
    pose proof (lookup_lt_Some _ _ _ Hc) as Hl.
    pose proof (extends_length _ _ Hext) as Hlen.
    assert (h !! l = Some c) as Hc' by (by rewrite (extends_lookup _ _ _ Hext)).
    cbn [Heap.cloneDeep]. rewrite Hc'. unfold Heap.alloc.
    destruct c as [props|elems].
    + destruct (mapM _ props) as [tprops|] eqn:Hprops; [|done].
      injection Hread as <-. simpl in Hord. apply andb_true_iff in Hord as [Hkeys Hord].
      apply mapM_Some in Hprops.
      destruct (extends_alloc h0 h (Heap.CObj []) Hext) as [Hext1 Hres]; [done|].
      destruct (clone_props_tree n (Heap.cloneDeep n) h0 (length h) props tprops
                  (h ++ [Heap.CObj []]) [] [] ∅)
        as (h' & r' & F' & -> & Hlr & Hk & Hsep & HF'); try done.
      * intros h1. apply extends_cloneDeep.
      * eapply Forall2_impl; [done|]. intros [k x] [k' y] Hxy. simpl in *.
        destruct (Heap.read n h0 x); [|done]. by injection Hxy as <- <-.
      * by apply list_lookup_middle.
      * constructor.
      * exists (Heap.RRef (length h)), h', ({[length h]} ∪ F'). split; [done|]. split.
        -- apply (tree_obj h' (length h) r' tprops F'); try done.
           intros Hin. specialize (HF' _ Hin). lia.
        -- intros l0 [->%elem_of_singleton|Hin]%elem_of_union; [lia|].
           specialize (HF' _ Hin). lia.
    + destruct (mapM _ elems) as [telems|] eqn:Helems; [|done].
      injection Hread as <-. simpl in Hord.
      apply mapM_Some in Helems.
      destruct (extends_alloc h0 h (Heap.CArr (replicate (length elems) Heap.RUndefined)) Hext)
        as [Hext1 Hres].
      { simpl. by apply Forall_replicate. }
      destruct (clone_elems_tree n (Heap.cloneDeep n) h0 (length h) elems telems
                  (h ++ [Heap.CArr (replicate (length elems) Heap.RUndefined)]) [] [] ∅)
        as (h' & r' & F' & Hrun & Hlr & Hsep & HF'); try done.
      * intros h1. apply extends_cloneDeep.
      * by apply list_lookup_middle.
      * constructor.
      * simpl in Hrun. rewrite Hrun.
        exists (Heap.RRef (length h)), h', ({[length h]} ∪ F'). split; [done|]. split.
        -- apply (tree_arr h' (length h) r' telems F'); try done.
           intros Hin. specialize (HF' _ Hin). lia.
        -- intros l0 [->%elem_of_singleton|Hin]%elem_of_union; [lia|].
           specialize (HF' _ Hin). lia.
Qed.
End CloneRefines.

Section RunRefines.
Implicit Types (h : list Heap.cell) (F : gset nat).

Lemma set_refines h dm tdm F path s :
  tree_at h dm tdm F ->
  match set tdm path (VStr s) with
  | Some t' =>
      ∃ h' F', Heap.set h dm path (Heap.RStr s) = Some h'
        ∧ tree_at h' dm t' F'
        ∧ (∀ l, l ∈ F' -> l ∈ F ∨ length h ≤ l)
        ∧ length h ≤ length h'
  | None => Heap.set h dm path (Heap.RStr s) = None
  end.
Proof.
  intros Ht. unfold set, Heap.set, baseSet, Heap.baseSet.
  rewrite (tree_at_isNullish _ _ _ _ Ht), (tree_at_isObject _ _ _ _ Ht).
  destruct (tree_at_read _ _ _ _ Ht) as [n Hn].
  rewrite <- (read_castPath _ _ _ _ path Hn).
  destruct (isNullish tdm). { exists h, F. repeat split; [done|by left|done]. }
  destruct (isObject tdm) eqn:Hobj; simpl; [|exists h, F; repeat split; [done|by left|done]].
  pose proof (baseSet_walk_refines (castPath path tdm) h dm tdm F s Ht Hobj) as Hwalk.
  destruct (baseSet_walk tdm _ _) as [t'|]; [|done].
  destruct Hwalk as (h' & F' & Hrun & Ht' & HF' & _ & Hlen). by exists h', F'.
Qed.

Lemma tree_at_fresh h dm tdm F n :
  tree_at h dm tdm F -> (∀ l, l ∈ F -> n ≤ l) -> Heap.fresh n h dm.
Proof.
  intros Ht HF. destruct dm as [| | | | |l]; simpl; try done.
  assert (l ∈ F) as Hl by (inversion Ht; set_solver).
  split; [by apply HF|by eapply tree_at_bound].
Qed.

Lemma forEach_refines fuel st h0 data tree :
  Heap.read fuel h0 data = Some tree ->
  ∀ issues h dm tdm F,
    Heap.extends h0 h -> tree_at h dm tdm F -> (∀ l, l ∈ F -> length h0 ≤ l) ->
    match forEach st tree issues tdm with
    | Some t' =>
        ∃ h' F', Heap.forEach fuel st data dm issues h = Some (Some h')
          ∧ tree_at h' dm t' F'
    | None => Heap.forEach fuel st data dm issues h = Some None
    end.
Proof.
  intros Hread. induction issues as [|error rest IH]; intros h dm tdm F Hext Ht HF; simpl.
  { by exists h, F. }
  unfold annotate, Heap.annotate.
  pose proof (read_get _ _ _ _ (join "." (path error)) (read_extends _ _ _ _ _ Hext Hread))
    as Hget.
  rewrite (read_errorDescription _ _ st _ _ error Hget).
  pose proof (set_refines h dm tdm F (join "." (path error))
                (errorDescription st (get tree (join "." (path error))) error) Ht) as Hset.
  destruct (set tdm _ _) as [t1|]; [|by rewrite Hset].
  destruct Hset as (h1 & F1 & Hrun & Ht1 & HF1 & Hlen). rewrite Hrun.
  pose proof (extends_length _ _ Hext) as Hlen0.
  pose proof (tree_at_fresh _ _ _ _ _ Ht HF) as Hdm.
  destruct (extends_set h0 h dm _ (Heap.RStr _) h1 Hext Hdm ltac:(done) Hrun) as [Hext1 _].
  apply (IH h1 dm t1 F1 Hext1 Ht1).
  intros l Hl. destruct (HF1 l Hl) as [?|?]; [by apply HF|lia].
Qed.
End RunRefines.

(** ** Joining a path and parsing it *)

Section JoinParse.
Implicit Types (key s : string) (keys : list string).

Lemma string_app_nil_r s : s +:+ "" = s.
Proof.
  induction s as [|c s IH]; [done|].
  change (String c s +:+ "") with (String c (s +:+ "")). by rewrite IH.
Qed.

Lemma concat_join_tail key keys : String.concat "." (key :: keys) = key +:+ join_tail keys.
Proof.
  revert key. induction keys as [|k ks IH]; intros key.
  - simpl. by rewrite string_app_nil_r.
  - change (String.concat "." (key :: k :: ks))
      with (key +:+ "." +:+ String.concat "." (k :: ks)).
    by rewrite IH.
Qed.

(** A key without dots and brackets is read up to the dot that follows. *)
Lemma span_key key keys :
  special_free key = true ->
  span (λ c, negb (is_path_special c)) (key +:+ join_tail keys) = (key, join_tail keys).
Proof.
  unfold special_free. induction key as [|c key IH]; simpl.
  - intros _. by destruct keys.
  - intros [Hc Hkey]%andb_true_iff. by rewrite Hc, (IH Hkey).
Qed.

Lemma rePropName_scan_key fuel key keys :
  key ≠ "" -> special_free key = true ->
  rePropName_scan (S fuel) (key +:+ join_tail keys)
  = key :: rePropName_scan fuel (join_tail keys).
Proof.
  intros Hne Hfree. destruct key as [|c key]; [done|].
  pose proof (span_key (String c key) keys Hfree) as Hspan.
  cbn [rePropName_scan]. change (String c key +:+ join_tail keys)
    with (String c (key +:+ join_tail keys)) in *.
  unfold rePropName_at. unfold special_free in Hfree. simpl in Hfree.
  apply andb_true_iff in Hfree as [Hc _]. rewrite Hc. by rewrite Hspan.
Qed.

Lemma join_tail_lookahead key keys :
  special_free key = true ->
  lookahead_empty_key (join_tail (key :: keys)) = bool_decide (key = "").
Proof.
  intros Hfree. destruct key as [|c key].
  - simpl. unfold lookahead_empty_key. simpl. by destruct keys.
  - unfold special_free in Hfree. simpl in Hfree. apply andb_true_iff in Hfree as [Hc _].
    unfold lookahead_empty_key. simpl. unfold is_path_special in Hc.
    apply negb_true_iff in Hc. apply orb_false_iff in Hc as [Hc Hc3].
    apply orb_false_iff in Hc as [Hc1 Hc2]. by rewrite Hc1, Hc2.
Qed.

(** The scan of what follows a key gives the keys that follow. *)
Lemma rePropName_scan_join_tail keys : ∀ fuel,
  Forall (λ key, special_free key = true) keys ->
  String.length (join_tail keys) ≤ fuel ->
  rePropName_scan fuel (join_tail keys) = keys.
Proof.
  induction keys as [|key keys IH]; intros fuel Hfree Hfuel.
  { by destruct fuel. }
  apply Forall_cons in Hfree as [Hkey Hfree].
  pose proof (join_tail_lookahead key keys Hkey) as Hlook.
  change (join_tail (key :: keys)) with (String "." (key +:+ join_tail keys)) in *.
  simpl in Hfuel. rewrite string_length_app in Hfuel.
  destruct fuel as [|fuel]; [lia|]. cbn [rePropName_scan].
  unfold rePropName_at. simpl. rewrite Hlook.
  destruct key as [|c key].
  - simpl. f_equal. apply IH; [done|]. simpl in Hfuel. lia.
  - rewrite bool_decide_eq_false_2 by done.
    destruct fuel as [|fuel]; [simpl in Hfuel; lia|].
    rewrite rePropName_scan_key by done. f_equal. apply IH; [done|].
    simpl in Hfuel. lia.
Qed.

(** [stringToPath] gives back the keys that were joined. *)
Lemma stringToPath_concat keys :
  Forall (λ key, special_free key = true) keys ->
  keys ≠ [] -> keys ≠ [""] ->
  stringToPath (String.concat "." keys) = keys.
Proof.
  intros Hfree Hne Hne'. destruct keys as [|key keys]; [done|].
  rewrite concat_join_tail. apply Forall_cons in Hfree as [Hkey Hfree].
  destruct key as [|c key].
  - destruct keys as [|k ks]; [done|].
    change (stringToPath ("" +:+ join_tail (k :: ks)))
      with ([""] ++ rePropName_scan (String.length (join_tail (k :: ks)))
                      (join_tail (k :: ks))).
    cbn [app]. f_equal. by apply rePropName_scan_join_tail.
  - unfold stringToPath. assert (Ascii.eqb c "." = false) as Hc.
    { unfold special_free in Hkey. simpl in Hkey. apply andb_true_iff in Hkey as [Hc _].
      unfold is_path_special in Hc. apply negb_true_iff in Hc.
      by apply orb_false_iff in Hc as [[? ?]%orb_false_iff ?]. }
    change (String c key +:+ join_tail keys) with (String c (key +:+ join_tail keys)).
    cbv beta iota. rewrite Hc. cbn [app].
    change (String c (key +:+ join_tail keys)) with (String c key +:+ join_tail keys).
    rewrite string_length_app. cbn [String.length Nat.add].
    rewrite rePropName_scan_key by done. f_equal.
    apply rePropName_scan_join_tail; [done|]. lia.
Qed.
End JoinParse.

(** ** Numbers written in decimal and array indices *)

Section DecimalIndex.
Implicit Types (d : Decimal.uint) (s : string).

Lemma digits_string_of_uint d : string_forallb is_digit (NilEmpty.string_of_uint d) = true.
Proof. induction d; simpl; by rewrite ?IHd. Qed.

Lemma digits_value_acc d : ∀ acc : positive,
  digits_value (N.pos acc) (NilEmpty.string_of_uint d) = N.pos (Pos.of_uint_acc d acc).
Proof.
  induction d as [|d IH|d IH|d IH|d IH|d IH|d IH|d IH|d IH|d IH|d IH]; intros acc;
    [done|..]; cbn [NilEmpty.string_of_uint digits_value Pos.of_uint_acc];
    rewrite <- IH; f_equal; simpl N_of_ascii; lia.
Qed.

(** [digits_value] reads the number that the digits write. *)
Lemma digits_value_of_uint d :
  digits_value 0 (NilEmpty.string_of_uint d) = Pos.of_uint d.
Proof.
  induction d as [|d IH|d IH|d IH|d IH|d IH|d IH|d IH|d IH|d IH|d IH];
    [done|exact IH|..];
    cbn [NilEmpty.string_of_uint digits_value Pos.of_uint];
    rewrite <- digits_value_acc; f_equal.
Qed.

Lemma nzhead_no_zero d :
  match Decimal.nzhead d with Decimal.D0 _ => False | _ => True end.
Proof. induction d; simpl; done. Qed.

(** Digits that are written without a zero in front, or the lone zero. *)
Lemma unorm_reIsUint d :
  Decimal.unorm d = d -> reIsUint_test (NilEmpty.string_of_uint d) = true.
Proof.
  intros Hnorm. pose proof (digits_string_of_uint d) as Hdigits.
  destruct d as [|d|d|d|d|d|d|d|d|d|d]; try done;
    try (simpl in *; by rewrite Hdigits).
  unfold Decimal.unorm in Hnorm. simpl in Hnorm.
  pose proof (nzhead_no_zero d) as Hd.
  destruct (Decimal.nzhead d); try done. by injection Hnorm as <-.
Qed.

Lemma to_uint_unorm p : Decimal.unorm (Pos.to_uint p) = Pos.to_uint p.
Proof.
  rewrite <- DecimalPos.Unsigned.to_of, DecimalPos.Unsigned.of_to. done.
Qed.

Lemma strip_zeros_empty s : strip_zeros s = "" -> s = zeros (String.length s).
Proof.
  induction s as [|c s IH]; simpl; [done|].
  destruct (strip_zeros s) eqn:Hs; [|done].
  destruct (Ascii.eqb_spec c "0") as [->|_]; [|done]. intros _. by rewrite <- IH.
Qed.

Lemma strip_zeros_length s : String.length (strip_zeros s) ≤ String.length s.
Proof.
  induction s as [|c s IH]; simpl; [done|].
  destruct (strip_zeros s) eqn:Hs.
  - destruct (Ascii.eqb c "0"); simpl; lia.
  - simpl in *. lia.
Qed.

(** The zeros taken off the end, put back. *)
Lemma strip_zeros_pad s :
  strip_zeros s +:+ zeros (String.length s - String.length (strip_zeros s)) = s.
Proof.
  induction s as [|c s IH]; [done|].
  pose proof (strip_zeros_length s) as Hlen. cbn [strip_zeros String.length].
  destruct (strip_zeros s) as [|c' r'] eqn:Hs.
  - apply strip_zeros_empty in Hs.
    destruct (Ascii.eqb_spec c "0") as [->|_].
    + cbn [String.length Nat.sub]. change ("" +:+ ?x) with x. cbn [zeros]. by rewrite <- Hs.
    + cbn [String.length]. change (String c "" +:+ ?x) with (String c x).
      rewrite Nat.sub_succ, Nat.sub_0_r. by rewrite <- Hs.
  - change (String c (String c' r') +:+ ?x) with (String c (String c' r' +:+ x)).
    cbn [String.length] in *. rewrite Nat.sub_succ. by rewrite IH.
Qed.

Lemma of_uint_acc_bound d : ∀ acc : positive,
  (Z.pos acc * 10 ^ Z.of_nat (String.length (NilEmpty.string_of_uint d))
   ≤ Z.pos (Pos.of_uint_acc d acc))%Z.
Proof.
  induction d as [|d IH|d IH|d IH|d IH|d IH|d IH|d IH|d IH|d IH|d IH]; intros acc;
    [simpl; lia|..];
    cbn [NilEmpty.string_of_uint String.length Pos.of_uint_acc];
    rewrite Nat2Z.inj_succ, Z.pow_succ_r by lia;
    match goal with
    | |- (_ ≤ Z.pos (Pos.of_uint_acc d ?a))%Z => specialize (IH a)
    end;
    pose proof (Z.pow_nonneg 10 (Z.of_nat (String.length (NilEmpty.string_of_uint d))));
    nia.
Qed.

(** A number with [k] digits is [10^(k-1)] at least. *)
Lemma digits_of_bound p :
  (10 ^ (Z.of_nat (String.length (digits_of p)) - 1) ≤ Z.pos p)%Z.
Proof.
  unfold digits_of. pose proof (to_uint_unorm p) as Hnorm.
  pose proof (DecimalPos.Unsigned.of_to p) as Hp.
  pose proof (DecimalPos.Unsigned.to_uint_nonzero p) as Hnz.
  destruct (Pos.to_uint p) as [|d|d|d|d|d|d|d|d|d|d] eqn:Hd; [done| |..];
    [|cbn [NilEmpty.string_of_uint String.length]; simpl in Hp;
      injection Hp as <-; rewrite Nat2Z.inj_succ, Z.sub_1_r, Z.pred_succ;
      (etrans; [|apply of_uint_acc_bound]); lia..].
  exfalso. unfold Decimal.unorm in Hnorm. simpl in Hnorm.
  pose proof (nzhead_no_zero d) as Hhead.
  destruct (Decimal.nzhead d); try done; try by injection Hnorm as <-.
Qed.

(** An integer below [10^21] is written with its digits. *)
Lemma Number_toString_pos p :
  (Z.pos p < 10 ^ 21)%Z -> Number_toString (Z.pos p) = digits_of p.
Proof.
  intros Hp. pose proof (digits_of_bound p) as Hbound.
  assert (Z.of_nat (String.length (digits_of p)) ≤ 21)%Z as Hlen.
  { destruct (Z.le_gt_cases (Z.of_nat (String.length (digits_of p))) 21) as [?|Hgt]; [done|].
    assert (10 ^ 21 ≤ 10 ^ (Z.of_nat (String.length (digits_of p)) - 1))%Z
      by (apply Z.pow_le_mono_r; lia).
    lia. }
  pose proof (strip_zeros_length (digits_of p)) as Hstrip.
  cbn [number_of_Z Number_toString]. cbv zeta.
  assert ((Z.of_nat (String.length (strip_zeros (digits_of p)))
           <=? Z.of_nat (String.length (digits_of p)))%Z = true) as ->
    by (apply Z.leb_le; lia).
  assert ((Z.of_nat (String.length (digits_of p)) <=? 21)%Z = true) as ->
    by (by apply Z.leb_le).
  cbn [andb]. rewrite <- Nat2Z.inj_sub, Nat2Z.id by done.
  change ("" +:+ ?x) with x. apply strip_zeros_pad.
Qed.

(** The text of a number that is not negative is read back as the number:
    below [2^32 - 1] it is the array index. *)
Lemma array_index_Number_toString (i : Z) :
  (0 ≤ i < 4294967295)%Z -> array_index (Number_toString i) = Some (Z.to_nat i).
Proof.
  intros Hi. destruct i as [|p|p]; [done| |lia].
  rewrite Number_toString_pos by lia.
  unfold array_index, digits_of.
  rewrite (unorm_reIsUint _ (to_uint_unorm p)), digits_value_of_uint.
  rewrite DecimalPos.Unsigned.of_to. simpl.
  assert ((N.pos p <? 4294967295)%N = true) as -> by (apply N.ltb_lt; lia).
  done.
Qed.

(** The first digit of a number is not taken off with the zeros. *)
Lemma strip_zeros_digits_of p :
  ∃ c r, strip_zeros (digits_of p) = String c r ∧ is_digit c = true.
Proof.
  unfold digits_of. pose proof (to_uint_unorm p) as Hnorm.
  pose proof (DecimalPos.Unsigned.to_uint_nonzero p) as Hnz.
  pose proof (digits_string_of_uint (Pos.to_uint p)) as Hdigits.
  destruct (Pos.to_uint p) as [|d|d|d|d|d|d|d|d|d|d] eqn:Hd; [done| |..];
    [|cbn [NilEmpty.string_of_uint strip_zeros];
      destruct (strip_zeros (NilEmpty.string_of_uint d)); by eexists _, _..].
  exfalso. unfold Decimal.unorm in Hnorm. simpl in Hnorm.
  pose proof (nzhead_no_zero d) as Hhead.
  destruct (Decimal.nzhead d); try done; try by injection Hnorm as <-.
Qed.

(** The text of a number begins with a digit, a sign, or the [N] of [NaN]
    or the [I] of [Infinity]. *)
Lemma Number_toString_head x :
  ∃ c r, Number_toString x = String c r
         ∧ (is_digit c = true ∨ c = "-"%char ∨ c = "N"%char ∨ c = "I"%char).
Proof.
  destruct x as [|[]| |negative s n].
  - eexists _, _. split; [reflexivity|]. auto.
  - eexists _, _. split; [reflexivity|]. auto.
  - eexists _, _. split; [reflexivity|]. auto.
  - eexists _, _. split; [reflexivity|]. by left.
  - cbn [Number_toString]. cbv zeta.
    destruct negative; [eexists _, _; split; [reflexivity|]; auto|].
    change ("" +:+ ?x) with x.
    destruct (strip_zeros_digits_of s) as (c & r & -> & Hc).
    destruct ((Z.of_nat (String.length (String c r)) <=? n)%Z && (n <=? 21)%Z).
    { eexists c, _. split; [reflexivity|]. by left. }
    destruct ((0 <? n)%Z && (n <=? 21)%Z) eqn:Hn.
    { apply andb_true_iff in Hn as [Hn _]. apply Z.ltb_lt in Hn.
      destruct (Z.to_nat n) as [|m] eqn:Hm; [lia|]. cbn [string_splitAt].
      destruct (string_splitAt m r). eexists c, _. split; [reflexivity|]. by left. }
    destruct ((-6 <? n)%Z && (n <=? 0)%Z).
    { eexists "0"%char, _. split; [reflexivity|]. by left. }
    destruct r; eexists c, _; (split; [reflexivity|]); by left.
Qed.
End DecimalIndex.

Section DecimalIndex2.
Implicit Types (d : Decimal.uint) (s : string).




End DecimalIndex2.

(** ** The path of an issue, joined and cast *)

Section CastJoin.
Implicit Types (key s : string) (keys : list string) (object : value).

Lemma special_free_not_deep s : special_free s = true -> reIsDeepProp_test s = false.
Proof.
  intros Hfree. destruct (reIsDeepProp_test s) eqn:Hdeep; [|done].
  apply deep_not_special_free in Hdeep. congruence.
Qed.

Lemma join_tail_deep key k keys :
  reIsPlainProp_test (key +:+ join_tail (k :: keys)) = false
  ∧ reIsDeepProp_test (key +:+ join_tail (k :: keys)) = true.
Proof.
  induction key as [|c key [IHp IHd]].
  - done.
  - change (String c key +:+ join_tail (k :: keys))
      with (String c (key +:+ join_tail (k :: keys))).
    split.
    + unfold reIsPlainProp_test in *. cbn [string_forallb]. rewrite IHp. apply andb_false_r.
    + cbn [reIsDeepProp_test]. rewrite IHd. apply orb_true_r.
Qed.

(** A joined path is cast to itself or to the keys that were joined. *)
Lemma castPath_concat keys object :
  Forall (λ key, special_free key = true) keys ->
  castPath (String.concat "." keys) object
  = if (length keys <=? 1) || HasProperty object (String.concat "." keys)
    then [String.concat "." keys] else keys.
Proof.
  intros Hfree. unfold castPath, isKey. destruct keys as [|key [|k keys]].
  - done.
  - simpl. apply Forall_cons in Hfree as [Hkey _].
    rewrite (special_free_not_deep _ Hkey). simpl. by rewrite orb_true_r.
  - rewrite concat_join_tail. destruct (join_tail_deep key k keys) as [-> ->].
    cbn [negb orb length Nat.leb].
    assert (negb (isNullish object) && HasProperty object (key +:+ join_tail (k :: keys))
            = HasProperty object (key +:+ join_tail (k :: keys))) as ->.
    { by destruct object. }
    destruct (HasProperty object _); [done|].
    rewrite <- concat_join_tail. apply stringToPath_concat; [done..|].
    by intros [= _ ?].
Qed.
End CastJoin.

(** ** What a write leaves as it is *)

Section Frame.
Implicit Types (key : string) (object nested v : value) (path : list string).






End Frame.

(** ** The text that shows a value *)

Section Display.
Implicit Types (s : string) (v : value).

Lemma replaceAll_app from to s s' :
  replaceAll from to (s +:+ s') = replaceAll from to s +:+ replaceAll from to s'.
Proof.
  induction s as [|c s IH]; [done|].
  change (String c s +:+ s') with (String c (s +:+ s')). simpl. by rewrite IH.
Qed.

Lemma replaceAll_absent from to s :
  string_existsb (Ascii.eqb from) s = false -> replaceAll from to s = s.
Proof.
  induction s as [|c s IH]; [done|]. cbn [string_existsb replaceAll].
  intros [Hc Hs]%orb_false_iff. rewrite (IH Hs).
  destruct (Ascii.eqb_spec c from) as [->|_]; [|done]. by rewrite Ascii.eqb_refl in Hc.
Qed.

Lemma json_escape_plain c : json_plain c = true -> json_escape c = String c EmptyString.
Proof.
  unfold json_plain, json_escape.
  intros [[Hq%negb_true_iff Hb%negb_true_iff]%andb_true_iff Hc%N.leb_le]%andb_true_iff.
  rewrite Hq, Hb. cbv zeta.
  repeat match goal with
         | |- context [(?n =? ?m)%N] => destruct (N.eqb_spec n m); [lia|]
         end.
  destruct (N.ltb_spec (N_of_ascii c) 32); [lia|done].
Qed.

Lemma string_flat_map_plain s :
  string_forallb json_plain s = true -> string_flat_map json_escape s = s.
Proof.
  induction s as [|c s IH]; simpl; [done|]. intros [Hc Hs]%andb_true_iff.
  by rewrite (json_escape_plain c Hc), (IH Hs).
Qed.

Lemma json_plain_no_quote s :
  string_forallb json_plain s = true -> string_existsb (Ascii.eqb dquote) s = false.
Proof.
  induction s as [|c s IH]; [done|]. cbn [string_forallb string_existsb].
  intros [Hc Hs]%andb_true_iff. rewrite (IH Hs), orb_false_r. unfold json_plain in Hc.
  apply andb_true_iff in Hc as [[Hq%negb_true_iff _]%andb_true_iff _].
  by rewrite Ascii.eqb_sym.
Qed.

(** The first character of a JSON text is not the [u] of [undefined]. *)
Lemma JSON_stringify_head v s :
  JSON_stringify v = Some s ->
  ∃ c r, s = String c r ∧ c ≠ "u"%char.
Proof.
  destruct v as [| |[]|n|s'|elems|props]; simpl; try done; intros [= <-];
    try (by eexists _, _).
  destruct (Number_toString_head n) as (c & r & Hn & Hc).
  destruct n as [| | |negative p e]; try (by eexists _, _);
    rewrite Hn; eexists c, r; (split; [done|]); intros ->;
    by destruct Hc as [?|[?|[?|?]]].
Qed.
Lemma string_existsb_app p s s' :
  string_existsb p (s +:+ s') = string_existsb p s || string_existsb p s'.
Proof.
  induction s as [|c s IH]; [done|].
  change (String c s +:+ s') with (String c (s +:+ s')). simpl.
  by rewrite IH, orb_assoc.
Qed.

(** A text whose message has a character that no number is written with
    is not a number. *)
Lemma errorDescription_not_a_length st v error :
  string_existsb (λ c, negb (numeric_char c)) (message error) = true ->
  not_a_length (VStr (errorDescription st v error)) = true.
Proof.
  intros Hmessage. unfold errorDescription, not_a_length. cbv zeta.
  destruct (String.eqb (message error) "Required").
  - rewrite string_existsb_app. apply orb_true_iff. by right.
  - rewrite !string_existsb_app, Hmessage. by rewrite !orb_true_r.
Qed.
End Display.

Section Append.
Lemma string_app_cons (x : ascii) (a b : string) : String x a +:+ b = String x (a +:+ b).
Proof. done. Qed.

Lemma string_app_assoc (a b c : string) : (a +:+ b) +:+ c = a +:+ b +:+ c.
Proof.
  induction a as [|x a IH]; [done|].
  change ((String x a +:+ b) +:+ c) with (String x ((a +:+ b) +:+ c)). by rewrite IH.
Qed.
End Append.

(** ** What the loop over the issues keeps *)

Section LoopKeeps.



End LoopKeeps.

(** ** Where the text of an issue is found *)

Section TextFound.
Implicit Types (key : string) (nested v : value) (path : list string).



End TextFound.

(** ** The text of an issue in what the loop leaves *)

Section TextKept.

(** What a run that returns has gone through. *)
Lemma validateSchemaZod_returned data schema st log r :
  validateSchemaZod data (SchemaObject schema) st = (log, Returned r) ->
  log = []
  ∧ issuesStyles r = spread issuesStylesDefault (default ∅ st)
  ∧ match safeParse schema data with
    | SafeParseSuccess => errors r = None ∧ dataMismatches r = data
    | SafeParseError issues =>
        errors r = Some issues
        ∧ forEach (spread issuesStylesDefault (default ∅ st)) data issues data
          = Some (dataMismatches r)
    end.
Proof.
  unfold validateSchemaZod, _validateSchemaZOD. rewrite cloneDeep_id.
  destruct (safeParse schema data) as [|issues].
  - by intros [= <- <-].
  - destruct (forEach _ data issues data) as [dm'|] eqn:Hloop.
    + by intros [= <- <-].
    + by destruct (forEach_throws _ _ _ _).
Qed.
End TextKept.

(** C7.  On data that stands for a tree the call comes to an end; it leaves
    every cell of the store it was given as it was, so the data stands for
    the same tree afterwards; and no cell reached from the returned
    [dataMismatches] is reached from the data. *)
Theorem validateSchemaZod_never_mutates_data fuel h data tree schema st :
  Heap.read fuel h data = Some tree ->
  ∃ log out h',
    Heap.validateSchemaZod fuel h data schema st = Some (log, out, h')
    ∧ take (length h) h' = h
    ∧ Heap.read fuel h' data = Some tree
    ∧ ∀ r, out = Returned r ->
        ∀ l, Heap.reachable h' (Heap.dataMismatches r) l -> ¬ Heap.reachable h' data l.
Proof.
  intros Hread.
  destruct (validateSchemaZod_returns fuel h data tree schema st Hread) as [[[log out] h'] Hrun].
  exists log, out, h'. split; [done|].
  apply validateSchemaZod_extends in Hrun as [Hext Hdm].
  split; [apply Hext|]. split; [by apply (read_extends fuel h)|].
  intros r -> l Hl Hl'.
  apply (fresh_reachable h h') in Hl; [|done|by apply Hdm].
  apply (read_reachable h h' _ _ Hext) with (n := fuel) (t := tree) in Hl'; [lia|done].
Qed.

(** C2.  Whatever the earlier issues have written into the copy, the text
    for the next issue is made from what its path reads in the tree that the
    data stood for when the call was made. *)
Theorem errorDescription_reads_original_data fuel h data tree st dm h1 earlier hi error :
  Heap.read fuel h data = Some tree ->
  Heap.cloneDeep fuel h data = Some (dm, h1) ->
  Heap.forEach fuel st data dm earlier h1 = Some (Some hi) ->
  let instancePath := join "." (path error) in
  let description := errorDescription st (get tree instancePath) error in
  Heap.read fuel hi data = Some tree
  ∧ Heap.errorDescription fuel hi st (Heap.get hi data instancePath) error
    = Some description
  ∧ Heap.annotate fuel st data dm hi error
    = Some (Heap.set hi dm instancePath (Heap.RStr description)).
Proof.
  intros Hread Hclone Hloop instancePath description.
  destruct (extends_cloneDeep h fuel _ _ _ _ (extends_refl h) Hclone) as (Hext1 & Hlen1 & Hdm).
  apply (extends_forEach h) in Hloop as [Hext _]; [|done..].
  pose proof (read_extends _ _ _ _ _ Hext Hread) as Hread'.
  assert (Heap.errorDescription fuel hi st (Heap.get hi data instancePath) error
          = Some description) as Hdescr.
  { apply read_errorDescription. by apply read_get. }
  split; [done|]. split; [done|].
  unfold Heap.annotate. fold instancePath. by rewrite Hdescr.
Qed.

(** A store with an object that holds another, and issues on overlapping
    paths: the first writes over the inner object of the copy, the second
    writes inside it. *)
Definition example_heap : list Heap.cell :=
  [Heap.CObj [("a", Heap.RRef 1)]; Heap.CObj [("b", Heap.RNum 1)]].

Definition example_issues : list ZodIssue :=
  [issue [Key "a"] "m1"; issue [Key "a"; Key "b"] "m2"].

Lemma validateSchemaZod_never_mutates_data_witness :
  let tree := VObj [("a", VObj [("b", VNum 1)])] in
  let schema := SchemaObject (reporting example_issues) in
  Heap.read 2 example_heap (Heap.RRef 0) = Some tree
  ∧ ∃ log out h',
      Heap.validateSchemaZod 2 example_heap (Heap.RRef 0) schema None = Some (log, out, h')
      ∧ take (length example_heap) h' = example_heap
      ∧ Heap.read 2 h' (Heap.RRef 0) = Some tree
      ∧ ∀ r, out = Returned r ->
          ∀ l, Heap.reachable h' (Heap.dataMismatches r) l
               -> ¬ Heap.reachable h' (Heap.RRef 0) l.
Proof.
  intros tree schema. split; [reflexivity|].
  apply (validateSchemaZod_never_mutates_data 2 example_heap (Heap.RRef 0) tree schema None).
  reflexivity.
Defined.

Lemma errorDescription_reads_original_data_witness :
  let tree := VObj [("a", VObj [("b", VNum 1)])] in
  let st := issuesStylesDefault in
  let h1 := example_heap ++ [Heap.CObj [("a", Heap.RRef 3)]; Heap.CObj [("b", Heap.RNum 1)]] in
  let hi := example_heap ++ [Heap.CObj [("a", Heap.RStr " ⚠️ {'b':1} m1")];
                             Heap.CObj [("b", Heap.RNum 1)]] in
  let error := issue [Key "a"; Key "b"] "m2" in
  Heap.read 2 example_heap (Heap.RRef 0) = Some tree
  ∧ Heap.cloneDeep 2 example_heap (Heap.RRef 0) = Some (Heap.RRef 2, h1)
  ∧ Heap.forEach 2 st (Heap.RRef 0) (Heap.RRef 2) [issue [Key "a"] "m1"] h1 = Some (Some hi)
  ∧ Heap.read 2 hi (Heap.RRef 0) = Some tree
  ∧ Heap.errorDescription 2 hi st (Heap.get hi (Heap.RRef 0) "a.b") error = Some " ⚠️ 1 m2"
  ∧ Heap.annotate 2 st (Heap.RRef 0) (Heap.RRef 2) hi error
    = Some (Heap.set hi (Heap.RRef 2) "a.b" (Heap.RStr " ⚠️ 1 m2")).
Proof.
  intros tree st h1 hi error.
  split; [reflexivity|]. split; [by vm_compute|]. split; [by vm_compute|].
  apply (errorDescription_reads_original_data 2 example_heap (Heap.RRef 0) tree st
           (Heap.RRef 2) h1 [issue [Key "a"] "m1"] hi error);
    [reflexivity|by vm_compute|by vm_compute].
Defined.

(** ** The claims *)

(** C3.  With [null] or [undefined] for a schema the call logs and throws
    the fixed message whatever the data, and on the store nothing is read
    or written: no fuel is used and the store is returned as it was. *)
Theorem validateSchemaZod_without_schema data st fuel h rdata :
  validateSchemaZod data SchemaNull st
    = (["You must provide a valid schema!"], Thrown "You must provide a valid schema!")
  ∧ validateSchemaZod data SchemaUndefined st
    = (["You must provide a valid schema!"], Thrown "You must provide a valid schema!")
  ∧ Heap.validateSchemaZod fuel h rdata SchemaNull st
    = Some (["You must provide a valid schema!"], Thrown "You must provide a valid schema!", h)
  ∧ Heap.validateSchemaZod fuel h rdata SchemaUndefined st
    = Some (["You must provide a valid schema!"], Thrown "You must provide a valid schema!", h).
Proof. done. Qed.

(** C4.  An issue at the [length] of an array.  The engine reports a
    failure, and the call returns no result: the loop assigns the text to
    the [length] of the array in the copy, the text is not a number, and
    the assignment throws.  No [errors] is returned to read the issues
    from. *)
Theorem issue_at_array_length_throws elems message st :
  let data := VObj [("tags", VArr elems)] in
  let error := issue [Key "tags"; Key "length"] message in
  string_existsb (λ c, negb (numeric_char c)) message = true ->
  safeParse (reporting [error]) data = SafeParseError [error]
  ∧ validateSchemaZod data (SchemaObject (reporting [error])) st
    = ([], Thrown errorInvalidArrayLength).
Proof.
  intros data error Hmessage. split; [done|].
  pose proof (errorDescription_not_a_length
                (spread issuesStylesDefault (default ∅ st))
                (get data "tags.length") error Hmessage) as Htext.
  unfold validateSchemaZod, _validateSchemaZOD. rewrite cloneDeep_id.
  cbn [safeParse reporting forEach forEach_throws].
  unfold annotate, annotate_throws.
  change (join "." (path error)) with "tags.length".
  revert Htext.
  generalize (errorDescription (spread issuesStylesDefault (default ∅ st))
                (get data "tags.length") error).
  intros text Htext.
  unfold set, set_throws, baseSet, baseSet_throws.
  assert (castPath "tags.length" data = ["tags"; "length"]) as ->
    by (vm_compute; reflexivity).
  cbn [isNullish isObject negb data]. cbn. cbn in Htext.
  change (array_index "length") with (@None nat). rewrite Htext. reflexivity.
Qed.




(** C9.  The styles in use are the caller's over the defaults, key by key;
    they are the styles returned, and the ones the texts are made with. *)
Theorem issuesStyles_merged data schema st log r :
  validateSchemaZod data (SchemaObject schema) st = (log, Returned r) ->
  let overrides := default ∅ st in
  (∀ key, issuesStyles r !! key
          = match overrides !! key with
            | Some icon => Some icon
            | None => issuesStylesDefault !! key
            end)
  ∧ issuesStylesDefault !! "iconPropertyError" = Some "⚠️"
  ∧ issuesStylesDefault !! "iconPropertyMissing" = Some "❌"
  ∧ (∀ icon, overrides = {["iconPropertyMissing" := icon]} ->
       issuesStyles r !! "iconPropertyError" = Some "⚠️"
       ∧ issuesStyles r !! "iconPropertyMissing" = Some icon)
  ∧ (∀ issues, safeParse schema data = SafeParseError issues ->
       forEach (issuesStyles r) data issues data = Some (dataMismatches r))
  ∧ (∀ icon value error, overrides = {["iconPropertyMissing" := icon]} ->
       errorDescription (issuesStyles r) value error
       = if String.eqb (message error) "Required" then icon +:+ " Missing property"
         else " ⚠️ " +:+ replaceAll dquote "'" (String_of (JSON_stringify value))
              +:+ " " +:+ message error).
Proof.
  intros Hrun overrides.
  assert (issuesStyles r = spread issuesStylesDefault overrides) as Hst.
  { revert Hrun. unfold validateSchemaZod.
    destruct (_validateSchemaZOD _ _ _) as [r'| |]; [|done..]. by intros [= <- <-]. }
  assert (∀ key, issuesStyles r !! key
                 = match overrides !! key with
                   | Some icon => Some icon
                   | None => issuesStylesDefault !! key
                   end) as Hkey.
  { intros key. rewrite Hst. unfold spread. rewrite lookup_union.
    destruct (overrides !! key), (issuesStylesDefault !! key); done. }
  split; [done|]. split; [done|]. split; [done|]. split.
  { intros icon Hov. rewrite !Hkey, Hov. split; [done|].
    by rewrite lookup_singleton_eq. }
  split.
  - intros issues Hparse. apply validateSchemaZod_returned in Hrun as (_ & _ & Hrun).
    rewrite Hparse in Hrun. destruct Hrun as [_ Hloop]. by rewrite Hst.
  - intros icon value error Hov. unfold errorDescription.
    rewrite !Hkey, Hov, lookup_singleton_eq. by destruct (String.eqb _ _).
Qed.

(** C10.  On data that is neither an object nor an array the call returns,
    whatever the issues, and [dataMismatches] is the data: every [_.set] of
    the loop leaves it as it is. *)
Theorem primitive_data_is_not_annotated data schema st :
  isObject data = false ->
  validateSchemaZod data (SchemaObject schema) st
  = ([], Returned {| errors := match safeParse schema data with
                               | SafeParseSuccess => None
                               | SafeParseError issues => Some issues
                               end;
                     dataMismatches := data;
                     issuesStyles := spread issuesStylesDefault (default ∅ st) |}).
Proof.
  intros Hdata. unfold validateSchemaZod, _validateSchemaZOD. rewrite cloneDeep_id.
  destruct (safeParse schema data) as [|issues]; [done|].
  by rewrite forEach_primitive.
Qed.


Lemma resolves_keys path :
  is_unsafe_key path = false ->
  stringToPath path ≠ [] -> forallb (λ key, negb (is_unsafe_key key)) (stringToPath path) = true ->
  resolves path.
Proof.
  intros Hsafe Hne Hkeys object. unfold castPath. destruct (isKey path object).
  - split; [done|]. by constructor.
  - split; [done|]. apply Forall_forall. intros key Hin.
    rewrite forallb_forall in Hkeys. apply negb_true_iff, Hkeys. by apply list_elem_of_In.
Qed.

(** ** The claims on concrete inputs *)

(** C1.  The data has a property [x] holding an object with one property,
    named [a.b], and the engine reports that property.  The text is not
    written at [x], [a.b]: that property keeps its value, a property [a] is
    created next to it, and the text shows [undefined], which is not the
    value reported. *)
Theorem dotted_property_name_is_split :
  let data := VObj [("x", VObj [("a.b", VNum 1)])] in
  let error := issue [Key "x"; Key "a.b"] "Expected string, received number" in
  ∃ r, validateSchemaZod data (SchemaObject (reporting [error])) None = ([], Returned r)
       ∧ dataMismatches r
         = VObj [("x", VObj [("a.b", VNum 1);
                             ("a", VObj [("b", VStr " ⚠️ undefined Expected string, received number")])])]
       ∧ baseGet_walk data ["x"; "a.b"] = VNum 1
       ∧ baseGet_walk (dataMismatches r) ["x"; "a.b"] = VNum 1
       ∧ baseGet_walk data ["x"; "a"] = VUndefined
       ∧ baseGet_walk (dataMismatches r) ["x"; "a"]
         = VObj [("b", VStr " ⚠️ undefined Expected string, received number")].
Proof. eexists. split; [vm_compute; reflexivity|]. by vm_compute. Qed.

Lemma issue_at_array_length_throws_witness :
  let data := VObj [("tags", VArr [VNum 1; VNum 2])] in
  let error := issue [Key "tags"; Key "length"] "Too long" in
  string_existsb (λ c, negb (numeric_char c)) "Too long" = true
  ∧ safeParse (reporting [error]) data = SafeParseError [error]
  ∧ validateSchemaZod data (SchemaObject (reporting [error])) None
    = ([], Thrown "Invalid array length").
Proof.
  intros data error. split; [reflexivity|].
  apply (issue_at_array_length_throws [VNum 1; VNum 2] "Too long" None). reflexivity.
Defined.




Lemma issuesStyles_merged_witness :
  let data := VObj [] in
  let error := issue [Key "name"] "Required" in
  let st : styles := {["iconPropertyMissing" := "❓"]} in
  let r := {| errors := Some [error];
              dataMismatches := VObj [("name", VStr "❓ Missing property")];
              issuesStyles := spread issuesStylesDefault st |} in
  validateSchemaZod data (SchemaObject (reporting [error])) (Some st) = ([], Returned r)
  ∧ issuesStyles r !! "iconPropertyError" = Some "⚠️"
  ∧ issuesStyles r !! "iconPropertyMissing" = Some "❓".
Proof.
  intros data error st r. split; [by vm_compute|].
  apply (issuesStyles_merged data (reporting [error]) (Some st) [] r); [by vm_compute|].
  reflexivity.
Defined.

Lemma primitive_data_is_not_annotated_witness :
  let error := issue [] "Expected object, received number" in
  isObject (VNum 5) = false
  ∧ validateSchemaZod (VNum 5) (SchemaObject (reporting [error])) None
    = ([], Returned {| errors := Some [error]; dataMismatches := VNum 5;
                       issuesStyles := spread issuesStylesDefault ∅ |}).
Proof.
  intros error. split; [reflexivity|].
  apply (primitive_data_is_not_annotated (VNum 5) (reporting [error]) None). reflexivity.
Defined.

(** ** The store run and the tree run *)

(** Where the data stands for a tree and none of its cells is met twice,
    the run on the store does what the run on the tree does.  When the run
    on the tree returns, the run on the store returns, with the same lines
    on the console, the same [errors] and [issuesStyles], and a
    [dataMismatches] that stands for the tree of the run on trees. *)
Theorem validateSchemaZod_refines fuel h data tree F schema st log r :
  tree_at h data tree F ->
  Heap.read fuel h data = Some tree -> ordered tree = true ->
  validateSchemaZod tree schema st = (log, Returned r) ->
  ∃ r' h',
    Heap.validateSchemaZod fuel h data schema st = Some (log, Returned r', h')
    ∧ Heap.errors r' = errors r
    ∧ Heap.issuesStyles r' = issuesStyles r
    ∧ ∃ n, Heap.read n h' (Heap.dataMismatches r') = Some (dataMismatches r).
Proof.
  intros _ Hread Hord Hrun. destruct schema as [| |schema]; [done..|].
  destruct (validateSchemaZod_returned _ _ _ _ _ Hrun) as (-> & Hst & Houtcome).
  unfold Heap.validateSchemaZod, Heap._validateSchemaZOD. rewrite Hread.
  destruct (cloneDeep_tree fuel h h data tree (extends_refl h) Hread Hord)
    as (dm & h1 & F1 & Hclone & Hdm & HF).
  rewrite Hclone.
  destruct (extends_cloneDeep h fuel _ _ _ _ (extends_refl h) Hclone) as (Hext1 & _ & _).
  destruct (safeParse schema tree) as [|issues].
  { destruct Houtcome as [Herrors Hcopy]. eexists _, h1. split; [done|]. simpl.
    rewrite Herrors, Hst, Hcopy. repeat split. by eapply tree_at_read. }
  destruct Houtcome as [Herrors Hloop].
  pose proof (forEach_refines fuel (spread issuesStylesDefault (default ∅ st)) h data tree
                Hread issues h1 dm tree F1 Hext1 Hdm HF) as Hstore.
  rewrite Hloop in Hstore. destruct Hstore as (h2 & F2 & -> & Ht').
  eexists _, h2. split; [done|]. simpl. rewrite Herrors, Hst.
  repeat split. by eapply tree_at_read.
Qed.

Lemma example_heap_tree :
  ∃ F, tree_at example_heap (Heap.RRef 0) (VObj [("a", VObj [("b", VNum 1)])]) F.
Proof.
  eexists. eapply (tree_obj _ 0 [("a", Heap.RRef 1)]); [done|done| |].
  - eapply (sep_cons _ (Heap.RRef 1) _ _ [] []); [|constructor|].
    + eapply (tree_obj _ 1 [("b", Heap.RNum 1)]); [done|done| |].
      * eapply (sep_cons _ (Heap.RNum 1) (VNum 1) _ [] []); [constructor|constructor|].
        set_solver.
      * set_solver.
    + set_solver.
  - set_solver.
Qed.

Lemma validateSchemaZod_refines_witness :
  let tree := VObj [("a", VObj [("b", VNum 1)])] in
  let schema := SchemaObject (reporting example_issues) in
  let r := {| errors := Some example_issues;
              dataMismatches := VObj [("a", VObj [("b", VStr " ⚠️ 1 m2")])];
              issuesStyles := issuesStylesDefault |} in
  (∃ F, tree_at example_heap (Heap.RRef 0) tree F)
  ∧ Heap.read 2 example_heap (Heap.RRef 0) = Some tree
  ∧ ordered tree = true
  ∧ validateSchemaZod tree schema None = ([], Returned r)
  ∧ ∃ r' h',
      Heap.validateSchemaZod 2 example_heap (Heap.RRef 0) schema None
      = Some ([], Returned r', h')
      ∧ Heap.errors r' = errors r
      ∧ Heap.issuesStyles r' = issuesStyles r
      ∧ ∃ n, Heap.read n h' (Heap.dataMismatches r') = Some (dataMismatches r).
Proof.
  intros tree schema r.
  assert (validateSchemaZod tree schema None = ([], Returned r)) as Hrun by by vm_compute.
  split; [exact example_heap_tree|]. split; [reflexivity|]. split; [reflexivity|].
  split; [exact Hrun|].
  destruct example_heap_tree as [F Htree].
  exact (validateSchemaZod_refines 2 example_heap (Heap.RRef 0) tree F schema None [] r
           Htree eq_refl eq_refl Hrun).
Defined.

(** ** Further properties of the module *)

(** An issue without path segments: the joined path is the empty text,
    which lodash takes as the name of a property.  The value shown is the
    one the data holds under that name, and in a copy that is an object the
    text is written under that name: it is read there afterwards, and the
    other properties are as they were. *)
Theorem empty_path_names_a_property st data props message :
  let error := issue [] message in
  let text := VStr (errorDescription st (get data "") error) in
  join "." (path error) = ""
  ∧ get data "" = (if isNullish data then VUndefined else GetV data "")
  ∧ annotate st data (VObj props) error = Some (VObj (own_define "" text props))
  ∧ GetV (VObj (own_define "" text props)) "" = text
  ∧ ∀ key, key ≠ "" ->
      GetV (VObj (own_define "" text props)) key = GetV (VObj props) key.
Proof.
  intros error text. split; [done|]. split; [|split; [done|split]].
  - unfold get, baseGet, castPath, isKey. simpl. by destruct (isNullish data).
  - simpl. by rewrite own_lookup_define.
  - intros key Hkey. simpl. by rewrite own_lookup_define_ne.
Qed.

(** The scenario of an object with a wrong [id] and no [name]: both issues
    are returned, and the copy holds one text for each. *)
Theorem scenario_wrong_id_missing_name :
  let data := VObj [("id", VStr "x")] in
  let issues := [issue [Key "id"] "Expected number, received string";
                 issue [Key "name"] "Required"] in
  validateSchemaZod data (SchemaObject (reporting issues)) None
  = ([], Returned {|
      errors := Some issues;
      dataMismatches :=
        VObj [("id", VStr " ⚠️ 'x' Expected number, received string");
              ("name", VStr "❌ Missing property")];
      issuesStyles := issuesStylesDefault |}).
Proof. by vm_compute. Qed.

(** lodash's [baseSet] refuses the names [__proto__], [constructor] and
    [prototype]: an issue at a property of such a name leaves no text in the
    copy. *)
Theorem unsafe_key_is_not_annotated st data dm key message :
  is_unsafe_key key = true ->
  annotate st data dm (issue [Key key] message) = Some dm.
Proof.
  intros Hkey. unfold annotate, set, baseSet. simpl.
  change (join "." [Key key]) with key.
  destruct (isNullish dm); [done|]. destruct (isObject dm); simpl; [|done].
  assert (castPath key dm = [key]) as ->.
  { unfold castPath, isKey. unfold is_unsafe_key in Hkey.
    destruct (String.eqb_spec key "__proto__") as [->|_]; [done|].
    destruct (String.eqb_spec key "constructor") as [->|_]; [done|].
    destruct (String.eqb_spec key "prototype") as [->|_]; [done|]. done. }
  simpl. by rewrite Hkey.
Qed.

Lemma unsafe_key_is_not_annotated_witness :
  let data := VObj [("constructor", VNum 5)] in
  is_unsafe_key "constructor" = true
  ∧ annotate issuesStylesDefault data data
      (issue [Key "constructor"] "Expected string, received number") = Some data.
Proof.
  intros data. split; [reflexivity|].
  apply (unsafe_key_is_not_annotated issuesStylesDefault data data "constructor"). reflexivity.
Defined.

(** ** Paths taken segment by segment *)



(** When no segment of the path has a dot or a bracket, and the joined
    path is not itself the name of a property of the data or of the copy,
    the value shown is read and the text is written by walking the
    segments one by one. *)
Theorem annotate_walks_the_segments st data dm error :
  let keys := map segment_toString (path error) in
  let instancePath := join "." (path error) in
  path error ≠ [] ->
  Forall (λ key, special_free key = true) keys ->
  length keys ≤ 1
    ∨ HasProperty data instancePath = false ∧ HasProperty dm instancePath = false ->
  get data instancePath = baseGet_walk data keys
  ∧ annotate st data dm error
    = if isObject dm
      then baseSet_walk dm keys (VStr (errorDescription st (baseGet_walk data keys) error))
      else Some dm.
Proof.
  intros keys instancePath Hne Hfree Hnamed.
  assert (∀ object, object = data ∨ object = dm -> castPath instancePath object = keys)
    as Hcast.
  { intros object Hobject. unfold instancePath, join. rewrite castPath_concat by done.
    fold keys. destruct (length keys <=? 1) eqn:Hlen.
    - apply Nat.leb_le in Hlen. subst keys. destruct (path error) as [|seg [|seg' rest]];
        [done|done|simpl in Hlen; lia].
    - apply Nat.leb_gt in Hlen. destruct Hnamed as [?|[Hdata Hdm]]; [lia|].
      change (String.concat "." keys) with instancePath.
      by destruct Hobject as [-> | ->]; rewrite ?Hdata, ?Hdm. }
  assert (keys ≠ []) as Hkeys by (subst keys; by destruct (path error)).
  assert (get data instancePath = baseGet_walk data keys) as Hget.
  { unfold get, baseGet. rewrite (Hcast data) by by left.
    destruct keys as [|key rest]; [done|]. simpl. by destruct (isNullish data). }
  split; [done|]. unfold annotate, set, baseSet. fold instancePath. rewrite Hget.
  destruct (isObject dm) eqn:Hobj; simpl.
  - rewrite (Hcast dm) by by right. by destruct dm.
  - by destruct (isNullish dm).
Qed.

Lemma annotate_walks_the_segments_witness :
  let data := VObj [("user", VObj [("tags", VArr [VStr "a"; VNum 2])])] in
  let error := issue [Key "user"; Key "tags"; Index 1] "Expected string, received number" in
  let keys := ["user"; "tags"; "1"] in
  path error ≠ []
  ∧ Forall (λ key, special_free key = true) keys
  ∧ (length keys ≤ 1
     ∨ HasProperty data "user.tags.1" = false ∧ HasProperty data "user.tags.1" = false)
  ∧ get data "user.tags.1" = VNum 2
  ∧ annotate issuesStylesDefault data data error
    = Some (VObj [("user", VObj [("tags",
              VArr [VStr "a"; VStr " ⚠️ 2 Expected string, received number"])])]).
Proof.
  intros data error keys.
  assert (path error ≠ []) as Hne by done.
  assert (Forall (λ key, special_free key = true) keys) as Hfree by by repeat constructor.
  assert (length keys ≤ 1
          ∨ HasProperty data "user.tags.1" = false ∧ HasProperty data "user.tags.1" = false)
    as Hnamed by (right; by split).
  split; [done|]. split; [done|]. split; [done|].
  exact (annotate_walks_the_segments issuesStylesDefault data data error Hne Hfree Hnamed).
Defined.

(** An index segment addresses the element of that number: on an array,
    an issue at the index [i] shows the element [i] of the data and puts
    the text in its place in the copy; past the end the array grows, with
    [undefined] in between. *)
Theorem index_segment_addresses_the_element st elems copy (i : Z) message :
  let error := issue [Index i] message in
  let text := VStr (errorDescription st (default VUndefined (elems !! Z.to_nat i)) error) in
  (0 ≤ i < 4294967295)%Z ->
  annotate st (VArr elems) (VArr copy) error
  = Some (VArr (array_put VUndefined (Z.to_nat i) text copy))
  ∧ (Z.to_nat i < length copy ->
     array_put VUndefined (Z.to_nat i) text copy = <[Z.to_nat i := text]> copy)
  ∧ (length copy ≤ Z.to_nat i ->
     array_put VUndefined (Z.to_nat i) text copy
     = copy ++ repeat VUndefined (Z.to_nat i - length copy) ++ [text]).
Proof.
  intros error text Hi. pose proof (array_index_Number_toString i Hi) as Hindex.
  pose proof (array_index_plain _ _ Hindex) as Hplain.
  split; [|split].
  - unfold annotate, set, baseSet, get, baseGet, castPath, isKey. simpl.
    change (join "." [Index i]) with (Number_toString i). rewrite Hplain. simpl.
    destruct (is_unsafe_key (Number_toString i)) eqn:Hunsafe.
    { unfold is_unsafe_key in Hunsafe.
      destruct (String.eqb_spec (Number_toString i) "__proto__") as [Heq|_];
        [by rewrite Heq in Hindex|].
      destruct (String.eqb_spec (Number_toString i) "constructor") as [Heq|_];
        [by rewrite Heq in Hindex|].
      destruct (String.eqb_spec (Number_toString i) "prototype") as [Heq|_];
        [by rewrite Heq in Hindex|]. done. }
    by rewrite (array_index_not_length _ _ Hindex), Hindex.
  - intros Hlt. unfold array_put. by apply Nat.ltb_lt in Hlt as ->.
  - intros Hge. unfold array_put. by apply Nat.ltb_ge in Hge as ->.
Qed.

Lemma index_segment_addresses_the_element_witness :
  let elems := [VStr "a"; VNum 2; VStr "c"] in
  let error := issue [Index 1] "Expected string, received number" in
  (0 ≤ 1 < 4294967295)%Z
  ∧ annotate issuesStylesDefault (VArr elems) (VArr elems) error
    = Some (VArr [VStr "a"; VStr " ⚠️ 2 Expected string, received number"; VStr "c"]).
Proof.
  intros elems error. split; [lia|].
  apply (index_segment_addresses_the_element issuesStylesDefault elems elems 1
           "Expected string, received number"). lia.
Defined.

(** The text [undefined] is shown for a value that is not there, and for
    no other value. *)
Theorem undefined_is_shown_only_for_absent st v error :
  String.eqb (message error) "Required" = false ->
  errorDescription st v error
  = " " +:+ template_of (st !! "iconPropertyError") +:+ " undefined " +:+ message error
  ↔ v = VUndefined.
Proof.
  intros Hm. unfold errorDescription. rewrite Hm. cbv zeta. split; [|by intros ->].
  intros Heq. apply (inj (String.append " ")) in Heq.
  apply (inj (String.append (template_of (st !! "iconPropertyError")))) in Heq.
  destruct (JSON_stringify v) as [s|] eqn:Hjson; [|by destruct v as [| |[]| | | |]].
  destruct (JSON_stringify_head v s Hjson) as (c & r & -> & Hc). exfalso.
  change (" undefined " +:+ message error) with (" " +:+ "undefined " +:+ message error) in Heq.
  apply (inj (String.append " ")) in Heq. simpl in Heq.
  change ("undefined " +:+ message error)
    with (String "u" ("ndefined " +:+ message error)) in Heq.
  rewrite string_app_cons in Heq.
  injection Heq as Heq _. destruct (Ascii.eqb_spec c dquote); [done|]. by apply Hc.
Qed.

Lemma undefined_is_shown_only_for_absent_witness :
  let error := issue [Key "age"] "Expected number, received nan" in
  String.eqb (message error) "Required" = false
  ∧ (errorDescription issuesStylesDefault (VStr "undefined") error
     = " ⚠️ undefined Expected number, received nan"
     ↔ VStr "undefined" = VUndefined)
  ∧ errorDescription issuesStylesDefault (VStr "undefined") error
    = " ⚠️ 'undefined' Expected number, received nan".
Proof.
  intros error. split; [reflexivity|]. split; [|reflexivity].
  apply (undefined_is_shown_only_for_absent issuesStylesDefault (VStr "undefined") error).
  reflexivity.
Defined.

(** A text without double quotes, backslashes and control characters is
    shown as it is, between single quotes. *)
Theorem string_value_is_shown_in_single_quotes st s error :
  String.eqb (message error) "Required" = false ->
  string_forallb json_plain s = true ->
  errorDescription st (VStr s) error
  = " " +:+ template_of (st !! "iconPropertyError") +:+ " '" +:+ s +:+ "' " +:+ message error.
Proof.
  intros Hm Hplain. unfold errorDescription. rewrite Hm. cbv zeta.
  do 2 f_equal. simpl JSON_stringify. unfold String_of, QuoteJSONString. simpl default.
  rewrite (string_flat_map_plain s Hplain).
  change (String dquote s +:+ String dquote "") with (String dquote (s +:+ String dquote "")).
  cbn [replaceAll]. rewrite Ascii.eqb_refl, replaceAll_app.
  rewrite (replaceAll_absent _ _ s (json_plain_no_quote s Hplain)).
  cbn [replaceAll]. rewrite Ascii.eqb_refl.
  change (" '" +:+ ?x) with (String " " (String "'" x)).
  change (" " +:+ ?x) with (String " " x). f_equal.
  change (String "'" (s +:+ "'") +:+ ?x) with (String "'" ((s +:+ "'") +:+ x)).
  f_equal. by rewrite string_app_assoc.
Qed.

Lemma string_value_is_shown_in_single_quotes_witness :
  let error := issue [Key "age"] "Expected number, received string" in
  String.eqb (message error) "Required" = false
  ∧ string_forallb json_plain "49" = true
  ∧ errorDescription issuesStylesDefault (VStr "49") error
    = " ⚠️ '49' Expected number, received string".
Proof.
  intros error. split; [reflexivity|]. split; [reflexivity|].
  apply (string_value_is_shown_in_single_quotes issuesStylesDefault "49" error); reflexivity.
Defined.

(** An issue below a property that the data has and that holds no object
    in the copy (a scalar, or the text of an earlier issue), and that is
    not the length of an array: the property is replaced by a new container
    holding the text only, an array when the second segment is an index. *)
Theorem issue_below_a_scalar_replaces_it st data dm a b message :
  let error := issue [Key a; Key b] message in
  let text := VStr (errorDescription st (get data (join "." (path error))) error) in
  special_free a = true -> special_free b = true ->
  is_unsafe_key a = false -> is_unsafe_key b = false ->
  HasProperty data a = true -> HasProperty dm a = true ->
  (∀ elems, dm = VArr elems -> a ≠ "length") ->
  isObject dm = true ->
  HasProperty dm (join "." (path error)) = false ->
  isObject (GetV dm a) = false ->
  annotate st data dm error
  = PutValue (if isIndex b then VArr [] else VObj []) b text ≫= PutValue dm a
  ∧ (isIndex b = false ->
     PutValue (VObj []) b text = Some (VObj [(b, text)])
     ∧ ∃ dm', annotate st data dm error = Some dm' ∧ GetV dm' a = VObj [(b, text)])
  ∧ (∀ i, array_index b = Some i ->
       isIndex b = true
       ∧ PutValue (VArr []) b text = Some (VArr (repeat VUndefined i ++ [text]))
       ∧ ∃ dm', annotate st data dm error = Some dm'
                ∧ GetV dm' a = VArr (repeat VUndefined i ++ [text])).
Proof.
  intros error text Ha Hb Hsafea Hsafeb _ Hhas Hlength Hobj Hnamed Hscalar.
  assert (annotate st data dm error
          = PutValue (if isIndex b then VArr [] else VObj []) b text ≫= PutValue dm a)
    as Hannotate.
  { unfold annotate, set, baseSet. rewrite Hobj.
    assert (isNullish dm = false) as -> by by destruct dm. cbn [negb].
    assert (castPath (join "." (path error)) dm = [a; b]) as ->.
    { unfold join in *. rewrite castPath_concat by by repeat constructor.
      by rewrite Hnamed. }
    cbn [baseSet_walk]. rewrite Hsafea, Hsafeb, Hscalar. done. }
  assert (∀ container, ∃ dm', PutValue dm a container = Some dm') as Hput.
  { intros container. destruct dm as [| | | | |elems|props]; try done; [|by eexists].
    simpl in *. destruct (String.eqb_spec a "length") as [Heq|_].
    { by destruct (Hlength elems eq_refl). }
    destruct (array_index a); [by eexists|done]. }
  assert (PutValue (VObj []) b text = Some (VObj [(b, text)])) as Hobject.
  { simpl. f_equal. f_equal. unfold own_define, own_insert. simpl.
    by destruct (array_index b). }
  split; [done|]. split.
  - intros Hindex. split; [done|].
    destruct (Hput (VObj [(b, text)])) as [dm' Hdm']. exists dm'.
    rewrite Hannotate, Hindex, Hobject. split; [done|]. by apply (GetV_PutValue dm).
  - intros i Hi.
    assert (isIndex b = true) as Hindex.
    { unfold array_index in Hi. unfold isIndex.
      destruct (reIsUint_test b); [|done]. simpl in *.
      destruct (N.ltb_spec (digits_value 0 b) 4294967295); [|done].
      apply N.ltb_lt. unfold MAX_SAFE_INTEGER. lia. }
    assert (PutValue (VArr []) b text = Some (VArr (repeat VUndefined i ++ [text])))
      as Harray.
    { simpl. rewrite Hi. unfold array_put. simpl. by rewrite Nat.sub_0_r. }
    split; [done|]. split; [done|].
    destruct (Hput (VArr (repeat VUndefined i ++ [text]))) as [dm' Hdm']. exists dm'.
    rewrite Hannotate, Hindex, Harray. split; [done|]. by apply (GetV_PutValue dm).
Qed.

Lemma issue_below_a_scalar_replaces_it_witness :
  let data := VObj [("address", VNum 5)] in
  let dm := VObj [("address", VStr " ⚠️ 5 Expected object, received number")] in
  special_free "address" = true ∧ special_free "city" = true
  ∧ is_unsafe_key "address" = false ∧ is_unsafe_key "city" = false
  ∧ HasProperty data "address" = true ∧ HasProperty dm "address" = true
  ∧ (∀ elems, dm = VArr elems -> "address" ≠ "length")
  ∧ isObject dm = true
  ∧ HasProperty dm "address.city" = false
  ∧ isObject (GetV dm "address") = false
  ∧ annotate issuesStylesDefault data dm (issue [Key "address"; Key "city"] "Required")
    = Some (VObj [("address", VObj [("city", VStr "❌ Missing property")])]).
Proof.
  intros data dm. repeat (split; [reflexivity|]). split; [done|].
  repeat (split; [reflexivity|]).
  apply (issue_below_a_scalar_replaces_it issuesStylesDefault data dm
           "address" "city" "Required"); try reflexivity. done.
Defined.

(** [_.cloneDeep] on the store: the copy stands for the same tree as the
    value copied, it is made of new cells only, and the cells that were
    there are left as they were. *)
Theorem cloneDeep_copies fuel h v t :
  Heap.read fuel h v = Some t -> ordered t = true ->
  ∃ v' h',
    Heap.cloneDeep fuel h v = Some (v', h')
    ∧ take (length h) h' = h
    ∧ Heap.read fuel h' v = Some t
    ∧ (∃ n, Heap.read n h' v' = Some t)
    ∧ ∀ l, Heap.reachable h' v' l -> length h ≤ l.
Proof.
  intros Hread Hord.
  destruct (cloneDeep_tree fuel h h v t (extends_refl h) Hread Hord)
    as (v' & h' & F & Hclone & Ht & _).
  destruct (extends_cloneDeep h fuel _ _ _ _ (extends_refl h) Hclone) as (Hext & _ & Hfresh).
  exists v', h'. split; [done|]. split; [by destruct Hext|].
  split; [by apply (read_extends _ h)|]. split; [by eapply tree_at_read|].
  intros l Hl. by apply (fresh_reachable h h' v').
Qed.

Lemma cloneDeep_copies_witness :
  let t := VObj [("a", VObj [("b", VNum 1)])] in
  Heap.read 2 example_heap (Heap.RRef 0) = Some t
  ∧ ordered t = true
  ∧ ∃ v' h',
      Heap.cloneDeep 2 example_heap (Heap.RRef 0) = Some (v', h')
      ∧ take (length example_heap) h' = example_heap
      ∧ Heap.read 2 h' (Heap.RRef 0) = Some t
      ∧ (∃ n, Heap.read n h' v' = Some t)
      ∧ ∀ l, Heap.reachable h' v' l -> length example_heap ≤ l.
Proof.
  intros t. split; [reflexivity|]. split; [reflexivity|].
  apply (cloneDeep_copies 2 example_heap (Heap.RRef 0) t); reflexivity.
Defined.







(** ** One call after another *)

(** A second call on the same data, with any schema and styles, leaves
    the data and the result of the first call as they were, and its own
    result shares no cell with the first. *)
Theorem second_call_keeps_first_result fuel h data tree schema st log r h1 schema' st' n t :
  Heap.read fuel h data = Some tree ->
  Heap.validateSchemaZod fuel h data schema st = Some (log, Returned r, h1) ->
  Heap.read n h1 (Heap.dataMismatches r) = Some t ->
  ∃ log' out' h2,
    Heap.validateSchemaZod fuel h1 data schema' st' = Some (log', out', h2)
    ∧ Heap.read fuel h2 data = Some tree
    ∧ Heap.read n h2 (Heap.dataMismatches r) = Some t
    ∧ ∀ r', out' = Returned r' ->
        ∀ l, Heap.reachable h2 (Heap.dataMismatches r') l
             -> ¬ Heap.reachable h2 (Heap.dataMismatches r) l.
Proof.
  intros Hread Hfirst Hresult.
  destruct (validateSchemaZod_extends _ _ _ _ _ _ _ _ Hfirst) as [Hext _].
  pose proof (read_extends fuel h h1 data tree Hext Hread) as Hread1.
  destruct (validateSchemaZod_returns fuel h1 data tree schema' st' Hread1)
    as [[[log' out'] h2] Hsecond].
  exists log', out', h2. split; [done|].
  destruct (validateSchemaZod_extends _ _ _ _ _ _ _ _ Hsecond) as [Hext2 Hdm2].
  split; [by apply (read_extends fuel h1)|]. split; [by apply (read_extends n h1)|].
  intros r' -> l Hl Hl'.
  apply (fresh_reachable h1 h2) in Hl; [|done|by apply Hdm2].
  apply (read_reachable h1 h2 _ _ Hext2) with (n := n) (t := t) in Hl'; [lia|done].
Qed.

Lemma second_call_keeps_first_result_witness :
  let tree := VObj [("a", VObj [("b", VNum 1)])] in
  let first := VObj [("a", VObj [("b", VStr " ⚠️ 1 m2")])] in
  let schema := SchemaObject (reporting example_issues) in
  let schema' := SchemaObject (reporting [issue [Key "a"] "m3"]) in
  let r := {| Heap.errors := Some example_issues;
              Heap.dataMismatches := Heap.RRef 2;
              Heap.issuesStyles := issuesStylesDefault |} in
  let h1 := example_heap
            ++ [Heap.CObj [("a", Heap.RRef 4)]; Heap.CObj [("b", Heap.RNum 1)];
                Heap.CObj [("b", Heap.RStr " ⚠️ 1 m2")]] in
  Heap.read 2 example_heap (Heap.RRef 0) = Some tree
  ∧ Heap.validateSchemaZod 2 example_heap (Heap.RRef 0) schema None = Some ([], Returned r, h1)
  ∧ Heap.read 2 h1 (Heap.RRef 2) = Some first
  ∧ ∃ log' out' h2,
      Heap.validateSchemaZod 2 h1 (Heap.RRef 0) schema' None = Some (log', out', h2)
      ∧ Heap.read 2 h2 (Heap.RRef 0) = Some tree
      ∧ Heap.read 2 h2 (Heap.RRef 2) = Some first.
Proof.
  intros tree first schema schema' r h1. split; [reflexivity|].
  assert (Heap.validateSchemaZod 2 example_heap (Heap.RRef 0) schema None
          = Some ([], Returned r, h1)) as Hfirst by by vm_compute.
  split; [exact Hfirst|]. split; [reflexivity|].
  destruct (second_call_keeps_first_result 2 example_heap (Heap.RRef 0) tree schema None
              [] r h1 schema' None 2 first eq_refl Hfirst eq_refl)
    as (log' & out' & h2 & Hsecond & Hdata & Hkept & _).
  by exists log', out', h2.
Defined.

(** ** The result of a run *)

(** When the engine reports success the call returns, [errors] is [null]
    and [dataMismatches] is the data, copied.  In a result that the call
    returns, [errors] is [null] in that case only: after a failure it is the
    list of the issues that the engine reported, in its order, and
    [dataMismatches] is what the loop over them has left. *)
Theorem errors_null_iff_valid data schema st :
  let merged := spread issuesStylesDefault (default ∅ st) in
  (safeParse schema data = SafeParseSuccess ->
   validateSchemaZod data (SchemaObject schema) st
   = ([], Returned {| errors := None; dataMismatches := data; issuesStyles := merged |}))
  ∧ ∀ log r,
      validateSchemaZod data (SchemaObject schema) st = (log, Returned r) ->
      (errors r = None ↔ safeParse schema data = SafeParseSuccess)
      ∧ ∀ issues, safeParse schema data = SafeParseError issues ->
          errors r = Some issues
          ∧ forEach merged data issues data = Some (dataMismatches r).
Proof.
  intros merged. split.
  - intros Hparse. unfold validateSchemaZod, _validateSchemaZOD.
    by rewrite Hparse, cloneDeep_id.
  - intros log r Hrun. apply validateSchemaZod_returned in Hrun as (_ & _ & Hrun).
    destruct (safeParse schema data) as [|issues'].
    + destruct Hrun as [Herrors _]. by split.
    + destruct Hrun as [Herrors Hloop]. split.
      * rewrite Herrors. by split.
      * by intros issues [= <-].
Qed.

Lemma errors_null_iff_valid_witness :
  let data := VObj [("id", VStr "x")] in
  let issues := [issue [Key "id"] "Expected number, received string";
                 issue [Key "name"] "Required"] in
  let r := {| errors := Some issues;
              dataMismatches :=
                VObj [("id", VStr " ⚠️ 'x' Expected number, received string");
                      ("name", VStr "❌ Missing property")];
              issuesStyles := issuesStylesDefault |} in
  validateSchemaZod data (SchemaObject accepting) None
  = ([], Returned {| errors := None; dataMismatches := data;
                     issuesStyles := spread issuesStylesDefault ∅ |})
  ∧ validateSchemaZod data (SchemaObject (reporting issues)) None = ([], Returned r)
  ∧ (errors r = None ↔ safeParse (reporting issues) data = SafeParseSuccess)
  ∧ errors r = Some issues
  ∧ forEach (spread issuesStylesDefault ∅) data issues data = Some (dataMismatches r).
Proof.
  intros data issues r.
  assert (validateSchemaZod data (SchemaObject (reporting issues)) None = ([], Returned r))
    as Hrun by by vm_compute.
  split; [exact (proj1 (errors_null_iff_valid data accepting None) eq_refl)|].
  split; [exact Hrun|].
  destruct (proj2 (errors_null_iff_valid data (reporting issues) None) [] r Hrun)
    as [Hnull Hfailure].
  split; [exact Hnull|]. exact (Hfailure issues eq_refl).
Defined.
